(** * A directory-tree utility (ind.py): shallow embedding and verification

    The program walks a directory, builds an in-memory tree of [TreeNode]s
    (class [Tree]), and renders it as text ([Tree.__str__]) or as XML
    ([Tree.save_xml]).  This file embeds the data model and the methods of
    [TreeNode] and [Tree] and proves properties of the build and of the two
    renderers.

    Conventions of the embedding.
    - Python [int] is [Z]; [str] is [string]: the bytes of its UTF-8 encoding
      and, for a file name that is not UTF-8, the bytes of the name, which
      Python keeps as lone surrogates.
    - A [pathlib.Path] is the list of its components; [Path.name] is the last
      one.
    - The file system is a record of the two queries the program makes
      ([os.listdir] behind [Path.iterdir], and [os.stat] behind [Path.is_dir]
      and [Path.is_file]), either of which may raise; it is not assumed to be
      a finite tree, so directory cycles through links are covered.  It is
      assumed not to change during one run.
    - Of the libraries, [bisect.insort] and the writer of [xml.dom.minidom]
      are embedded as they are written; [colorama]'s codes are parameters;
      serialising an element tree and parsing it again is given by its
      effect on the tree.
    - Methods that mutate [self] and a node take and return both; an exception
      is the [Raised] outcome.  The recursion of [generate_tree] is bounded by
      a fuel argument, and [Timeout] is the outcome of exhausted fuel; the
      build is shown never to reach it.

    The first part holds the definitions, the second the theorems. *)

From Stdlib Require Import String Ascii DecimalString.
From Stdlib Require Import ZArith List Bool Lia Arith PeanoNat Relations Sorted.
From Equations Require Import Equations.
Import ListNotations.

Local Open Scope string_scope.
Local Open Scope list_scope.
Local Open Scope Z_scope.

Set Warnings "-register-all".

(** * Part I: the program *)

(** ** Outcomes: a result, a raised exception, or exhausted fuel *)

(** The exceptions the modelled code can meet.  [PermissionError],
    [NotADirectoryError] and [FileNotFoundError] are subclasses of [OSError];
    [OSError] stands for any other of its subclasses.  [ValueError] is what
    [Path.relative_to] raises; [UnicodeEncodeError], one of its subclasses,
    and [ExpatError] are what reading an XML text can raise. *)
Inductive exn : Type :=
| PermissionError
| NotADirectoryError
| FileNotFoundError
| OSError
| ValueError
| UnicodeEncodeError
| ExpatError.

Inductive outcome (A : Type) : Type :=
| Done (a : A)
| Raised (e : exn)
| Timeout.

Arguments Done {A} a.
Arguments Raised {A} e.
Arguments Timeout {A}.

Definition bind {A B : Type} (m : outcome A) (k : A -> outcome B) : outcome B :=
  match m with
  | Done a => k a
  | Raised e => Raised e
  | Timeout => Timeout
  end.

(** The result of a call that returns or raises and does not recurse. *)
Inductive result (A : Type) : Type :=
| Ok (a : A)
| Error (e : exn).

Arguments Ok {A} a.
Arguments Error {A} e.

Definition lift {A : Type} (r : result A) : outcome A :=
  match r with
  | Ok a => Done a
  | Error e => Raised e
  end.

(** The answer of a query that has returned; a query that raises has not
    answered [True]. *)
Definition holds (r : result bool) : bool :=
  match r with
  | Ok b => b
  | Error _ => false
  end.

Notation "x <- m ;; k" := (bind m (fun x => k))
  (at level 61, m at next level, right associativity).
Notation "' p <- m ;; k" := (bind m (fun p => k))
  (at level 61, p pattern, m at next level, right associativity).

(** ** The standard library's [bisect] module *)

Module bisect.
Section Bisect.
Context {A : Type}.
(** [ltb x y] is Python's [x < y], that is [x.__lt__(y)]. *)
Variable ltb : A -> A -> bool.
Variable dflt : A.

(** [(lo + hi) // 2] *)
Definition mid (lo hi : nat) : nat := ((lo + hi) / 2)%nat.

(** [bisect.bisect_right(a, x, lo, hi)]:
    [while lo < hi: mid = (lo + hi) // 2;
       if x < a[mid]: hi = mid  else: lo = mid + 1]
    and the result is [lo].  [a[mid]] is read with a default that is never
    used when [hi <= len(a)]. *)
Equations? bisect_right (a : list A) (x : A) (lo hi : nat) : nat
  by wf (hi - lo)%nat lt :=
  bisect_right a x lo hi with lt_dec lo hi := {
    | left _ =>
        if ltb x (nth (mid lo hi) a dflt)
        then bisect_right a x lo (mid lo hi)
        else bisect_right a x (mid lo hi + 1) hi
    | right _ => lo }.
Proof.
  all: assert (lo <= mid lo hi)%nat
         by (unfold mid; apply Nat.div_le_lower_bound; lia);
       assert (mid lo hi < hi)%nat
         by (unfold mid; apply Nat.Div0.div_lt_upper_bound; lia);
       lia.
Qed.

(** [list.insert(i, x)] for [0 <= i]: an index beyond the end appends. *)
Definition list_insert (a : list A) (i : nat) (x : A) : list A :=
  firstn i a ++ x :: skipn i a.

(** [bisect.insort(a, x)] is [insort_right]: the insertion point is
    [bisect_right(a, x, 0, len(a))]. *)
Definition insort (a : list A) (x : A) : list A :=
  list_insert a (bisect_right a x 0 (length a)) x.
End Bisect.
End bisect.

(** ** [TreeNode] *)

Definition Path : Type := list string.

(** [Path.name]: the final component, empty for a path without components. *)
Definition name (p : Path) : string := last p "".

(** [parent / name] *)
Definition joinpath (p : Path) (n : string) : Path := p ++ [n].

Inductive TreeNode : Type :=
| mkTreeNode (state : Path) (children : list TreeNode).

Definition state (n : TreeNode) : Path :=
  match n with mkTreeNode s _ => s end.

Definition children (n : TreeNode) : list TreeNode :=
  match n with mkTreeNode _ cs => cs end.

(** [TreeNode(path)]: a node without children. *)
Definition TreeNode_new (p : Path) : TreeNode := mkTreeNode p [].

(** [TreeNode.__len__] *)
Definition len (n : TreeNode) : Z := Z.of_nat (length (children n)).

(** [TreeNode.__lt__] *)
Definition TreeNode_lt (n other : TreeNode) : bool := len n <? len other.

(** [TreeNode.add_child]: [bisect.insort(self.children, child)]. *)
Definition add_child (n child : TreeNode) : TreeNode :=
  mkTreeNode (state n)
    (bisect.insort TreeNode_lt (TreeNode_new []) (children n) child).

(** ** The file system and the command-line options *)

(** What [os.listdir] answers for a path: the entry names in the order the
    file system enumerates them, or the exception it raises. *)
Inductive listing : Type :=
| Entries (names : list string)
| Fails (e : exn).

(** What [os.stat] tells about a path, following links: the kind of the
    entry; or that there is none, which stands for the errors that [pathlib]
    takes for "no such entry" ([ENOENT], [ENOTDIR], [EBADF], [ELOOP]); or any
    other [OSError], such as the [PermissionError] of an entry in a directory
    that may be read but not searched. *)
Inductive kind : Type :=
| Directory
| RegularFile
| OtherKind.

Inductive status : Type :=
| Kind (k : kind)
| NoEntry
| StatFails (e : exn).

Record FileSystem : Type := mkFileSystem {
  listdir : Path -> listing;
  stat : Path -> status
}.

(** [Path.is_dir] and [Path.is_file]: [S_ISDIR] and [S_ISREG] of
    [self.stat().st_mode]; [False] when there is no such entry; any other
    error of [stat] is raised again.  An entry can be neither a directory nor
    a regular file (a dangling link, a FIFO, a socket, a device). *)
Definition is_dir (fs : FileSystem) (p : Path) : result bool :=
  match stat fs p with
  | Kind Directory => Ok true
  | Kind _ | NoEntry => Ok false
  | StatFails e => Error e
  end.

Definition is_file (fs : FileSystem) (p : Path) : result bool :=
  match stat fs p with
  | Kind RegularFile => Ok true
  | Kind _ | NoEntry => Ok false
  | StatFails e => Error e
  end.

(** [Path.iterdir]: the children [self / name] for the names of
    [os.listdir(self)]. *)
Definition iterdir (fs : FileSystem) (p : Path) : outcome (list Path) :=
  match listdir fs p with
  | Entries names => Done (map (joinpath p) names)
  | Fails e => Raised e
  end.

(** The [argparse.Namespace] that [main] builds: options [-a], [-d], [-f],
    [-m/--max_depth] and [-i]. *)
Module Namespace.
Record t : Type := mk {
  a : bool;
  d : bool;
  f : bool;
  max_depth : option Z;
  i : bool
}.
End Namespace.

(** ** [Tree]: the build *)

(** The fields of [Tree] that the build writes; [directory] and [args], which
    it only reads, are parameters of the methods.  During the build
    [self.root] is the very object that [generate_tree] is given, so the
    field is written once, with the node that the outermost call returns. *)
Record Tree : Type := mkTree {
  root : TreeNode;
  dir_count : Z;
  file_count : Z;
  full : bool
}.

Definition set_root (self : Tree) (r : TreeNode) : Tree :=
  mkTree r (dir_count self) (file_count self) (full self).
Definition set_dir_count (self : Tree) (n : Z) : Tree :=
  mkTree (root self) n (file_count self) (full self).
Definition set_file_count (self : Tree) (n : Z) : Tree :=
  mkTree (root self) (dir_count self) n (full self).
Definition set_full (self : Tree) (b : bool) : Tree :=
  mkTree (root self) (dir_count self) (file_count self) b.

(** [str.startswith] with a tuple of prefixes. *)
Definition startswith (s : string) (prefixes : list string) : bool :=
  existsb (fun p => String.prefix p s) prefixes.

(** [for child in node.children: body(child)], where the body may update
    [self] and the child it is given, and may raise. *)
Fixpoint for_children (body : Tree -> TreeNode -> outcome (Tree * TreeNode))
    (self : Tree) (cs : list TreeNode) : outcome (Tree * list TreeNode) :=
  match cs with
  | [] => Done (self, [])
  | child :: rest =>
      '(self1, child1) <- body self child ;;
      '(self2, rest1) <- for_children body self1 rest ;;
      Done (self2, child1 :: rest1)
  end.

(** Fuel that the recursion of [generate_tree] never exhausts (see
    [post_init_terminates]). *)
Definition recursion_bound : nat := 201%nat.

Section Build.
Variable fs : FileSystem.
Variable args : Namespace.t.

(** [Tree.__should_include]; [child.is_file()] is evaluated only when [-d]
    is set and the name has passed. *)
Definition should_include (child : Path) : result bool :=
  if negb (Namespace.a args) && startswith (name child) ["."; "__"]
  then Ok false
  else if Namespace.d args
  then match is_file fs child with
       | Ok true => Ok false
       | Ok false => Ok true
       | Error e => Error e
       end
  else Ok true.

(** [Tree.__increment_counts]; [child.is_dir()] comes first and may raise
    before anything is written. *)
Definition increment_counts (self : Tree) (child : Path) : result Tree :=
  match is_dir fs child with
  | Error e => Error e
  | Ok b =>
      let self :=
        if b
        then set_dir_count self (dir_count self + 1)
        else set_file_count self (file_count self + 1) in
      Ok (if dir_count self + file_count self >=? 200
          then set_full self true
          else self)
  end.

(** The loop of [Tree.expand] over the entries that [iterdir] yields.  It
    writes [self] and [node] in place, so an exception leaves them as they
    are when it is raised: the result is the exception that ended the loop,
    if one did, and the state the loop leaves. *)
Fixpoint expand_loop (self : Tree) (node : TreeNode) (entries : list Path)
    : option exn * (Tree * TreeNode) :=
  match entries with
  | [] => (None, (self, node))
  | child :: rest =>
      match should_include child with
      | Error e => (Some e, (self, node))
      | Ok false => expand_loop self node rest
      | Ok true =>
          match increment_counts self child with
          | Error e => (Some e, (self, node))
          | Ok self =>
              if full self then (None, (self, node))
              else expand_loop self (add_child node (TreeNode_new child)) rest
          end
      end
  end.

(** [Tree.expand]: the [try] covers the listing and the whole loop.  A
    [PermissionError] raised anywhere in it is swallowed and leaves what the
    loop has done so far; any other exception leaves the method. *)
Definition expand (self : Tree) (node : TreeNode) : outcome (Tree * TreeNode) :=
  match iterdir fs (state node) with
  | Done entries =>
      match expand_loop self node entries with
      | (None, after) => Done after
      | (Some PermissionError, after) => Done after
      | (Some e, _) => Raised e
      end
  | Raised PermissionError => Done (self, node)
  | Raised e => Raised e
  | Timeout => Timeout
  end.

(** [level == self.args.max_depth]; an [int] never equals [None]. *)
Definition at_max_depth (level : Z) : bool :=
  match Namespace.max_depth args with
  | Some m => level =? m
  | None => false
  end.

(** The body of the loop of [generate_tree] over [node.children], given the
    method itself: [if child.state.is_dir(): generate_tree(child, level + 1)]. *)
Definition descend (generate : Tree -> TreeNode -> Z -> outcome (Tree * TreeNode))
    (level : Z) (self : Tree) (child : TreeNode) : outcome (Tree * TreeNode) :=
  b <- lift (is_dir fs (state child)) ;;
  if b then generate self child (level + 1) else Done (self, child).

(** [Tree.generate_tree] *)
Fixpoint generate_tree (fuel : nat) (self : Tree) (node : TreeNode) (level : Z)
    : outcome (Tree * TreeNode) :=
  match fuel with
  | O => Timeout
  | S fuel' =>
      if full self || at_max_depth level then Done (self, node)
      else
        '(self1, node1) <- expand self node ;;
        '(self2, cs) <-
          for_children (descend (generate_tree fuel') level)
            self1 (children node1) ;;
        Done (self2, mkTreeNode (state node1) cs)
  end.

(** The state in which [__post_init__] starts: the field defaults and
    [self.root = TreeNode(self.directory)]. *)
Definition initial (directory : Path) : Tree :=
  mkTree (TreeNode_new directory) 0 0 false.

(** [Tree(directory, args)]: the generated [__init__] followed by
    [Tree.__post_init__]. *)
Definition post_init (directory : Path) : outcome Tree :=
  '(self1, root1) <-
    generate_tree recursion_bound (initial directory)
      (TreeNode_new directory) 0 ;;
  Done (set_root self1 root1).

(** *** The builder that appends

    The same build with [list.append] in the place of [bisect.insort]; the
    build is shown to be this one. *)
Definition add_child_append (n child : TreeNode) : TreeNode :=
  mkTreeNode (state n) (children n ++ [child]).

Fixpoint expand_loop_append (self : Tree) (node : TreeNode)
    (entries : list Path) : option exn * (Tree * TreeNode) :=
  match entries with
  | [] => (None, (self, node))
  | child :: rest =>
      match should_include child with
      | Error e => (Some e, (self, node))
      | Ok false => expand_loop_append self node rest
      | Ok true =>
          match increment_counts self child with
          | Error e => (Some e, (self, node))
          | Ok self =>
              if full self then (None, (self, node))
              else
                expand_loop_append self
                  (add_child_append node (TreeNode_new child)) rest
          end
      end
  end.

Definition expand_append (self : Tree) (node : TreeNode)
    : outcome (Tree * TreeNode) :=
  match iterdir fs (state node) with
  | Done entries =>
      match expand_loop_append self node entries with
      | (None, after) => Done after
      | (Some PermissionError, after) => Done after
      | (Some e, _) => Raised e
      end
  | Raised PermissionError => Done (self, node)
  | Raised e => Raised e
  | Timeout => Timeout
  end.

Fixpoint generate_tree_append (fuel : nat) (self : Tree) (node : TreeNode)
    (level : Z) : outcome (Tree * TreeNode) :=
  match fuel with
  | O => Timeout
  | S fuel' =>
      if full self || at_max_depth level then Done (self, node)
      else
        '(self1, node1) <- expand_append self node ;;
        '(self2, cs) <-
          for_children (descend (generate_tree_append fuel') level)
            self1 (children node1) ;;
        Done (self2, mkTreeNode (state node1) cs)
  end.

Definition post_init_append (directory : Path) : outcome Tree :=
  '(self1, root1) <-
    generate_tree_append recursion_bound (initial directory)
      (TreeNode_new directory) 0 ;;
  Done (set_root self1 root1).

(** *** The insertions of one [expand]

    [insert_all node entries]: [node.add_child(TreeNode(child))] for each
    [child] of [entries], one after the other. *)
Definition insert_all (node : TreeNode) (entries : list Path) : TreeNode :=
  fold_left (fun n child => add_child n (TreeNode_new child)) entries node.

(** *** Calls of [generate_tree] *)

(** One call of [generate_tree], by its arguments. *)
Record call : Type := mkCall {
  call_fuel : nat;
  call_self : Tree;
  call_node : TreeNode;
  call_level : Z
}.

Definition run (c : call) : outcome (Tree * TreeNode) :=
  generate_tree (call_fuel c) (call_self c) (call_node c) (call_level c).

(** [subcall c c']: the call [c] makes the call [c'] in its loop over the
    children: [c] is not stopped at its first line, its [expand] returns,
    and the loop reaches the directory [child] after the children [before]
    it, in the state [self'] they leave. *)
Inductive subcall : call -> call -> Prop :=
| subcall_intro fuel self node level self1 node1 before child after
    self' before' :
    full self || at_max_depth level = false ->
    expand self node = Done (self1, node1) ->
    children node1 = before ++ child :: after ->
    for_children (descend (generate_tree fuel) level) self1 before
      = Done (self', before') ->
    is_dir fs (state child) = Ok true ->
    subcall (mkCall (S fuel) self node level)
            (mkCall fuel self' child (level + 1)).
End Build.

(** ** The text renderer *)

(** The escape sequences of [colorama] that the renderer uses.  The package is
    not part of the program; its constants are parameters of the renderer. *)
Record Colorama : Type := mkColorama {
  Fore_BLUE : string;
  Fore_GREEN : string;
  Fore_YELLOW : string;
  Fore_RED : string;
  Style_RESET_ALL : string
}.

(** The line feed, Python's ["\n"]. *)
Definition nl : string := String (ascii_of_nat 10) EmptyString.

(** [str(n)] for an [int]. *)
Definition str_int (n : Z) : string := NilZero.string_of_int (Z.to_int n).

(** [Path.relative_to(other)]: the components below [other], or [ValueError]
    when [other] is not a prefix of the path. *)
Fixpoint relative_to (p other : Path) : outcome Path :=
  match other, p with
  | [], _ => Done p
  | b :: other', c :: p' =>
      if String.eqb b c then relative_to p' other' else Raised ValueError
  | _ :: _, [] => Raised ValueError
  end.

Section Render.
Local Open Scope string_scope.
Variable fs : FileSystem.
Variable args : Namespace.t.
Variable directory : Path.
Variable colorama : Colorama.
(** [os.sep], which [str(path)] puts between the components. *)
Variable sep : string.

(** [str(path)] for a relative path. *)
Definition str_path (p : Path) : string :=
  match p with
  | [] => "."
  | _ => String.concat sep p
  end.

(** The text that the f-string puts for [name] in [__format_tree]. *)
Definition display_name (child : TreeNode) : outcome string :=
  if negb (Namespace.f args) then Done (name (state child))
  else p <- relative_to (state child) directory ;; Done (str_path p).

(** The loop of [__format_tree] over [enumerate(node.children)]: [i] is the
    index of the first child of [rest], [n] is [len(node.children)], and
    [format] is the method itself, called on each child. *)
Section FormatLoop.
Variable format : TreeNode -> string -> outcome string.
Variable n : Z.
Variable branch : string.

Fixpoint format_loop (i : Z) (rest : list TreeNode) {struct rest}
    : outcome string :=
  match rest with
  | [] => Done ""
  | child :: rest' =>
      let item := branch ++ (if (i =? n - 1)%Z then "└── " else "├── ") in
      nm <- display_name child ;;
      is_f <- lift (is_file fs (state child)) ;;
      let color := if is_f then Fore_GREEN colorama else Fore_YELLOW colorama in
      let line := item ++ color ++ nm ++ Style_RESET_ALL colorama ++ nl in
      let new_branch :=
        branch ++ (if (i =? n - 1)%Z then "    " else "│   ") in
      sub <- format child new_branch ;;
      more <- format_loop (i + 1)%Z rest' ;;
      Done (line ++ sub ++ more)
  end.
End FormatLoop.

(** [Tree.__format_tree] *)
Fixpoint format_tree (node : TreeNode) (branch : string) {struct node}
    : outcome string :=
  match node with
  | mkTreeNode _ cs =>
      format_loop format_tree (Z.of_nat (length cs)) branch 0%Z cs
  end.

(** [Tree.__str__] *)
Definition str (self : Tree) : outcome string :=
  let header :=
    Fore_BLUE colorama ++ name (state (root self))
      ++ Style_RESET_ALL colorama ++ nl in
  body <- format_tree (root self) "" ;;
  let footer :=
    nl ++ Fore_YELLOW colorama ++ "Directories: "
      ++ str_int (dir_count self) ++ ", " in
  let footer :=
    footer ++ Fore_GREEN colorama ++ "Files: "
      ++ str_int (file_count self) ++ Style_RESET_ALL colorama in
  let footer :=
    if full self
    then footer ++ Fore_RED colorama ++ nl
           ++ "Output limited to 200 elements." ++ Style_RESET_ALL colorama
    else footer in
  Done (header ++ body ++ footer).

(** *** The diagram as the specification describes it

    The text of a node in its line: its bare name, or with [-f] its path
    below the scan root. *)
Definition shown (n : TreeNode) : string :=
  if Namespace.f args
  then str_path (skipn (length directory) (state n))
  else name (state n).

(** The label of a node: its text wrapped in the colour of its role. *)
Definition label (n : TreeNode) : string :=
  (if holds (is_file fs (state n))
   then Fore_GREEN colorama else Fore_YELLOW colorama)
    ++ shown n ++ Style_RESET_ALL colorama.

(** [draw branch last n] is the line of [n], which is the last of its
    siblings when [last] holds, followed by the lines of its descendants;
    every line ends with a line feed. *)
Fixpoint draw (branch : string) (last : bool) (n : TreeNode) {struct n}
    : string :=
  match n with
  | mkTreeNode _ cs =>
      branch ++ (if last then "└── " else "├── ") ++ label n ++ nl
        ++ (fix siblings (l : list TreeNode) {struct l} : string :=
              match l with
              | [] => ""
              | c :: l' =>
                  draw (branch ++ (if last then "    " else "│   "))
                       (match l' with [] => true | _ :: _ => false end) c
                    ++ siblings l'
              end) cs
  end.

(** The lines of a sequence of siblings under the prefix [branch]. *)
Fixpoint draw_siblings (branch : string) (l : list TreeNode) : string :=
  match l with
  | [] => ""
  | c :: l' =>
      draw branch (match l' with [] => true | _ :: _ => false end) c
        ++ draw_siblings branch l'
  end.

(** Header, diagram, blank line, summary and, when [full], the notice. *)
Definition layout (self : Tree) : string :=
  Fore_BLUE colorama ++ name (state (root self)) ++ Style_RESET_ALL colorama
    ++ nl
    ++ draw_siblings "" (children (root self))
    ++ nl
    ++ Fore_YELLOW colorama ++ "Directories: " ++ str_int (dir_count self)
    ++ ", " ++ Fore_GREEN colorama ++ "Files: " ++ str_int (file_count self)
    ++ Style_RESET_ALL colorama
    ++ (if full self
        then Fore_RED colorama ++ nl ++ "Output limited to 200 elements."
               ++ Style_RESET_ALL colorama
        else "").
End Render.

(** ** The XML renderer *)

(** An element as [xml.etree.ElementTree] and [xml.dom.minidom] have it: a
    tag, the attributes and the sub-elements, in order.  The elements of this
    program carry no text. *)
Inductive Element : Type :=
| mkElement (tag : string) (attrib : list (string * string))
    (subelements : list Element).

Definition tag (e : Element) : string :=
  match e with mkElement t _ _ => t end.
Definition attrib (e : Element) : list (string * string) :=
  match e with mkElement _ a _ => a end.
Definition subelements (e : Element) : list Element :=
  match e with mkElement _ _ l => l end.

(** The double quote character. *)
Definition dq : string := String (ascii_of_nat 34) EmptyString.

(** *** The text that the XML parser takes

    [utf8 l]: the code points that the bytes [l] encode in UTF-8, if they are
    well formed: no stray or missing continuation byte, no overlong form, no
    surrogate, nothing above [U+10FFFF].  A string that is not well formed is
    a [str] with lone surrogates. *)
Definition continuation (b : N) : bool := (128 <=? b)%N && (b <=? 191)%N.

Fixpoint utf8 (l : list N) : option (list N) :=
  match l with
  | [] => Some []
  | b0 :: l1 =>
      if (b0 <? 128)%N then option_map (cons b0) (utf8 l1)
      else
        match l1 with
        | [] => None
        | b1 :: l2 =>
            if (194 <=? b0)%N && (b0 <=? 223)%N then
              if continuation b1
              then option_map (cons ((b0 - 192) * 64 + (b1 - 128))%N) (utf8 l2)
              else None
            else
              match l2 with
              | [] => None
              | b2 :: l3 =>
                  if (224 <=? b0)%N && (b0 <=? 239)%N then
                    if continuation b1 && continuation b2
                       && negb ((b0 =? 224)%N && (b1 <? 160)%N)
                       && negb ((b0 =? 237)%N && (160 <=? b1)%N)
                    then
                      option_map
                        (cons ((b0 - 224) * 4096 + (b1 - 128) * 64
                               + (b2 - 128))%N)
                        (utf8 l3)
                    else None
                  else
                    match l3 with
                    | [] => None
                    | b3 :: l4 =>
                        if (240 <=? b0)%N && (b0 <=? 244)%N
                           && continuation b1 && continuation b2
                           && continuation b3
                           && negb ((b0 =? 240)%N && (b1 <? 144)%N)
                           && negb ((b0 =? 244)%N && (144 <=? b1)%N)
                        then
                          option_map
                            (cons ((b0 - 240) * 262144 + (b1 - 128) * 4096
                                   + (b2 - 128) * 64 + (b3 - 128))%N)
                            (utf8 l4)
                        else None
                    end
              end
        end
  end.

Definition code_points (s : string) : option (list N) :=
  utf8 (map N_of_ascii (list_ascii_of_string s)).

(** The production [Char] of XML 1.0: tab, line feed, carriage return and
    every code point from the space on, but for the surrogates, [U+FFFE] and
    [U+FFFF]. *)
Definition xml_char (c : N) : bool :=
  (c =? 9)%N || (c =? 10)%N || (c =? 13)%N
  || ((32 <=? c) && (c <=? 55295))%N
  || ((57344 <=? c) && (c <=? 65533))%N
  || ((65536 <=? c) && (c <=? 1114111))%N.

(** Whether a [str] can be encoded, and whether all its characters are
    characters of XML. *)
Definition encodable (s : string) : bool :=
  match code_points s with
  | Some _ => true
  | None => false
  end.

Definition xml_text (s : string) : bool :=
  match code_points s with
  | Some cs => forallb xml_char cs
  | None => false
  end.

(** [all_values ok e]: every attribute value in the tree of [e] passes
    [ok]. *)
Fixpoint all_values (ok : string -> bool) (e : Element) : bool :=
  match e with
  | mkElement _ attrs subs =>
      forallb (fun kv => ok (snd kv)) attrs
      && (fix each (l : list Element) : bool :=
            match l with
            | [] => true
            | c :: l' => all_values ok c && each l'
            end) subs
  end.

(** [minidom.parseString(ET.tostring(e, encoding="unicode"))] for an element
    tree whose tags and attribute names are plain words, as here.
    [ET.tostring] writes every element with its attributes, the values
    passed through [_escape_attrib], which turns the markup characters and
    tab, line feed and carriage return into references and leaves every other
    character as it is.  [parseString] hands the text to expat, which first
    has it encoded ([UnicodeEncodeError] for a lone surrogate), then reads
    it: it raises [ExpatError] at a character that XML does not allow, and
    otherwise gives back the elements that were written, with the references
    resolved.  The model is this net effect on the element tree. *)
Definition reparse (e : Element) : outcome Element :=
  if negb (all_values encodable e) then Raised UnicodeEncodeError
  else if negb (all_values xml_text e) then Raised ExpatError
  else Done e.

(** *** [minidom]'s writer *)

Section Writer.
Local Open Scope string_scope.

(** [_write_data]: four [str.replace] in a row, that of [&] first, which
    replace each of the four characters where it stands. *)
Definition write_char (c : ascii) : string :=
  if Ascii.eqb c "&" then "&amp;"
  else if Ascii.eqb c "<" then "&lt;"
  else if Ascii.eqb c (ascii_of_nat 34) then "&quot;"
  else if Ascii.eqb c ">" then "&gt;"
  else String c EmptyString.

(** The characters that [_write_data] replaces. *)
Definition markup (c : ascii) : bool :=
  Ascii.eqb c "&" || Ascii.eqb c "<" || Ascii.eqb c (ascii_of_nat 34)
  || Ascii.eqb c ">".

Fixpoint write_data (data : string) : string :=
  match data with
  | EmptyString => EmptyString
  | String c rest => write_char c ++ write_data rest
  end.

(** [Element.writexml(writer, indent, addindent, newl)], as the text it
    writes. *)
Fixpoint writexml (indent addindent newl : string) (e : Element) {struct e}
    : string :=
  match e with
  | mkElement t attrs subs =>
      indent ++ "<" ++ t
        ++ String.concat ""
             (map (fun kv => " " ++ fst kv ++ "=" ++ dq
                             ++ write_data (snd kv) ++ dq) attrs)
        ++ match subs with
           | [] => "/>" ++ newl
           | _ :: _ =>
               ">" ++ newl
                 ++ (fix each (l : list Element) {struct l} : string :=
                       match l with
                       | [] => ""
                       | c :: l' =>
                           writexml (indent ++ addindent) addindent newl c
                             ++ each l'
                       end) subs
                 ++ indent ++ "</" ++ t ++ ">" ++ newl
           end
  end.

(** [Document.toprettyxml(indent)] for the document whose root element is
    [e]: the declaration, then the element, with [newl] the line feed. *)
Definition toprettyxml (indent : string) (e : Element) : string :=
  "<?xml version=" ++ dq ++ "1.0" ++ dq ++ " ?>" ++ nl
    ++ writexml "" indent nl e.
End Writer.

Section Xml.
Local Open Scope string_scope.
Variable fs : FileSystem.
(** [file_path.open("w", encoding="utf-8")] and the write: what they raise,
    if they do. *)
Variable open_w : Path -> result unit.

(** The local function [build_xml_element] of [Tree.save_xml]. *)
Fixpoint build_xml_element (node : TreeNode) : outcome Element :=
  match node with
  | mkTreeNode st cs =>
      is_folder <- lift (is_dir fs st) ;;
      let nm := if is_folder then name st ++ "/" else name st in
      subs <-
        (fix each (l : list TreeNode) : outcome (list Element) :=
           match l with
           | [] => Done []
           | child :: l' =>
               child_element <- build_xml_element child ;;
               more <- each l' ;;
               Done (child_element :: more)
           end) cs ;;
      Done (mkElement "node" [("name", nm)] subs)
  end.

(** The loop of [build_xml_element] over [node.children]. *)
Fixpoint build_each (l : list TreeNode) : outcome (list Element) :=
  match l with
  | [] => Done []
  | child :: l' =>
      child_element <- build_xml_element child ;;
      more <- build_each l' ;;
      Done (child_element :: more)
  end.

(** [Tree.save_xml]; the result is the path of the file that is opened and
    the text that [f.write] is given. *)
Definition save_xml (self : Tree) (file_path : Path)
    : outcome (Path * string) :=
  tree <- build_xml_element (root self) ;;
  parsed <- reparse tree ;;
  let formated_xml := toprettyxml "  " parsed in
  _ <- lift (open_w file_path) ;;
  Done (file_path, formated_xml).

(** *** The document as the specification describes it

    The value of the [name] attribute for a node: its bare name, with a
    slash after it for a directory. *)
Definition xml_name (n : TreeNode) : string :=
  if holds (is_dir fs (state n)) then name (state n) ++ "/" else name (state n).

(** The lines of a node under the indentation [indent]: one element [node]
    with the one attribute [name], closed at once when the node has no
    children, and around the lines of its children otherwise. *)
Fixpoint xml_lines (indent : string) (n : TreeNode) {struct n} : string :=
  match n with
  | mkTreeNode _ cs =>
      indent ++ "<node name=" ++ dq ++ write_data (xml_name n) ++ dq
        ++ match cs with
           | [] => "/>" ++ nl
           | _ :: _ =>
               ">" ++ nl
                 ++ (fix each (l : list TreeNode) {struct l} : string :=
                       match l with
                       | [] => ""
                       | c :: l' => xml_lines (indent ++ "  ") c ++ each l'
                       end) cs
                 ++ indent ++ "</node>" ++ nl
           end
  end.

(** The element of a node: the tag [node], the one attribute [name], and
    the elements of the children in their order. *)
Fixpoint element (n : TreeNode) : Element :=
  match n with
  | mkTreeNode _ cs => mkElement "node" [("name", xml_name n)] (map element cs)
  end.

(** The document of a tree: the XML declaration and the lines of the
    root. *)
Definition document (n : TreeNode) : string :=
  "<?xml version=" ++ dq ++ "1.0" ++ dq ++ " ?>" ++ nl ++ xml_lines "" n.

(** [all_names ok n]: the [name] attribute of every node of the tree of [n]
    passes [ok]. *)
Fixpoint all_names (ok : string -> bool) (n : TreeNode) {struct n} : bool :=
  match n with
  | mkTreeNode _ cs =>
      ok (xml_name n)
      && (fix each (l : list TreeNode) {struct l} : bool :=
            match l with
            | [] => true
            | c :: l' => all_names ok c && each l'
            end) cs
  end.
End Xml.

(** The node, or the element, reached from the top by the child indices
    [pos]. *)
Fixpoint subnode (n : TreeNode) (pos : list nat) : option TreeNode :=
  match pos with
  | [] => Some n
  | k :: pos' =>
      match nth_error (children n) k with
      | Some c => subnode c pos'
      | None => None
      end
  end.

Fixpoint subelement (e : Element) (pos : list nat) : option Element :=
  match pos with
  | [] => Some e
  | k :: pos' =>
      match nth_error (subelements e) k with
      | Some c => subelement c pos'
      | None => None
      end
  end.

Definition sumZ (l : list Z) : Z := fold_right Z.add 0 l.

(** The number of elements of an element tree. *)
Fixpoint element_count (e : Element) : Z :=
  match e with
  | mkElement _ _ l => 1 + sumZ (map element_count l)
  end.

(** ** Measures and predicates on trees and states *)

(** The number of nodes below [n]; [n] itself is not counted. *)
Fixpoint descendants (n : TreeNode) : Z :=
  match n with
  | mkTreeNode _ cs => sumZ (map (fun c => 1 + descendants c) cs)
  end.

(** [occurs n k m]: the node [m] occurs in the tree of [n], [k] levels below
    [n]. *)
Inductive occurs : TreeNode -> Z -> TreeNode -> Prop :=
| occurs_here n : occurs n 0 n
| occurs_below n c k m :
    In c (children n) -> occurs c k m -> occurs n (k + 1) m.

(** A node without children, as [TreeNode(path)] makes it. *)
Definition fresh (n : TreeNode) : Prop := children n = [].

(** Ascending by child count, the order of [TreeNode.__lt__]. *)
Definition ascending (cs : list TreeNode) : Prop :=
  StronglySorted (fun x y => len x <= len y) cs.

(** The running total of counted entries. *)
Definition total (self : Tree) : Z := dir_count self + file_count self.

(** What holds of [self] between any two steps of a build: the counters are
    not negative, the total is at most 200, and [full] says that it is 200. *)
Definition consistent (self : Tree) : Prop :=
  0 <= dir_count self /\ 0 <= file_count self /\ total self <= 200 /\
  full self = (total self =? 200).

(** [depth_le n b]: no node of the tree of [n] lies more than [b] levels
    below [n]. *)
Definition depth_le (n : TreeNode) (b : Z) : Prop :=
  forall k m, occurs n k m -> k <= b.

(** [threaded Q s cs s' cs']: the children [cs] are turned into [cs'] one
    after the other, each step related by [Q], the state going from [s] to
    [s'] through the steps. *)
Inductive threaded (Q : Tree -> TreeNode -> Tree -> TreeNode -> Prop)
    : Tree -> list TreeNode -> Tree -> list TreeNode -> Prop :=
| threaded_nil s : threaded Q s [] s []
| threaded_cons s c s1 c1 rest s2 rest1 :
    Q s c s1 c1 -> threaded Q s1 rest s2 rest1 ->
    threaded Q s (c :: rest) s2 (c1 :: rest1).

Section Predicates.
Variable fs : FileSystem.
Variable args : Namespace.t.

(** Whether [__should_include] answers [True] for a path. *)
Definition included (p : Path) : bool := holds (should_include fs args p).

(** [built n]: below [n], every node is an entry of the directory of its
    parent that [__should_include] has passed and [__increment_counts] has
    counted, so that [os.stat] answers for it. *)
Inductive built : TreeNode -> Prop :=
| built_intro st cs :
    Forall (fun c => (exists nm, state c = joinpath st nm) /\
                     should_include fs args (state c) = Ok true /\
                     (exists b, is_dir fs (state c) = Ok b)) cs ->
    Forall built cs ->
    built (mkTreeNode st cs).

(** What one call of [generate_tree] does to the state and to its node. *)
Definition advance (self : Tree) (node : TreeNode)
    (self' : Tree) (node' : TreeNode) : Prop :=
  consistent self' /\
  state node' = state node /\
  root self' = root self /\
  dir_count self <= dir_count self' /\
  file_count self <= file_count self' /\
  total self' - Z.b2z (full self') - descendants node'
    = total self - Z.b2z (full self) - descendants node /\
  built node'.

(** [listed complete n]: in the tree of [n], the children of every node that
    has some are the included entries of its directory in the order of the
    listing: a prefix of them, and all of them when [complete] holds and
    [os.stat] is denied for no entry of the directory. *)
Inductive listed (complete : bool) : TreeNode -> Prop :=
| listed_intro st cs :
    (cs = [] \/
     exists names dropped,
       listdir fs st = Entries names /\
       filter included (map (joinpath st) names) = map state cs ++ dropped /\
       (complete = true ->
        (forall nm, In nm names ->
           stat fs (joinpath st nm) <> StatFails PermissionError) ->
        dropped = [])) ->
    Forall (listed complete) cs ->
    listed complete (mkTreeNode st cs).

(** [grown n]: in the tree of [n], the children of every node that has some
    are those that one call of [expand] on the node, when it had none, has
    inserted one after the other. *)
Inductive grown : TreeNode -> Prop :=
| grown_intro st cs :
    (cs = [] \/
     exists self self',
       expand fs args self (TreeNode_new st)
       = Done (self', insert_all (TreeNode_new st) (map state cs))) ->
    Forall grown cs ->
    grown (mkTreeNode st cs).

(** Every entry of every listing is a regular file or a directory. *)
Definition regular : Prop :=
  forall p names nm,
    listdir fs p = Entries names -> In nm names ->
    stat fs (joinpath p nm) = Kind Directory \/
    stat fs (joinpath p nm) = Kind RegularFile.
End Predicates.

(** ** Concrete file systems *)

(** A finite directory tree, from which a [FileSystem] is derived; used for
    the examples.  [Special] is an entry that is neither a regular file nor a
    directory, [NoAccess] a directory that may not be listed, [Broken e] a
    directory whose listing raises [e], [NoStat e] an entry for which
    [os.stat] raises [e]. *)
Inductive fsentry : Type :=
| RegFile
| Special
| Dir (entries : list (string * fsentry))
| NoAccess
| Broken (e : exn)
| NoStat (e : exn).

Fixpoint assoc (l : list (string * fsentry)) (n : string) : option fsentry :=
  match l with
  | [] => None
  | (m, e) :: rest => if String.eqb m n then Some e else assoc rest n
  end.

Fixpoint resolve (e : fsentry) (p : Path) : option fsentry :=
  match p with
  | [] => Some e
  | n :: q =>
      match e with
      | Dir entries =>
          match assoc entries n with
          | Some e' => resolve e' q
          | None => None
          end
      | _ => None
      end
  end.

(** [strip base p] is [Some q] when [p = base ++ q]. *)
Fixpoint strip (base p : Path) : option Path :=
  match base, p with
  | [], _ => Some p
  | b :: base', c :: p' => if String.eqb b c then strip base' p' else None
  | _ :: _, [] => None
  end.

Definition lookup (base : Path) (e : fsentry) (p : Path) : option fsentry :=
  match strip base p with
  | Some q => resolve e q
  | None => None
  end.

(** The file system that holds the tree [e] at the path [base]. *)
Definition mount (base : Path) (e : fsentry) : FileSystem := {|
  listdir p :=
    match lookup base e p with
    | Some (Dir entries) => Entries (map fst entries)
    | Some NoAccess => Fails PermissionError
    | Some (Broken x) | Some (NoStat x) => Fails x
    | Some RegFile | Some Special => Fails NotADirectoryError
    | None => Fails FileNotFoundError
    end;
  stat p :=
    match lookup base e p with
    | Some (Dir _) | Some NoAccess | Some (Broken _) => Kind Directory
    | Some RegFile => Kind RegularFile
    | Some Special => Kind OtherKind
    | Some (NoStat x) => StatFails x
    | None => NoEntry
    end
|}.

Definition base_path : Path := ["tmp"; "base"].

(** The fixture of the test suite:
    [folder1/{file1.txt, file2.txt, .hidden}] and
    [folder2/subfolder1/file3.txt]. *)
Definition temp_structure : fsentry :=
  Dir [ ("folder1", Dir [ ("file1.txt", RegFile);
                          ("file2.txt", RegFile);
                          (".hidden", RegFile) ]);
        ("folder2", Dir [ ("subfolder1", Dir [ ("file3.txt", RegFile) ]) ]) ].

Definition temp_fs : FileSystem := mount base_path temp_structure.

(** The fixture after the test has added [folder3 .. folder209]. *)
Definition crowded_structure : fsentry :=
  match temp_structure with
  | Dir entries =>
      Dir (entries
             ++ map (fun k => (("folder" ++ str_int (Z.of_nat k))%string, Dir []))
                    (seq 3 207))
  | e => e
  end.

Definition crowded_fs : FileSystem := mount base_path crowded_structure.

(** A directory that holds a FIFO beside a regular file and a directory. *)
Definition pipe_structure : fsentry :=
  Dir [ ("data.txt", RegFile); ("pipe", Special); ("sub", Dir []) ].

Definition pipe_fs : FileSystem := mount base_path pipe_structure.

(** A directory that may not be listed, between two that may; and the same
    with a directory whose listing fails otherwise. *)
Definition locked_structure : fsentry :=
  Dir [ ("a", Dir [ ("x", RegFile) ]);
        ("locked", NoAccess);
        ("z", Dir [ ("y", RegFile) ]) ].

Definition faulty_structure : fsentry :=
  Dir [ ("a", Dir [ ("x", RegFile) ]);
        ("faulty", Broken OSError);
        ("z", Dir [ ("y", RegFile) ]) ].

(** A directory [vault] that may be read but not searched, so that its
    entries are listed but [os.stat] is denied for them, here for the second
    of three; and the same with a [stat] that fails otherwise. *)
Definition vault_structure : fsentry :=
  Dir [ ("a", Dir [ ("x", RegFile) ]);
        ("vault", Dir [ ("one", RegFile);
                        ("sealed", NoStat PermissionError);
                        ("two", RegFile) ]);
        ("z", Dir [ ("y", RegFile) ]) ].

Definition stale_structure : fsentry :=
  Dir [ ("a", Dir [ ("x", RegFile) ]);
        ("vault", Dir [ ("one", RegFile);
                        ("stale", NoStat OSError);
                        ("two", RegFile) ]);
        ("z", Dir [ ("y", RegFile) ]) ].

Definition vault_fs : FileSystem := mount base_path vault_structure.

Definition vault_path : Path := base_path ++ ["vault"].

(** A file whose name holds the control character [U+0007], and one whose
    name holds a line feed. *)
Definition bell_name : string :=
  ("a" ++ String (ascii_of_nat 7) "b")%string.

Definition bell_structure : fsentry :=
  Dir [ ("sub", Dir [ (bell_name, RegFile) ]) ].

Definition bell_fs : FileSystem := mount base_path bell_structure.

Definition two_line_name : string :=
  ("a" ++ String (ascii_of_nat 10) "b")%string.

Definition two_line_structure : fsentry :=
  Dir [ ("sub", Dir [ (two_line_name, RegFile) ]) ].

Definition two_line_fs : FileSystem := mount base_path two_line_structure.

(** The output file [XML/tree.xml], and a file system on which every file
    can be opened and written. *)
Definition xml_path : Path := ["XML"; "tree.xml"].

Definition always_opens : Path -> result unit := fun _ => Ok tt.

(** Directories nested [k] deep, each named [d]. *)
Fixpoint chain (k : nat) : fsentry :=
  match k with
  | O => Dir []
  | S k' => Dir [ ("d", chain k') ]
  end.

Definition plain : Colorama := mkColorama "" "" "" "" "".

(** The options that [main] parses from an empty command line, and
    variations of them. *)
Definition default_args : Namespace.t :=
  Namespace.mk false false false None false.

Definition with_max_depth (m : option Z) : Namespace.t :=
  Namespace.mk false false false m false.

Definition directories_only : Namespace.t :=
  Namespace.mk false true false None false.

(** ** Further parts of the program and predicates for them *)

(** [Path.__eq__] on the components. *)
Fixpoint Path_eq (p q : Path) : bool :=
  match p, q with
  | [], [] => true
  | a :: p', b :: q' => String.eqb a b && Path_eq p' q'
  | _, _ => false
  end.

(** [TreeNode.__eq__] for another [TreeNode]:
    [self.state == other.state and self.children == other.children], where
    the lists are equal when they have the same length and equal elements. *)
Fixpoint TreeNode_eq (n other : TreeNode) {struct n} : bool :=
  match n, other with
  | mkTreeNode st cs, mkTreeNode st' cs' =>
      Path_eq st st'
      && (fix list_eq (l l' : list TreeNode) {struct l} : bool :=
            match l, l' with
            | [], [] => true
            | c :: r, c' :: r' => TreeNode_eq c c' && list_eq r r'
            | _, _ => false
            end) cs cs'
  end.

Section Kinds.
Variable fs : FileSystem.
Variable args : Namespace.t.

(** The nodes below [n] that are directories, and those that are not. *)
Fixpoint directories (n : TreeNode) : Z :=
  match n with
  | mkTreeNode _ cs =>
      sumZ (map (fun c => Z.b2z (holds (is_dir fs (state c))) + directories c)
             cs)
  end.

Fixpoint others (n : TreeNode) : Z :=
  match n with
  | mkTreeNode _ cs =>
      sumZ (map (fun c => Z.b2z (negb (holds (is_dir fs (state c)))) + others c)
             cs)
  end.

(** [mirrors level n]: the tree of [n], a node at level [level], is the
    filtered file system below it down to the depth limit: a node at the
    limit and a directory that may not be listed have no children; any other
    node has the included entries of its listing as children, all of them
    and in the order of the listing; the directories among them mirror in
    turn, and the others have no children. *)
Inductive mirrors : Z -> TreeNode -> Prop :=
| mirrors_limit level n :
    at_max_depth args level = true -> fresh n -> mirrors level n
| mirrors_denied level n :
    at_max_depth args level = false ->
    listdir fs (state n) = Fails PermissionError ->
    fresh n -> mirrors level n
| mirrors_listed level st cs names :
    at_max_depth args level = false ->
    listdir fs st = Entries names ->
    map state cs = filter (included fs args) (map (joinpath st) names) ->
    Forall (fun c => holds (is_dir fs (state c)) = true ->
                     mirrors (level + 1) c) cs ->
    Forall (fun c => holds (is_dir fs (state c)) = false -> fresh c) cs ->
    mirrors level (mkTreeNode st cs).
End Kinds.

(** A finite directory tree without entries that are neither files nor
    directories, and without entries for which [os.stat] raises. *)
Fixpoint no_special (e : fsentry) : bool :=
  match e with
  | Special => false
  | Dir entries =>
      (fix all (l : list (string * fsentry)) : bool :=
         match l with
         | [] => true
         | (_, e') :: rest => no_special e' && all rest
         end) entries
  | NoStat _ => false
  | RegFile | NoAccess | Broken _ => true
  end.

(** A file system in which every path is a directory that lists one entry,
    [d]: a directory that holds a link to itself. *)
Definition cyclic_fs : FileSystem := {|
  listdir _ := Entries ["d"];
  stat _ := Kind Directory
|}.

(** * Part II: the theorems *)

(** ** The outcome monad and the loop over children *)

Lemma bind_Done {A B : Type} (m : outcome A) (k : A -> outcome B) (b : B) :
  bind m k = Done b -> exists a, m = Done a /\ k a = Done b.
Proof.
  destruct m as [a | e | ]; cbn; intros H; try discriminate.
  exists a. auto.
Qed.

Lemma for_children_cons_Done body self c rest self' cs' :
  for_children body self (c :: rest) = Done (self', cs') ->
  exists s1 c1 rest1,
    body self c = Done (s1, c1) /\
    for_children body s1 rest = Done (self', rest1) /\
    cs' = c1 :: rest1.
Proof.
  cbn [for_children]. intros H.
  apply bind_Done in H. destruct H as ([s1 c1] & Hb & H).
  apply bind_Done in H. destruct H as ([s2 rest1] & Hr & H).
  inversion H; subst. exists s1, c1, rest1. auto.
Qed.

Lemma for_children_ext body1 body2 :
  forall cs self,
    (forall s c, In c cs -> body1 s c = body2 s c) ->
    for_children body1 self cs = for_children body2 self cs.
Proof.
  induction cs as [ | c rest IH ]; intros self Hext; [ reflexivity | ].
  cbn [for_children]. rewrite Hext by (left; reflexivity).
  destruct (body2 self c) as [[s1 c1] | e | ]; cbn [bind]; try reflexivity.
  rewrite IH; [ reflexivity | ].
  intros s c' Hin. apply Hext. right. exact Hin.
Qed.

Lemma for_children_app body :
  forall before after self,
    for_children body self (before ++ after) =
    ('(s1, before') <- for_children body self before ;;
     '(s2, after') <- for_children body s1 after ;;
     Done (s2, before' ++ after')).
Proof.
  induction before as [ | c rest IH ]; intros after self.
  - cbn. destruct (for_children body self after) as [[s a] | e | ];
      reflexivity.
  - cbn [app for_children].
    destruct (body self c) as [[s1 c1] | e | ]; cbn [bind]; try reflexivity.
    rewrite IH.
    destruct (for_children body s1 rest) as [[s2 r] | e | ]; cbn [bind];
      try reflexivity.
    destruct (for_children body s2 after) as [[s3 a] | e | ]; reflexivity.
Qed.

(** A body that keeps an invariant [I] of the state and turns children that
    satisfy [P] into children related by [Q] yields a loop that keeps [I] and
    threads [Q]. *)
Lemma for_children_rule body (I : Tree -> Prop) (P : TreeNode -> Prop)
    (Q : Tree -> TreeNode -> Tree -> TreeNode -> Prop) :
  (forall s c s' c', I s -> P c -> body s c = Done (s', c') ->
                     I s' /\ Q s c s' c') ->
  forall cs s s' cs',
    I s -> Forall P cs -> for_children body s cs = Done (s', cs') ->
    I s' /\ threaded Q s cs s' cs'.
Proof.
  intros Hbody.
  induction cs as [ | c rest IH ]; intros s s' cs' HI HP Hrun.
  - cbn in Hrun. inversion Hrun; subst. split; [ exact HI | constructor ].
  - apply for_children_cons_Done in Hrun.
    destruct Hrun as (s1 & c1 & rest1 & Hb & Hr & ->).
    inversion HP as [ | ? ? Hc Hrest ]; subst.
    destruct (Hbody _ _ _ _ HI Hc Hb) as [HI1 HQ].
    destruct (IH _ _ _ HI1 Hrest Hr) as [HI' Hth].
    split; [ exact HI' | ].
    econstructor; eassumption.
Qed.

Lemma threaded_impl (Q Q' : Tree -> TreeNode -> Tree -> TreeNode -> Prop) :
  (forall s c s' c', Q s c s' c' -> Q' s c s' c') ->
  forall s cs s' cs', threaded Q s cs s' cs' -> threaded Q' s cs s' cs'.
Proof.
  intros Himp s cs s' cs' H.
  induction H; econstructor; eauto.
Qed.

(** ** Facts about [bisect] *)

Section BisectFacts.
Context {A : Type}.
Variable ltb : A -> A -> bool.
Variable dflt : A.

Lemma mid_bounds (lo hi : nat) :
  (lo < hi)%nat -> (lo <= bisect.mid lo hi < hi)%nat.
Proof.
  intros Hlt. unfold bisect.mid. split.
  - apply Nat.div_le_lower_bound; lia.
  - apply Nat.Div0.div_lt_upper_bound; lia.
Qed.

Lemma bisect_right_step (a : list A) (x : A) (lo hi : nat) :
  bisect.bisect_right ltb dflt a x lo hi =
  if lt_dec lo hi
  then if ltb x (nth (bisect.mid lo hi) a dflt)
       then bisect.bisect_right ltb dflt a x lo (bisect.mid lo hi)
       else bisect.bisect_right ltb dflt a x (bisect.mid lo hi + 1) hi
  else lo.
Proof.
  rewrite bisect.bisect_right_equation_1.
  destruct (lt_dec lo hi); reflexivity.
Qed.

(** The search on a list that [x < _] splits into a part where it is false
    followed by a part where it is true: the result is the split point. *)
Lemma bisect_right_split (l r : list A) (x : A) :
  Forall (fun y => ltb x y = false) l ->
  Forall (fun y => ltb x y = true) r ->
  forall (n lo hi : nat),
    (hi - lo <= n)%nat ->
    (lo <= length l <= hi)%nat ->
    (hi <= length (l ++ r))%nat ->
    bisect.bisect_right ltb dflt (l ++ r) x lo hi = length l.
Proof.
  intros Hl Hr. rewrite Forall_forall in Hl, Hr.
  induction n as [ | n IH ]; intros lo hi Hn Hlo Hhi;
    rewrite bisect_right_step; destruct (lt_dec lo hi) as [Hlt | Hge];
    try lia.
  pose proof (mid_bounds lo hi Hlt) as Hm.
  destruct (Nat.lt_ge_cases (bisect.mid lo hi) (length l)) as [Hin | Hout].
  - rewrite app_nth1 by exact Hin.
    rewrite (Hl _ (nth_In l dflt Hin)).
    apply IH; lia.
  - rewrite app_nth2 by exact Hout.
    rewrite length_app in Hhi.
    assert (Hin : (bisect.mid lo hi - length l < length r)%nat) by lia.
    rewrite (Hr _ (nth_In r dflt Hin)).
    apply IH; try lia. rewrite length_app. lia.
Qed.

Lemma insort_split (l r : list A) (x : A) :
  Forall (fun y => ltb x y = false) l ->
  Forall (fun y => ltb x y = true) r ->
  bisect.insort ltb dflt (l ++ r) x = l ++ x :: r.
Proof.
  intros Hl Hr. unfold bisect.insort, bisect.list_insert.
  rewrite (bisect_right_split l r x Hl Hr (length (l ++ r)) 0
             (length (l ++ r))).
  - rewrite firstn_app, Nat.sub_diag, firstn_all, firstn_O, app_nil_r.
    rewrite skipn_app, Nat.sub_diag, skipn_all. reflexivity.
  - lia.
  - rewrite length_app. lia.
  - lia.
Qed.
End BisectFacts.

(** ** Trees: induction, measures, occurrences *)

(** Induction on a tree with the hypothesis for every child. *)
Lemma TreeNode_induction (P : TreeNode -> Prop) :
  (forall st cs, Forall P cs -> P (mkTreeNode st cs)) ->
  forall n, P n.
Proof.
  intros step.
  fix IH 1.
  intros [st cs]. apply step.
  induction cs as [ | c cs IHcs ]; constructor.
  - apply IH.
  - exact IHcs.
Qed.

Lemma TreeNode_eta (n : TreeNode) : mkTreeNode (state n) (children n) = n.
Proof. destruct n; reflexivity. Qed.

Lemma sumZ_cons (x : Z) (l : list Z) : sumZ (x :: l) = x + sumZ l.
Proof. reflexivity. Qed.

Lemma sumZ_app (l1 l2 : list Z) : sumZ (l1 ++ l2) = sumZ l1 + sumZ l2.
Proof.
  induction l1 as [ | x l1 IH ]; cbn [app];
    rewrite ?sumZ_cons; [ reflexivity | rewrite IH; lia ].
Qed.

Lemma descendants_unfold (n : TreeNode) :
  descendants n = sumZ (map (fun c => 1 + descendants c) (children n)).
Proof. destruct n; reflexivity. Qed.

Lemma descendants_nonneg (n : TreeNode) : 0 <= descendants n.
Proof.
  induction n as [st cs IH] using TreeNode_induction.
  rewrite descendants_unfold. cbn [children].
  induction IH as [ | c cs Hc _ IHcs ]; cbn [map]; rewrite ?sumZ_cons;
    [ reflexivity | lia ].
Qed.

Lemma descendants_fresh (n : TreeNode) : fresh n -> descendants n = 0.
Proof. intros H. rewrite descendants_unfold, H. reflexivity. Qed.

Lemma sum_descendants_fresh (cs : list TreeNode) :
  Forall fresh cs ->
  sumZ (map (fun c => 1 + descendants c) cs) = Z.of_nat (length cs).
Proof.
  induction 1 as [ | c cs Hc _ IH ]; [ reflexivity | ].
  cbn [map length]. rewrite sumZ_cons, IH, (descendants_fresh c Hc). lia.
Qed.

Lemma fresh_new (p : Path) : fresh (TreeNode_new p).
Proof. reflexivity. Qed.

Lemma occurs_depth_nonneg (n m : TreeNode) (k : Z) : occurs n k m -> 0 <= k.
Proof. induction 1; lia. Qed.

Lemma occurs_child (n c m : TreeNode) (k : Z) :
  In c (children n) -> occurs c (k - 1) m -> occurs n k m.
Proof.
  intros Hin Ho. replace k with (k - 1 + 1) by lia.
  econstructor; eassumption.
Qed.

Lemma occurs_fresh (n m : TreeNode) (k : Z) :
  fresh n -> occurs n k m -> k = 0 /\ m = n.
Proof.
  intros Hf Ho. destruct Ho as [ | n c k m Hin _ ]; [ auto | ].
  rewrite Hf in Hin. destruct Hin.
Qed.

Lemma depth_le_fresh (n : TreeNode) (b : Z) :
  fresh n -> 0 <= b -> depth_le n b.
Proof.
  intros Hf Hb k m Ho. apply (occurs_fresh _ _ _ Hf) in Ho. lia.
Qed.

Lemma depth_le_node (st : Path) (cs : list TreeNode) (b : Z) :
  0 <= b ->
  Forall (fun c => depth_le c (b - 1)) cs ->
  depth_le (mkTreeNode st cs) b.
Proof.
  intros Hb Hcs k m Ho.
  inversion Ho as [ | ? c k' ? Hin Hc ]; subst; [ exact Hb | ].
  rewrite Forall_forall in Hcs. cbn [children] in Hin.
  specialize (Hcs c Hin k' m Hc). lia.
Qed.

(** ** Sorted insertion: [TreeNode.add_child] *)

Lemma ascending_split (cs : list TreeNode) (c : TreeNode) :
  ascending cs ->
  exists l r,
    cs = l ++ r /\
    Forall (fun x => len x <= len c) l /\
    Forall (fun x => len c < len x) r.
Proof.
  induction 1 as [ | y cs Hs IH Hy ].
  - exists [], []. auto.
  - destruct (Z_le_gt_dec (len y) (len c)) as [Hle | Hgt].
    + destruct IH as (l & r & -> & Hl & Hr).
      exists (y :: l), r. auto.
    + exists [], (y :: cs). repeat split; auto.
      constructor; [ lia | ].
      eapply Forall_impl; [ | exact Hy ]. cbn. intros; lia.
Qed.

Lemma ascending_insert (l r : list TreeNode) (c : TreeNode) :
  ascending (l ++ r) ->
  Forall (fun x => len x <= len c) l ->
  Forall (fun x => len c < len x) r ->
  ascending (l ++ c :: r).
Proof.
  unfold ascending. induction l as [ | y l IH ]; cbn [app]; intros Hs Hl Hr.
  - constructor; [ exact Hs | ].
    eapply Forall_impl; [ | exact Hr ]. cbn. intros; lia.
  - inversion Hs as [ | ? ? Hs' Hy ]; subst.
    inversion Hl as [ | ? ? Hyc Hl' ]; subst.
    constructor; [ apply IH; assumption | ].
    rewrite Forall_app in *. destruct Hy as [Hy1 Hy2].
    split; [ exact Hy1 | ].
    constructor; [ exact Hyc | exact Hy2 ].
Qed.

Lemma add_child_split (n c : TreeNode) (l r : list TreeNode) :
  children n = l ++ r ->
  Forall (fun x => len x <= len c) l ->
  Forall (fun x => len c < len x) r ->
  children (add_child n c) = l ++ c :: r.
Proof.
  intros Hn Hl Hr. unfold add_child. cbn [children]. rewrite Hn.
  apply insort_split.
  - eapply Forall_impl; [ | exact Hl ]. cbn. intros x Hx.
    unfold TreeNode_lt. apply Z.ltb_ge. exact Hx.
  - eapply Forall_impl; [ | exact Hr ]. cbn. intros x Hx.
    unfold TreeNode_lt. apply Z.ltb_lt. exact Hx.
Qed.

Lemma add_child_sorted (n c : TreeNode) :
  ascending (children n) ->
  exists l r,
    children n = l ++ r /\
    children (add_child n c) = l ++ c :: r /\
    Forall (fun x => len x <= len c) l /\
    Forall (fun x => len c < len x) r /\
    ascending (children (add_child n c)).
Proof.
  intros Hs.
  destruct (ascending_split (children n) c Hs) as (l & r & Hn & Hl & Hr).
  exists l, r.
  pose proof (add_child_split n c l r Hn Hl Hr) as Hadd.
  repeat split; try assumption.
  rewrite Hadd. apply ascending_insert; [ rewrite <- Hn | | ]; assumption.
Qed.

(** Among siblings that all have no children, a child without children goes
    to the end. *)
Lemma add_child_fresh (n c : TreeNode) :
  Forall fresh (children n) -> fresh c ->
  add_child n c = add_child_append n c.
Proof.
  intros Hn Hc.
  assert (H : children (add_child n c) = children n ++ [c]).
  { apply add_child_split.
    - symmetry. apply app_nil_r.
    - eapply Forall_impl; [ | exact Hn ]. cbn. intros x Hx.
      unfold len. rewrite Hx, Hc. reflexivity.
    - constructor. }
  unfold add_child, add_child_append in *. cbn [children] in H.
  rewrite H. reflexivity.
Qed.

(** ** The steps of the build *)

Section BuildFacts.
Variable fs : FileSystem.
Variable args : Namespace.t.

Lemma is_dir_is_file (p : Path) (b : bool) :
  is_dir fs p = Ok b -> exists b', is_file fs p = Ok b'.
Proof.
  unfold is_dir, is_file.
  destruct (stat fs p) as [[ | | ] | | e]; intros H;
    try discriminate; eexists; reflexivity.
Qed.

Lemma is_dir_Error (p : Path) (e : exn) :
  is_dir fs p = Error e <-> stat fs p = StatFails e.
Proof.
  unfold is_dir. destruct (stat fs p) as [[ | | ] | | e']; split; intros H;
    try discriminate; inversion H; reflexivity.
Qed.

Lemma is_file_Error (p : Path) (e : exn) :
  is_file fs p = Error e <-> stat fs p = StatFails e.
Proof.
  unfold is_file. destruct (stat fs p) as [[ | | ] | | e']; split; intros H;
    try discriminate; inversion H; reflexivity.
Qed.

Lemma should_include_Error (p : Path) (e : exn) :
  should_include fs args p = Error e -> stat fs p = StatFails e.
Proof.
  unfold should_include.
  destruct (negb (Namespace.a args) && _); [ discriminate | ].
  destruct (Namespace.d args); [ | discriminate ].
  destruct (is_file fs p) as [[ | ] | e'] eqn:Hf; try discriminate.
  intros H. inversion H; subst. apply is_file_Error. exact Hf.
Qed.

Lemma increment_counts_Error (self : Tree) (p : Path) (e : exn) :
  increment_counts fs self p = Error e -> stat fs p = StatFails e.
Proof.
  unfold increment_counts.
  destruct (is_dir fs p) as [b | e'] eqn:Hd; [ discriminate | ].
  intros H. inversion H; subst. apply is_dir_Error. exact Hd.
Qed.

Lemma increment_counts_spec (self : Tree) (child : Path) (self' : Tree) :
  consistent self -> full self = false ->
  increment_counts fs self child = Ok self' ->
  consistent self' /\
  total self' = total self + 1 /\
  root self' = root self /\
  dir_count self <= dir_count self' /\
  file_count self <= file_count self' /\
  (exists b, is_dir fs child = Ok b) /\
  (is_dir fs child = Ok true -> file_count self' = file_count self).
Proof.
  unfold consistent, total, increment_counts.
  destruct self as [r dc fc fl]. cbn [dir_count file_count full root].
  intros (Hd & Hf & Ht & Hfull) ->.
  symmetry in Hfull. apply Z.eqb_neq in Hfull.
  destruct (is_dir fs child) as [[ | ] | e]; [ | | discriminate ];
    intros Heq; inversion Heq; subst self'; clear Heq;
    unfold set_dir_count, set_file_count;
    cbn [dir_count file_count full root];
    rewrite Z.geb_leb;
    match goal with |- context [200 <=? ?x] =>
      destruct (Z.leb_spec 200 x) end;
    unfold set_full; cbn [dir_count file_count full root];
    repeat split; try reflexivity; try lia; try discriminate;
    try (eexists; reflexivity);
    match goal with
    | |- _ = (_ =? _) => symmetry; (apply Z.eqb_eq || apply Z.eqb_neq); lia
    end.
Qed.

(** On a node whose children all have no children, the loop of [expand]
    appends. *)
Lemma expand_loop_fresh (entries : list Path) :
  forall self node,
    Forall fresh (children node) ->
    expand_loop fs args self node entries
    = expand_loop_append fs args self node entries.
Proof.
  induction entries as [ | child rest IH ]; intros self node Hn;
    [ reflexivity | ].
  cbn [expand_loop expand_loop_append].
  destruct (should_include fs args child) as [[ | ] | e];
    [ | apply IH; exact Hn | reflexivity ].
  destruct (increment_counts fs self child) as [self1 | e];
    [ | reflexivity ].
  destruct (full self1); [ reflexivity | ].
  rewrite add_child_fresh by (exact Hn || reflexivity).
  apply IH. cbn [add_child_append children].
  apply Forall_app. split; [ exact Hn | ].
  constructor; [ reflexivity | constructor ].
Qed.

(** The nodes that the loop inserts are the included entries, in the order
    of the listing, up to the entry at which the loop breaks or is left by
    an exception. *)
Lemma expand_loop_insertions (entries : list Path) :
  forall self node r self' node',
    expand_loop fs args self node entries = (r, (self', node')) ->
    exists kept dropped,
      filter (included fs args) entries = kept ++ dropped /\
      node' = insert_all node kept.
Proof.
  induction entries as [ | child rest IH ]; intros self node r self' node'.
  - cbn. intros H. inversion H; subst. exists [], []. auto.
  - cbn [expand_loop filter]. unfold included at 1. unfold holds.
    destruct (should_include fs args child) as [[ | ] | e].
    + destruct (increment_counts fs self child) as [self1 | e].
      * destruct (full self1).
        -- intros H. inversion H; subst.
           exists [], (child :: filter (included fs args) rest). auto.
        -- intros H. apply IH in H. destruct H as (kept & dropped & Hf & Hn).
           exists (child :: kept), dropped. rewrite Hf. auto.
      * intros H. inversion H; subst.
        exists [], (child :: filter (included fs args) rest). auto.
    + apply IH.
    + intros H. inversion H; subst.
      exists [], (filter (included fs args) rest). auto.
Qed.

(** The same for the loop that appends, with what is known of the entries
    kept and of the way the loop ends. *)
Lemma expand_loop_append_shape (entries : list Path) :
  forall self node r self' node',
    expand_loop_append fs args self node entries = (r, (self', node')) ->
    exists kept dropped,
      filter (included fs args) entries = kept ++ dropped /\
      node' = mkTreeNode (state node) (children node ++ map TreeNode_new kept)
      /\
      Forall (fun q => should_include fs args q = Ok true /\
                       exists b, is_dir fs q = Ok b) kept /\
      (r = None -> full self' = false -> dropped = []) /\
      (forall e, r = Some e ->
         exists q, In q entries /\ stat fs q = StatFails e).
Proof.
  induction entries as [ | child rest IH ]; intros self node r self' node'.
  - cbn. intros H. inversion H; subst. exists [], [].
    cbn. rewrite app_nil_r, TreeNode_eta.
    repeat split; auto; discriminate.
  - cbn [expand_loop_append filter]. unfold included at 1. unfold holds.
    destruct (should_include fs args child) as [[ | ] | e] eqn:Hinc.
    + destruct (increment_counts fs self child) as [self1 | e] eqn:Hcnt.
      * destruct (full self1) eqn:Hfull.
        -- intros H. inversion H; subst.
           exists [], (child :: filter (included fs args) rest).
           cbn [map app]. rewrite app_nil_r, TreeNode_eta.
           repeat split; auto; try discriminate. congruence.
        -- intros H. apply IH in H.
           destruct H as (kept & dropped & Hf & Hn & Hk & Hd & He).
           exists (child :: kept), dropped.
           rewrite Hf, Hn. cbn [add_child_append state children map].
           rewrite <- app_assoc.
           repeat split; auto.
           ++ constructor; [ | exact Hk ]. split; [ exact Hinc | ].
              unfold increment_counts in Hcnt.
              destruct (is_dir fs child) as [b | e'];
                [ exists b; reflexivity | discriminate ].
           ++ intros e Hr. destruct (He e Hr) as (q & Hq & Hs).
              exists q. split; [ right; exact Hq | exact Hs ].
      * intros H. inversion H; subst.
        exists [], (child :: filter (included fs args) rest).
        cbn [map app]. rewrite app_nil_r, TreeNode_eta.
        repeat split; auto; try discriminate.
        intros e' He. inversion He; subst. exists child.
        split; [ left; reflexivity | ].
        eapply increment_counts_Error. exact Hcnt.
    + intros H. apply IH in H.
      destruct H as (kept & dropped & Hf & Hn & Hk & Hd & He).
      exists kept, dropped. repeat split; auto.
      intros e Hr. destruct (He e Hr) as (q & Hq & Hs).
      exists q. split; [ right; exact Hq | exact Hs ].
    + intros H. inversion H; subst.
      exists [], (filter (included fs args) rest).
      cbn [map app]. rewrite app_nil_r, TreeNode_eta.
      repeat split; auto; try discriminate.
      intros e' He. inversion He; subst. exists child.
      split; [ left; reflexivity | ].
      apply should_include_Error. exact Hinc.
Qed.

Lemma expand_loop_append_counts (entries : list Path) :
  forall self node r self' node',
    consistent self -> full self = false ->
    expand_loop_append fs args self node entries = (r, (self', node')) ->
    consistent self' /\
    root self' = root self /\
    dir_count self <= dir_count self' /\
    file_count self <= file_count self' /\
    total self'
    = total self
      + (Z.of_nat (length (children node'))
         - Z.of_nat (length (children node)))
      + Z.b2z (full self').
Proof.
  induction entries as [ | child rest IH ];
    intros self node r self' node' Hc Hnf.
  - cbn [expand_loop_append]. intros H. inversion H; subst.
    rewrite Hnf. cbn [Z.b2z].
    split; [ exact Hc | repeat split; try reflexivity; lia ].
  - cbn [expand_loop_append].
    destruct (should_include fs args child) as [[ | ] | e].
    + destruct (increment_counts fs self child) as [self1 | e] eqn:Hcnt.
      * destruct (increment_counts_spec self child self1 Hc Hnf Hcnt)
          as (Hc1 & Ht1 & Hr1 & Hd1 & Hf1 & _).
        destruct (full self1) eqn:Hfull.
        -- intros H. inversion H; subst. rewrite Hfull. cbn [Z.b2z].
           split; [ exact Hc1 | repeat split; try assumption; lia ].
        -- intros H.
           destruct (IH self1 (add_child_append node (TreeNode_new child))
                       r self' node' Hc1 Hfull H)
             as (Hc' & Hr' & Hd' & Hf' & Ht').
           split; [ exact Hc' | ].
           repeat split; try congruence; try lia.
           rewrite Ht', Ht1. cbn [add_child_append children].
           rewrite length_app. cbn [length]. lia.
      * intros H. inversion H; subst. rewrite Hnf. cbn [Z.b2z].
        split; [ exact Hc | repeat split; try reflexivity; lia ].
    + apply IH; assumption.
    + intros H. inversion H; subst. rewrite Hnf. cbn [Z.b2z].
      split; [ exact Hc | repeat split; try reflexivity; lia ].
Qed.

(** With [-d], the loop counts no file among entries that are all regular
    files or directories. *)
Lemma expand_loop_append_no_file (entries : list Path) :
  Namespace.d args = true ->
  Forall (fun q => stat fs q = Kind Directory \/ stat fs q = Kind RegularFile)
    entries ->
  forall self node,
    file_count (fst (snd (expand_loop_append fs args self node entries)))
    = file_count self.
Proof.
  intros Hd.
  induction 1 as [ | child rest Hchild _ IH ]; intros self node;
    [ reflexivity | ].
  cbn [expand_loop_append].
  destruct (should_include fs args child) as [[ | ] | e] eqn:Hinc;
    [ | apply IH | reflexivity ].
  assert (Hdir : is_dir fs child = Ok true).
  { unfold is_dir.
    destruct Hchild as [H | H]; [ rewrite H; reflexivity | ].
    unfold should_include, is_file in Hinc. rewrite Hd, H in Hinc.
    destruct (negb (Namespace.a args) && _); discriminate. }
  unfold increment_counts. rewrite Hdir.
  assert (Hfc : forall s : Tree,
             file_count (if dir_count s + file_count s >=? 200
                         then set_full s true else s) = file_count s).
  { intros s. destruct (_ >=? 200); reflexivity. }
  match goal with |- context [if full ?s then _ else _] =>
    destruct (full s); cbn [fst snd]; [ | rewrite IH ];
    rewrite Hfc; destruct self; reflexivity
  end.
Qed.

Lemma iterdir_joinpath (p : Path) (entries : list Path) :
  iterdir fs p = Done entries ->
  Forall (fun q => exists nm, q = joinpath p nm) entries.
Proof.
  unfold iterdir. destruct (listdir fs p) as [names | e]; [ | discriminate ].
  intros H. inversion H; subst. apply Forall_forall.
  intros q Hq. apply in_map_iff in Hq. destruct Hq as (nm & <- & _).
  exists nm. reflexivity.
Qed.

(** [expand] on a node without children. *)
Lemma expand_fresh (self : Tree) (node : TreeNode) :
  fresh node -> expand fs args self node = expand_append fs args self node.
Proof.
  intros Hf. unfold expand, expand_append.
  destruct (iterdir fs (state node)) as [entries | e | ]; try reflexivity.
  rewrite expand_loop_fresh; [ reflexivity | ].
  rewrite Hf. constructor.
Qed.

(** When [expand] returns, either the listing was denied, or the loop has
    run and has ended without an exception or with [PermissionError]. *)
Lemma expand_Done (self : Tree) (node : TreeNode) self1 node1 :
  expand_append fs args self node = Done (self1, node1) ->
  (listdir fs (state node) = Fails PermissionError /\
   self1 = self /\ node1 = node) \/
  exists names r,
    listdir fs (state node) = Entries names /\
    expand_loop_append fs args self node (map (joinpath (state node)) names)
      = (r, (self1, node1)) /\
    (r = None \/ r = Some PermissionError).
Proof.
  unfold expand_append, iterdir.
  destruct (listdir fs (state node)) as [names | e].
  - destruct (expand_loop_append fs args self node _)
      as [[e | ] [s n]] eqn:Hloop.
    + destruct e; intros H; inversion H; subst.
      right. exists names, (Some PermissionError). auto.
    + intros H; inversion H; subst.
      right. exists names, None. auto.
  - destruct e; intros H; inversion H; subst. left. auto.
Qed.

(** The children that [expand] gives a node are a prefix of the included
    entries of its directory, in the order of the listing, and all of them
    when the build is not truncated and [os.stat] is denied for no entry. *)
Lemma expand_children (self : Tree) (node : TreeNode) self1 node1 :
  fresh node ->
  expand fs args self node = Done (self1, node1) ->
  state node1 = state node /\
  Forall fresh (children node1) /\
  ((listdir fs (state node) = Fails PermissionError /\ children node1 = [])
   \/
   exists names dropped,
     listdir fs (state node) = Entries names /\
     filter (included fs args) (map (joinpath (state node)) names)
       = map state (children node1) ++ dropped /\
     (full self1 = false ->
      (forall nm, In nm names ->
         stat fs (joinpath (state node) nm) <> StatFails PermissionError) ->
      dropped = [])).
Proof.
  intros Hf. rewrite (expand_fresh self node Hf). intros Hrun.
  destruct (expand_Done self node self1 node1 Hrun)
    as [(Hl & -> & ->) | (names & r & Hl & Hloop & Hr)].
  - repeat split; [ rewrite Hf; constructor | left; auto ].
  - destruct (expand_loop_append_shape _ _ _ _ _ _ Hloop)
      as (kept & dropped & Hfl & Hn & _ & Hd & He).
    subst node1. rewrite Hf. cbn [state children app].
    assert (Hst : map state (map TreeNode_new kept) = kept).
    { rewrite map_map. cbn. apply map_id. }
    repeat split.
    + apply Forall_forall. intros c Hc. apply in_map_iff in Hc.
      destruct Hc as (q & <- & _). reflexivity.
    + right. exists names, dropped. rewrite Hst.
      split; [ exact Hl | ]. split; [ exact Hfl | ].
      intros Hnf Hstat. destruct Hr as [-> | ->]; [ auto | ].
      destruct (He PermissionError eq_refl) as (q & Hq & Hs).
      apply in_map_iff in Hq. destruct Hq as (nm & <- & Hnm).
      elim (Hstat nm Hnm Hs).
Qed.

Lemma expand_sound (self : Tree) (node : TreeNode) self1 node1 :
  consistent self -> full self = false -> fresh node ->
  expand fs args self node = Done (self1, node1) ->
  consistent self1 /\
  root self1 = root self /\
  dir_count self <= dir_count self1 /\
  file_count self <= file_count self1 /\
  total self1
    = total self + Z.of_nat (length (children node1)) + Z.b2z (full self1) /\
  Forall (fun c => (exists nm, state c = joinpath (state node) nm) /\
                   should_include fs args (state c) = Ok true /\
                   (exists b, is_dir fs (state c) = Ok b)) (children node1).
Proof.
  intros Hc Hnf Hf. rewrite (expand_fresh self node Hf). intros Hrun.
  destruct (expand_Done self node self1 node1 Hrun)
    as [(Hl & -> & ->) | (names & r & Hl & Hloop & Hr)].
  - rewrite Hf, Hnf. cbn [children length Z.b2z Z.of_nat].
    split; [ exact Hc | ].
    repeat split; try reflexivity; try lia.
    constructor.
  - destruct (expand_loop_append_counts _ _ _ _ _ _ Hc Hnf Hloop)
      as (Hc1 & Hr1 & Hd1 & Hf1 & Ht1).
    rewrite Hf in Ht1. cbn [length] in Ht1.
    split; [ exact Hc1 | ].
    repeat split; try assumption; try lia.
    destruct (expand_loop_append_shape _ _ _ _ _ _ Hloop)
      as (kept & dropped & Hfl & Hn & Hk & _).
    subst node1. rewrite Hf. cbn [children app].
    apply Forall_forall. intros c Hin.
    apply in_map_iff in Hin. destruct Hin as (q & <- & Hq).
    cbn [TreeNode_new state].
    rewrite Forall_forall in Hk. destruct (Hk q Hq) as [Hs Hb].
    assert (Hin : In q (filter (included fs args)
                          (map (joinpath (state node)) names))).
    { rewrite Hfl. apply in_or_app. left. exact Hq. }
    apply filter_In in Hin. destruct Hin as [Hin _].
    apply in_map_iff in Hin. destruct Hin as (nm & Hnm & _).
    split; [ exists nm; symmetry; exact Hnm | auto ].
Qed.
End BuildFacts.

(** ** The recursion of [generate_tree] *)

Section GenerateFacts.
Variable fs : FileSystem.
Variable args : Namespace.t.

Lemma generate_tree_stopped fuel self node level :
  full self || at_max_depth args level = true ->
  generate_tree fs args (S fuel) self node level = Done (self, node).
Proof. intros H. cbn [generate_tree]. rewrite H. reflexivity. Qed.

Lemma generate_tree_running fuel self node level :
  full self || at_max_depth args level = false ->
  generate_tree fs args (S fuel) self node level =
  ('(self1, node1) <- expand fs args self node ;;
   '(self2, cs) <-
     for_children (descend fs (generate_tree fs args fuel) level)
       self1 (children node1) ;;
   Done (self2, mkTreeNode (state node1) cs)).
Proof. intros H. cbn [generate_tree]. rewrite H. reflexivity. Qed.

(** The body of the loop over the children, by what [is_dir] answers. *)
Lemma descend_dir generate level self child :
  is_dir fs (state child) = Ok true ->
  descend fs generate level self child = generate self child (level + 1).
Proof. intros H. unfold descend. rewrite H. reflexivity. Qed.

Lemma descend_other generate level self child :
  is_dir fs (state child) = Ok false ->
  descend fs generate level self child = Done (self, child).
Proof. intros H. unfold descend. rewrite H. reflexivity. Qed.

Lemma descend_Error generate level self child e :
  is_dir fs (state child) = Error e ->
  descend fs generate level self child = Raised e.
Proof. intros H. unfold descend. rewrite H. reflexivity. Qed.

(** Once [full] is set, the loop over the children changes nothing: it ends
    as it began, unless [is_dir] raises for a child. *)
Lemma for_children_full_outcome fuel level :
  forall cs self,
    full self = true ->
    for_children (descend fs (generate_tree fs args (S fuel)) level) self cs
    = Done (self, cs) \/
    exists c e,
      In c cs /\ is_dir fs (state c) = Error e /\
      for_children (descend fs (generate_tree fs args (S fuel)) level) self cs
      = Raised e.
Proof.
  induction cs as [ | c rest IH ]; intros self Hfull; [ left; reflexivity | ].
  cbn [for_children].
  destruct (is_dir fs (state c)) as [[ | ] | e] eqn:Hd.
  - rewrite descend_dir by exact Hd.
    rewrite generate_tree_stopped by (rewrite Hfull; reflexivity).
    cbn [bind].
    destruct (IH self Hfull) as [-> | (c' & e & Hin & He & ->)].
    + left. reflexivity.
    + right. exists c', e. split; [ right; exact Hin | auto ].
  - rewrite descend_other by exact Hd. cbn [bind].
    destruct (IH self Hfull) as [-> | (c' & e & Hin & He & ->)].
    + left. reflexivity.
    + right. exists c', e. split; [ right; exact Hin | auto ].
  - rewrite (descend_Error _ _ _ _ e) by exact Hd. cbn [bind].
    right. exists c, e. split; [ left; reflexivity | auto ].
Qed.

Lemma for_children_full fuel level cs self :
  full self = true ->
  Forall (fun c => exists b, is_dir fs (state c) = Ok b) cs ->
  for_children (descend fs (generate_tree fs args (S fuel)) level) self cs
  = Done (self, cs).
Proof.
  intros Hfull Hcs.
  destruct (for_children_full_outcome fuel level cs self Hfull)
    as [H | (c & e & Hin & He & _)]; [ exact H | ].
  rewrite Forall_forall in Hcs. destruct (Hcs c Hin) as [b Hb]. congruence.
Qed.

Lemma built_fresh (n : TreeNode) : fresh n -> built fs args n.
Proof.
  destruct n as [st cs]. unfold fresh. cbn [children]. intros ->.
  constructor; constructor.
Qed.

Lemma advance_refl (self : Tree) (node : TreeNode) :
  consistent self -> fresh node -> advance fs args self node self node.
Proof.
  intros Hc Hf. unfold advance.
  split; [ exact Hc | ].
  repeat split; try reflexivity; try lia.
  apply built_fresh. exact Hf.
Qed.

Lemma sum_succ_descendants (cs : list TreeNode) :
  sumZ (map (fun c => 1 + descendants c) cs)
  = Z.of_nat (length cs) + sumZ (map descendants cs).
Proof.
  induction cs as [ | c cs IH ]; [ reflexivity | ].
  cbn [map length]. rewrite !sumZ_cons, IH. lia.
Qed.

(** What a loop of steps that each [advance] amounts to. *)
Lemma threaded_advance s cs s' cs' :
  threaded (advance fs args) s cs s' cs' ->
  map state cs' = map state cs /\
  root s' = root s /\
  dir_count s <= dir_count s' /\
  file_count s <= file_count s' /\
  total s' - Z.b2z (full s') - sumZ (map descendants cs')
    = total s - Z.b2z (full s) - sumZ (map descendants cs) /\
  Forall (built fs args) cs'.
Proof.
  induction 1 as [ s | s c s1 c1 rest s2 rest1 Hstep _ IH ].
  - repeat split; try reflexivity; try lia. constructor.
  - destruct Hstep as (_ & Hst & Hr & Hd & Hf & Ht & Hb).
    destruct IH as (IHst & IHr & IHd & IHf & IHt & IHb).
    cbn [map]. rewrite !sumZ_cons.
    repeat split; try congruence; try lia.
    constructor; assumption.
Qed.

Lemma threaded_Forall (Q : TreeNode -> Prop) s cs s' cs' :
  threaded (fun _ _ _ c' => Q c') s cs s' cs' -> Forall Q cs'.
Proof. induction 1; constructor; assumption. Qed.

(** Every call of [generate_tree] on a node without children, from a
    consistent state, advances. *)
Lemma generate_tree_sound :
  forall fuel self node level self' node',
    consistent self -> fresh node ->
    generate_tree fs args fuel self node level = Done (self', node') ->
    advance fs args self node self' node'.
Proof.
  induction fuel as [ | fuel IH ]; intros self node level self' node' Hc Hf Hrun;
    [ discriminate | ].
  destruct (full self || at_max_depth args level) eqn:Hstop.
  - rewrite generate_tree_stopped in Hrun by exact Hstop.
    inversion Hrun; subst. apply advance_refl; assumption.
  - rewrite generate_tree_running in Hrun by exact Hstop.
    apply orb_false_elim in Hstop. destruct Hstop as [Hnf _].
    apply bind_Done in Hrun. destruct Hrun as ([s1 n1] & Hexp & Hrun).
    apply bind_Done in Hrun. destruct Hrun as ([s2 cs] & Hloop & Hrun).
    inversion Hrun; subst self' node'. clear Hrun.
    destruct (expand_children fs args self node s1 n1 Hf Hexp)
      as (Hst1 & Hfresh1 & _).
    destruct (expand_sound fs args self node s1 n1 Hc Hnf Hf Hexp)
      as (Hc1 & Hr1 & Hd1 & Hf1 & Ht1 & Hmade).
    assert (Hbody : forall s c s' c',
               consistent s -> fresh c ->
               descend fs (generate_tree fs args fuel) level s c
                 = Done (s', c') ->
               consistent s' /\ advance fs args s c s' c').
    { intros s c s' c' Hs Hfc Hb. unfold descend in Hb.
      destruct (is_dir fs (state c)) as [[ | ] | e]; cbn [lift bind] in Hb.
      - pose proof (IH _ _ _ _ _ Hs Hfc Hb) as Hadv.
        split; [ apply Hadv | exact Hadv ].
      - inversion Hb; subst. split; [ exact Hs | ].
        apply advance_refl; assumption.
      - discriminate. }
    destruct (for_children_rule _ consistent fresh (advance fs args) Hbody
                _ _ _ _ Hc1 Hfresh1 Hloop) as [Hc2 Hth].
    apply threaded_advance in Hth.
    destruct Hth as (Hst & Hr2 & Hd2 & Hf2 & Ht2 & Hb2).
    assert (Hlen : length cs = length (children n1)).
    { rewrite <- (length_map state cs), Hst. apply length_map. }
    assert (Hzero : sumZ (map descendants (children n1)) = 0).
    { pose proof (sum_succ_descendants (children n1)) as H.
      rewrite (sum_descendants_fresh _ Hfresh1) in H. lia. }
    unfold advance. split; [ exact Hc2 | ].
    split; [ exact Hst1 | ].
    split; [ congruence | ].
    split; [ lia | ].
    split; [ lia | ].
    split.
    + rewrite (descendants_fresh node Hf), Hnf.
      rewrite descendants_unfold. cbn [children Z.b2z].
      rewrite sum_succ_descendants, Hlen. lia.
    + constructor; [ | exact Hb2 ].
      rewrite Hst1.
      clear - Hst Hmade. revert cs Hst.
      induction Hmade as [ | c l Hc _ IHl ]; intros [ | c' l' ] Hst;
        try discriminate; constructor.
      * cbn [map] in Hst. injection Hst as Hc' _. rewrite Hc'. exact Hc.
      * apply IHl. cbn [map] in Hst. injection Hst as _ Hl'. exact Hl'.
Qed.

Lemma total_mono (s s' : Tree) :
  dir_count s <= dir_count s' -> file_count s <= file_count s' ->
  total s <= total s'.
Proof. unfold total. lia. Qed.

(** With a limit [k], a call at level [level <= k] leaves below its node no
    node deeper than [k - level]. *)
Lemma generate_tree_depth (k : Z) :
  Namespace.max_depth args = Some k ->
  forall fuel self node level self' node',
    fresh node -> level <= k ->
    generate_tree fs args fuel self node level = Done (self', node') ->
    depth_le node' (k - level).
Proof.
  intros Hk.
  induction fuel as [ | fuel IH ]; intros self node level self' node' Hf Hle Hrun;
    [ discriminate | ].
  destruct (full self || at_max_depth args level) eqn:Hstop.
  - rewrite generate_tree_stopped in Hrun by exact Hstop.
    inversion Hrun; subst. apply depth_le_fresh; [ exact Hf | lia ].
  - rewrite generate_tree_running in Hrun by exact Hstop.
    apply orb_false_elim in Hstop. destruct Hstop as [_ Hlevel].
    unfold at_max_depth in Hlevel. rewrite Hk in Hlevel.
    apply Z.eqb_neq in Hlevel.
    apply bind_Done in Hrun. destruct Hrun as ([s1 n1] & Hexp & Hrun).
    apply bind_Done in Hrun. destruct Hrun as ([s2 cs] & Hloop & Hrun).
    inversion Hrun; subst self' node'. clear Hrun.
    destruct (expand_children fs args self node s1 n1 Hf Hexp)
      as (_ & Hfresh1 & _).
    assert (Hbody : forall s c s' c',
               True -> fresh c ->
               descend fs (generate_tree fs args fuel) level s c
                 = Done (s', c') ->
               True /\ depth_le c' (k - level - 1)).
    { intros s c s' c' _ Hfc Hb. split; [ exact I | ].
      unfold descend in Hb.
      destruct (is_dir fs (state c)) as [[ | ] | e]; cbn [lift bind] in Hb.
      - replace (k - level - 1) with (k - (level + 1)) by lia.
        eapply IH; [ exact Hfc | lia | exact Hb ].
      - inversion Hb; subst. apply depth_le_fresh; [ exact Hfc | lia ].
      - discriminate. }
    destruct (for_children_rule _ (fun _ => True) fresh
                (fun _ _ _ c' => depth_le c' (k - level - 1)) Hbody
                _ _ _ _ I Hfresh1 Hloop) as [_ Hth].
    apply threaded_Forall in Hth.
    apply depth_le_node; [ lia | exact Hth ].
Qed.

Lemma expand_not_timeout (self : Tree) (node : TreeNode) :
  expand fs args self node <> Timeout.
Proof.
  unfold expand, iterdir.
  destruct (listdir fs (state node)) as [names | e];
    [ | destruct e; discriminate ].
  destruct (expand_loop fs args self node _) as [[e | ] after];
    [ destruct e; discriminate | discriminate ].
Qed.

(** A call with fuel [fuel] in a state with [total] counted entries returns
    when [fuel + total] is at least 201: every level of the recursion has
    counted an entry of its own. *)
Lemma generate_tree_terminates :
  forall fuel self node level,
    consistent self -> fresh node ->
    201 <= Z.of_nat fuel + total self ->
    generate_tree fs args fuel self node level <> Timeout.
Proof.
  induction fuel as [ | fuel IH ]; intros self node level Hc Hf Hfuel.
  - destruct Hc as (_ & _ & Ht & _). lia.
  - destruct (full self || at_max_depth args level) eqn:Hstop.
    + rewrite generate_tree_stopped by exact Hstop. discriminate.
    + rewrite generate_tree_running by exact Hstop.
      apply orb_false_elim in Hstop. destruct Hstop as [Hnf _].
      destruct (expand fs args self node) as [[s1 n1] | e | ] eqn:Hexp;
        cbn [bind]; [ | discriminate | ].
      2:{ exfalso. exact (expand_not_timeout self node Hexp). }
      destruct (expand_children fs args self node s1 n1 Hf Hexp)
        as (_ & Hfresh1 & _).
      destruct (expand_sound fs args self node s1 n1 Hc Hnf Hf Hexp)
        as (Hc1 & _ & _ & _ & Ht1 & _).
      assert (Hloop : forall cs s,
                 consistent s -> Forall fresh cs ->
                 201 <= Z.of_nat fuel + total s ->
                 for_children (descend fs (generate_tree fs args fuel) level)
                   s cs <> Timeout).
      { induction cs as [ | c rest IHcs ]; intros s Hs Hfr Hfl;
          [ discriminate | ].
        inversion Hfr as [ | ? ? Hfc Hfrest ]; subst.
        cbn [for_children].
        destruct (descend fs (generate_tree fs args fuel) level s c)
          as [[s' c'] | e | ] eqn:Hb; cbn [bind]; [ | discriminate | ].
        - assert (Hs' : consistent s' /\ total s <= total s').
          { unfold descend in Hb.
            destruct (is_dir fs (state c)) as [[ | ] | e];
              cbn [lift bind] in Hb.
            - pose proof (generate_tree_sound _ _ _ _ _ _ Hs Hfc Hb) as Hadv.
              destruct Hadv as (H1 & _ & _ & H2 & H3 & _).
              split; [ exact H1 | apply total_mono; assumption ].
            - inversion Hb; subst. split; [ exact Hs | lia ].
            - discriminate. }
          destruct Hs' as [Hs' Hmono].
          specialize (IHcs s' Hs' Hfrest ltac:(lia)).
          destruct (for_children _ s' rest) as [[s2 r] | e | ];
            [ discriminate | discriminate | congruence ].
        - exfalso. unfold descend in Hb.
          destruct (is_dir fs (state c)) as [[ | ] | e];
            cbn [lift bind] in Hb.
          + exact (IH _ _ _ Hs Hfc Hfl Hb).
          + discriminate.
          + discriminate. }
      destruct (children n1) as [ | c rest ] eqn:Hcs; [ discriminate | ].
      assert (Hnot : for_children (descend fs (generate_tree fs args fuel) level)
                       s1 (c :: rest) <> Timeout).
      { apply Hloop; [ exact Hc1 | exact Hfresh1 | ].
        cbn [length] in Ht1. destruct (full s1); cbn [Z.b2z] in Ht1; lia. }
      destruct (for_children _ s1 (c :: rest)) as [[s2 r] | e | ];
        [ discriminate | discriminate | congruence ].
Qed.

(** The build with sorted insertion and the build that appends agree on
    every node without children. *)
Lemma generate_tree_appends :
  forall fuel self node level,
    fresh node ->
    generate_tree fs args fuel self node level
    = generate_tree_append fs args fuel self node level.
Proof.
  induction fuel as [ | fuel IH ]; intros self node level Hf; [ reflexivity | ].
  cbn [generate_tree generate_tree_append].
  destruct (full self || at_max_depth args level); [ reflexivity | ].
  rewrite <- (expand_fresh fs args self node Hf).
  destruct (expand fs args self node) as [[s1 n1] | e | ] eqn:Hexp;
    cbn [bind]; try reflexivity.
  destruct (expand_children fs args self node s1 n1 Hf Hexp)
    as (_ & Hfresh1 & _).
  rewrite (for_children_ext
             (descend fs (generate_tree fs args fuel) level)
             (descend fs (generate_tree_append fs args fuel) level));
    [ reflexivity | ].
  intros s c Hin. unfold descend.
  destruct (is_dir fs (state c)) as [[ | ] | e]; cbn [lift bind];
    [ | reflexivity | reflexivity ].
  apply IH. rewrite Forall_forall in Hfresh1. apply Hfresh1. exact Hin.
Qed.
End GenerateFacts.

(** ** The build as a whole *)

Section PostInitFacts.
Variable fs : FileSystem.
Variable args : Namespace.t.

Lemma consistent_initial (directory : Path) : consistent (initial directory).
Proof. unfold consistent, total. cbn. repeat split; lia. Qed.

Lemma post_init_Done (directory : Path) (t : Tree) :
  post_init fs args directory = Done t ->
  exists self1 root1,
    generate_tree fs args recursion_bound (initial directory)
      (TreeNode_new directory) 0 = Done (self1, root1) /\
    t = set_root self1 root1.
Proof.
  unfold post_init. intros H.
  apply bind_Done in H. destruct H as ([self1 root1] & Hg & H).
  inversion H. exists self1, root1. auto.
Qed.

(** The recursion bound is never reached: a build returns or raises. *)
Lemma post_init_terminates (directory : Path) :
  post_init fs args directory <> Timeout.
Proof.
  unfold post_init.
  pose proof (generate_tree_terminates fs args recursion_bound
                (initial directory) (TreeNode_new directory) 0
                (consistent_initial directory) eq_refl) as H.
  destruct (generate_tree fs args recursion_bound (initial directory)
              (TreeNode_new directory) 0) as [[s r] | e | ];
    cbn [bind]; try discriminate.
  exfalso. apply H; [ | reflexivity ].
  unfold recursion_bound, total. cbn. lia.
Qed.

Lemma post_init_sound (directory : Path) (t : Tree) :
  post_init fs args directory = Done t ->
  consistent t /\
  state (root t) = directory /\
  built fs args (root t) /\
  descendants (root t) = total t - Z.b2z (full t).
Proof.
  intros H. apply post_init_Done in H.
  destruct H as (self1 & root1 & Hg & ->).
  apply generate_tree_sound in Hg;
    [ | apply consistent_initial | reflexivity ].
  destruct Hg as (Hc & Hst & _ & _ & _ & Ht & Hb).
  unfold consistent, total in *. cbn in *.
  repeat split; try tauto; try assumption. lia.
Qed.

Lemma full_mono (s s' : Tree) :
  consistent s -> consistent s' -> total s <= total s' ->
  full s = true -> full s' = true.
Proof.
  intros (_ & _ & Ht & Hf) (_ & _ & Ht' & Hf') Hle Hfull.
  rewrite Hf in Hfull. apply Z.eqb_eq in Hfull.
  rewrite Hf'. apply Z.eqb_eq. lia.
Qed.

Lemma listed_weaken (b b' : bool) (n : TreeNode) :
  (b' = true -> b = true) -> listed fs args b n -> listed fs args b' n.
Proof.
  intros Hb.
  induction n as [st cs IH] using TreeNode_induction.
  intros H. inversion H as [? ? Hcs Hsub]; subst.
  constructor.
  - destruct Hcs as [-> | (names & dropped & Hl & Hf & Hd)]; [ left; auto | ].
    right. exists names, dropped.
    split; [ exact Hl | ]. split; [ exact Hf | ].
    intros Hb' Hstat. apply Hd; [ apply Hb; exact Hb' | exact Hstat ].
  - rewrite Forall_forall in *. intros c Hin. apply IH; auto.
Qed.

Lemma listed_fresh (b : bool) (n : TreeNode) : fresh n -> listed fs args b n.
Proof.
  destruct n as [st cs]. unfold fresh. cbn [children]. intros ->.
  constructor; [ left; reflexivity | constructor ].
Qed.

Lemma threaded_listed s cs s' cs' :
  threaded (fun s c s' c' =>
              advance fs args s c s' c' /\ listed fs args (negb (full s')) c')
    s cs s' cs' ->
  consistent s ->
  consistent s' /\ total s <= total s' /\
  Forall (listed fs args (negb (full s'))) cs'.
Proof.
  induction 1 as [ s | s c s1 c1 rest s2 rest1 [Hadv Hl] _ IH ]; intros Hs.
  - split; [ exact Hs | ]. split; [ lia | constructor ].
  - destruct Hadv as (Hs1 & _ & _ & Hd & Hf & _).
    destruct (IH Hs1) as (Hs2 & Hle & Hrest).
    pose proof (total_mono _ _ Hd Hf) as Hle1.
    split; [ exact Hs2 | ]. split; [ lia | ].
    constructor; [ | exact Hrest ].
    apply (listed_weaken (negb (full s1))); [ | exact Hl ].
    intros H. apply negb_true_iff in H. apply negb_true_iff.
    destruct (full s1) eqn:Hf1; [ | reflexivity ].
    rewrite (full_mono s1 s2 Hs1 Hs2 Hle Hf1) in H. discriminate.
Qed.

(** In the tree that a call returns, every node holds the included entries
    of its directory in the order of the listing. *)
Lemma generate_tree_listed :
  forall fuel self node level self' node',
    consistent self -> fresh node ->
    generate_tree fs args fuel self node level = Done (self', node') ->
    listed fs args (negb (full self')) node'.
Proof.
  induction fuel as [ | fuel IH ]; intros self node level self' node' Hc Hf Hrun;
    [ discriminate | ].
  destruct (full self || at_max_depth args level) eqn:Hstop.
  - rewrite generate_tree_stopped in Hrun by exact Hstop.
    inversion Hrun; subst. apply listed_fresh. exact Hf.
  - rewrite generate_tree_running in Hrun by exact Hstop.
    apply orb_false_elim in Hstop. destruct Hstop as [Hnf _].
    apply bind_Done in Hrun. destruct Hrun as ([s1 n1] & Hexp & Hrun).
    apply bind_Done in Hrun. destruct Hrun as ([s2 cs] & Hloop & Hrun).
    inversion Hrun; subst self' node'. clear Hrun.
    destruct (expand_children fs args self node s1 n1 Hf Hexp)
      as (Hst1 & Hfresh1 & Hshape).
    destruct (expand_sound fs args self node s1 n1 Hc Hnf Hf Hexp)
      as (Hc1 & _).
    assert (Hbody : forall s c s' c',
               consistent s -> fresh c ->
               descend fs (generate_tree fs args fuel) level s c
                 = Done (s', c') ->
               consistent s' /\
               (advance fs args s c s' c' /\
                listed fs args (negb (full s')) c')).
    { intros s c s' c' Hs Hfc Hb. unfold descend in Hb.
      destruct (is_dir fs (state c)) as [[ | ] | e]; cbn [lift bind] in Hb.
      - pose proof (generate_tree_sound _ _ _ _ _ _ _ _ Hs Hfc Hb) as Hadv.
        split; [ apply Hadv | ]. split; [ exact Hadv | ].
        eapply IH; eassumption.
      - inversion Hb; subst. split; [ exact Hs | ].
        split; [ apply advance_refl; assumption | ].
        apply listed_fresh. exact Hfc.
      - discriminate. }
    destruct (for_children_rule _ consistent fresh _ Hbody
                _ _ _ _ Hc1 Hfresh1 Hloop) as [Hc2 Hth].
    pose proof (threaded_impl _ (advance fs args)
                  (fun _ _ _ _ H => proj1 H) _ _ _ _ Hth) as Hadv.
    apply threaded_advance in Hadv. destruct Hadv as (Hst & _).
    destruct (threaded_listed _ _ _ _ Hth Hc1) as (_ & Hle & Hall).
    constructor; [ | exact Hall ].
    destruct Hshape as [[_ Hnil] | (names & dropped & Hl & Hfl & Hd)].
    + left. rewrite Hnil in Hst. destruct cs; [ reflexivity | discriminate ].
    + right. exists names, dropped. rewrite Hst1, Hst.
      split; [ exact Hl | ]. split; [ exact Hfl | ].
      intros Hfull Hstat. apply Hd; [ | exact Hstat ].
      apply negb_true_iff in Hfull.
      destruct (full s1) eqn:Hf1; [ | reflexivity ].
      rewrite (full_mono s1 s2 Hc1 Hc2 Hle Hf1) in Hfull. discriminate.
Qed.

(** *** The insertions *)

Lemma insert_all_app (node : TreeNode) (l l' : list Path) :
  insert_all node (l ++ l') = insert_all (insert_all node l) l'.
Proof. unfold insert_all. apply fold_left_app. Qed.

Lemma insert_all_cons (node : TreeNode) (p : Path) (l : list Path) :
  insert_all node (p :: l) = insert_all (add_child node (TreeNode_new p)) l.
Proof. reflexivity. Qed.

(** Among siblings without children, the insertions append. *)
Lemma insert_all_append (l : list Path) :
  forall node,
    Forall fresh (children node) ->
    insert_all node l
    = mkTreeNode (state node) (children node ++ map TreeNode_new l).
Proof.
  induction l as [ | p l IH ]; intros node Hn.
  - cbn. rewrite app_nil_r. symmetry. apply TreeNode_eta.
  - rewrite insert_all_cons.
    rewrite add_child_fresh by (exact Hn || reflexivity).
    rewrite IH.
    + cbn [add_child_append state children map]. rewrite <- app_assoc.
      reflexivity.
    + cbn [add_child_append children]. apply Forall_app.
      split; [ exact Hn | constructor; [ reflexivity | constructor ] ].
Qed.

Lemma map_state_new (l : list Path) : map state (map TreeNode_new l) = l.
Proof. rewrite map_map. cbn. apply map_id. Qed.

Lemma Forall_fresh_new (l : list Path) : Forall fresh (map TreeNode_new l).
Proof.
  apply Forall_forall. intros c Hc. apply in_map_iff in Hc.
  destruct Hc as (q & <- & _). reflexivity.
Qed.

Lemma ascending_fresh (cs : list TreeNode) : Forall fresh cs -> ascending cs.
Proof.
  unfold ascending. induction 1 as [ | c cs Hc Hcs IH ]; constructor.
  - exact IH.
  - apply Forall_forall. intros x Hx. rewrite Forall_forall in Hcs.
    unfold len. rewrite Hc, (Hcs x Hx). cbn. lia.
Qed.

(** What [expand] returns for a node without children is the node after
    the insertions of the entries it has kept. *)
Lemma expand_insertions (self : Tree) (node : TreeNode) self1 node1 :
  fresh node ->
  expand fs args self node = Done (self1, node1) ->
  node1 = insert_all node (map state (children node1)).
Proof.
  intros Hf Hrun.
  assert (Hn : Forall fresh (children node)) by (rewrite Hf; constructor).
  assert (H : exists kept, node1 = insert_all node kept).
  { unfold expand in Hrun.
    destruct (iterdir fs (state node)) as [entries | e | ].
    - destruct (expand_loop fs args self node entries) as [r [s n]] eqn:Hloop.
      destruct (expand_loop_insertions fs args _ _ _ _ _ _ Hloop)
        as (kept & _ & _ & Hk).
      exists kept.
      destruct r as [e | ]; [ destruct e | ]; inversion Hrun; subst;
        reflexivity.
    - exists []. destruct e; inversion Hrun; subst. reflexivity.
    - discriminate. }
  destruct H as [kept ->].
  rewrite (insert_all_append kept node Hn) at 2.
  cbn [children]. rewrite Hf. cbn [app]. rewrite map_state_new. reflexivity.
Qed.

Lemma grown_fresh (n : TreeNode) : fresh n -> grown fs args n.
Proof.
  destruct n as [st cs]. unfold fresh. cbn [children]. intros ->.
  constructor; [ left; reflexivity | constructor ].
Qed.

(** In the tree that a call returns, the children of every node are the
    insertions of one [expand]. *)
Lemma generate_tree_grown :
  forall fuel self node level self' node',
    fresh node ->
    generate_tree fs args fuel self node level = Done (self', node') ->
    grown fs args node'.
Proof.
  induction fuel as [ | fuel IH ]; intros self node level self' node' Hf Hrun;
    [ discriminate | ].
  destruct (full self || at_max_depth args level) eqn:Hstop.
  - rewrite generate_tree_stopped in Hrun by exact Hstop.
    inversion Hrun; subst. apply grown_fresh. exact Hf.
  - rewrite generate_tree_running in Hrun by exact Hstop.
    apply bind_Done in Hrun. destruct Hrun as ([s1 n1] & Hexp & Hrun).
    apply bind_Done in Hrun. destruct Hrun as ([s2 cs] & Hloop & Hrun).
    inversion Hrun; subst self' node'. clear Hrun.
    destruct (expand_children fs args self node s1 n1 Hf Hexp)
      as (Hst1 & Hfresh1 & _).
    pose proof (expand_insertions self node s1 n1 Hf Hexp) as Hins.
    assert (Hbody : forall s c s' c',
               True -> fresh c ->
               descend fs (generate_tree fs args fuel) level s c
                 = Done (s', c') ->
               True /\ (state c' = state c /\ grown fs args c')).
    { intros s c s' c' _ Hfc Hb. split; [ exact I | ].
      unfold descend in Hb.
      destruct (is_dir fs (state c)) as [[ | ] | e] eqn:Hd;
        cbn [lift bind] in Hb.
      - split; [ | eapply IH; eassumption ].
        destruct c as [st l]. unfold fresh in Hfc. cbn [children] in Hfc.
        subst l.
        destruct fuel as [ | fuel' ]; [ discriminate | ].
        cbn [generate_tree] in Hb.
        destruct (full s || at_max_depth args (level + 1)).
        + inversion Hb; subst. reflexivity.
        + apply bind_Done in Hb. destruct Hb as ([s3 n3] & Hexp3 & Hb).
          apply bind_Done in Hb. destruct Hb as ([s4 cs4] & _ & Hb).
          inversion Hb; subst. cbn [state].
          destruct (expand_children fs args s (mkTreeNode st []) s3 n3
                      eq_refl Hexp3) as (H & _).
          exact H.
      - inversion Hb; subst. split; [ reflexivity | ].
        apply grown_fresh. exact Hfc.
      - discriminate. }
    destruct (for_children_rule _ (fun _ => True) fresh _ Hbody
                _ _ _ _ I Hfresh1 Hloop) as [_ Hth].
    assert (Hst : map state cs = map state (children n1)).
    { clear - Hth. induction Hth as [ | s c s1' c1 rest s2' rest1 [H _] _ IHt ];
        [ reflexivity | ].
      cbn [map]. rewrite H, IHt. reflexivity. }
    pose proof (threaded_impl _ (fun _ _ _ c' => grown fs args c')
                  (fun _ _ _ _ H => proj2 H) _ _ _ _ Hth) as Hg.
    apply threaded_Forall in Hg.
    constructor; [ | exact Hg ].
    destruct cs as [ | c cs' ]; [ left; reflexivity | right ].
    exists self, s1. rewrite Hst, Hst1.
    assert (Hnode : node = TreeNode_new (state node)).
    { destruct node as [st l]. unfold fresh in Hf. cbn [children] in Hf.
      subst l. reflexivity. }
    rewrite <- Hnode, <- Hins. exact Hexp.
Qed.
End PostInitFacts.

(** ** Truncation *)

Lemma expand_loop_break fs args self node child rest self' :
  should_include fs args child = Ok true ->
  increment_counts fs self child = Ok self' ->
  full self' = true ->
  expand_loop fs args self node (child :: rest) = (None, (self', node)).
Proof.
  intros Hinc Hcnt Hfull. cbn [expand_loop].
  rewrite Hinc, Hcnt, Hfull. reflexivity.
Qed.

(** C1.  Once [full] is set, nothing more is added for the rest of the build:
    the loop of [expand] breaks at the entry that set it, before a node is
    made for that entry; every later call of [generate_tree] returns at its
    first line; every loop over children that is still running leaves the
    state and the children as they are (it can only be left by an exception
    of [is_dir], which no child of a build raises).  The total
    [dir_count + file_count] only grows and never exceeds 200, [full] holds
    exactly when it is 200, and a truncated build ends with 200 counted
    entries and 199 nodes below the root. *)
Theorem truncation_is_global (fs : FileSystem) (args : Namespace.t) :
  (forall self node child rest self',
      should_include fs args child = Ok true ->
      increment_counts fs self child = Ok self' ->
      full self' = true ->
      expand_loop fs args self node (child :: rest) = (None, (self', node))) /\
  (forall fuel self node level,
      full self = true ->
      generate_tree fs args (S fuel) self node level = Done (self, node)) /\
  (forall fuel level self cs,
      full self = true ->
      (Forall (fun c => exists b, is_dir fs (state c) = Ok b) cs ->
       for_children (descend fs (generate_tree fs args (S fuel)) level)
         self cs = Done (self, cs)) /\
      (for_children (descend fs (generate_tree fs args (S fuel)) level)
         self cs = Done (self, cs) \/
       exists c e,
         In c cs /\ is_dir fs (state c) = Error e /\
         for_children (descend fs (generate_tree fs args (S fuel)) level)
           self cs = Raised e)) /\
  (forall fuel self node level self' node',
      consistent self -> fresh node ->
      generate_tree fs args fuel self node level = Done (self', node') ->
      total self <= total self' <= 200 /\
      full self' = (total self' =? 200)) /\
  (forall directory t,
      post_init fs args directory = Done t ->
      total t <= 200 /\
      full t = (total t =? 200) /\
      (full t = true -> total t = 200 /\ descendants (root t) = 199)).
Proof.
  split; [ intros; eapply expand_loop_break; eassumption | ].
  split.
  { intros fuel self node level Hfull.
    apply generate_tree_stopped. rewrite Hfull. reflexivity. }
  split.
  { intros fuel level self cs Hfull.
    split; [ intros Hcs; apply for_children_full; assumption | ].
    apply for_children_full_outcome. exact Hfull. }
  split.
  { intros fuel self node level self' node' Hc Hf Hrun.
    destruct (generate_tree_sound fs args _ _ _ _ _ _ Hc Hf Hrun)
      as ((_ & _ & Ht & Hfull) & _ & _ & Hd & Hfc & _).
    pose proof (total_mono _ _ Hd Hfc). auto. }
  intros directory t Hrun.
  destruct (post_init_sound fs args directory t Hrun)
    as ((_ & _ & Ht & Hfull) & _ & _ & Hdesc).
  repeat split; try assumption.
  - rewrite Hfull in H. apply Z.eqb_eq in H. exact H.
  - rewrite Hfull in H. apply Z.eqb_eq in H.
    rewrite Hdesc, Hfull, H. reflexivity.
Qed.

Lemma truncation_is_global_witness :
  exists t,
    post_init crowded_fs default_args base_path = Done t /\
    full t = true /\ total t = 200 /\ descendants (root t) = 199.
Proof.
  assert (Hrun : exists t,
             post_init crowded_fs default_args base_path = Done t /\
             full t = true).
  { eexists. split; vm_compute; reflexivity. }
  destruct Hrun as (t & Hrun & Hfull).
  exists t.
  destruct (proj2 (proj2 (proj2 (proj2
              (truncation_is_global crowded_fs default_args))))
              base_path t Hrun) as (_ & _ & H).
  destruct (H Hfull) as [Ht Hd].
  repeat split; assumption.
Defined.

(** ** The order of the children *)

Lemma grown_occurs fs args (n : TreeNode) :
  grown fs args n -> forall k m, occurs n k m -> grown fs args m.
Proof.
  induction n as [st cs IH] using TreeNode_induction.
  intros Hg k m Hocc. inversion Hocc as [ | ? c k' ? Hin Hsub ]; subst.
  - exact Hg.
  - inversion Hg as [? ? _ Hcs]; subst. cbn [children] in Hin.
    rewrite Forall_forall in IH, Hcs.
    apply (IH c Hin (Hcs c Hin) k' m Hsub).
Qed.

Lemma listed_occurs fs args b (n : TreeNode) :
  listed fs args b n -> forall k m, occurs n k m -> listed fs args b m.
Proof.
  induction n as [st cs IH] using TreeNode_induction.
  intros Hg k m Hocc. inversion Hocc as [ | ? c k' ? Hin Hsub ]; subst.
  - exact Hg.
  - inversion Hg as [? ? _ Hcs]; subst. cbn [children] in Hin.
    rewrite Forall_forall in IH, Hcs.
    apply (IH c Hin (Hcs c Hin) k' m Hsub).
Qed.

(** One insertion among siblings that have no children: the new child goes
    to its sorted position, which is behind all of them. *)
Lemma insertion_step (node : TreeNode) (before : list Path) (p : Path) :
  fresh node ->
  let n := insert_all node before in
  let child := TreeNode_new p in
  map state (children n) = before /\
  ascending (children n) /\
  Forall (fun x => len x = len child) (children n) /\
  (exists l r,
      children n = l ++ r /\
      children (add_child n child) = l ++ child :: r /\
      Forall (fun x => len x <= len child) l /\
      Forall (fun x => len child < len x) r) /\
  children (add_child n child) = children n ++ [child] /\
  ascending (children (add_child n child)).
Proof.
  intros Hf n child.
  assert (Hn : n = mkTreeNode (state node) (map TreeNode_new before)).
  { unfold n. rewrite insert_all_append by (rewrite Hf; constructor).
    rewrite Hf. reflexivity. }
  assert (Hfr : Forall fresh (children n)).
  { rewrite Hn. cbn [children]. apply Forall_fresh_new. }
  assert (Hasc : ascending (children n)) by (apply ascending_fresh; exact Hfr).
  destruct (add_child_sorted n child Hasc)
    as (l & r & Hsplit & Hins & Hl & Hr & Hasc').
  split; [ rewrite Hn; cbn [children]; apply map_state_new | ].
  split; [ exact Hasc | ].
  split.
  { apply Forall_forall. intros x Hx. rewrite Forall_forall in Hfr.
    unfold len. rewrite (Hfr x Hx). reflexivity. }
  split; [ exists l, r; auto | ].
  split; [ | exact Hasc' ].
  rewrite add_child_fresh by (exact Hfr || reflexivity). reflexivity.
Qed.

(** C2.  In the tree of a build, the children of every node are those that
    one call of [expand] has inserted with [add_child], one after the other
    and in the order in which the directory lists its included entries.  At
    each insertion the siblings that are already there are in ascending
    order of their child counts as they are then; the new child, which has
    no children yet, goes to its sorted position: behind every sibling
    whose count is not greater and before those whose count is greater; the
    counts are all equal, so that it goes behind all of them and the order
    of insertion is kept; and the sequence is ascending again. *)
Theorem children_inserted_ascending (fs : FileSystem) (args : Namespace.t)
    (directory : Path) (t : Tree) :
  post_init fs args directory = Done t ->
  forall k m,
    occurs (root t) k m ->
    let node := TreeNode_new (state m) in
    let entries := map state (children m) in
    (children m = [] \/
     exists self self',
       expand fs args self node = Done (self', insert_all node entries)) /\
    (children m = [] \/
     exists names dropped,
       listdir fs (state m) = Entries names /\
       filter (included fs args) (map (joinpath (state m)) names)
       = entries ++ dropped) /\
    map state (children (insert_all node entries)) = entries /\
    forall before p after,
      entries = before ++ p :: after ->
      let n := insert_all node before in
      let child := TreeNode_new p in
      map state (children n) = before /\
      ascending (children n) /\
      Forall (fun x => len x = len child) (children n) /\
      (exists l r,
          children n = l ++ r /\
          children (add_child n child) = l ++ child :: r /\
          Forall (fun x => len x <= len child) l /\
          Forall (fun x => len child < len x) r) /\
      children (add_child n child) = children n ++ [child] /\
      ascending (children (add_child n child)) /\
      insert_all node (before ++ [p]) = add_child n child.
Proof.
  intros Hrun k m Hocc node entries.
  apply post_init_Done in Hrun. destruct Hrun as (self1 & root1 & Hg & ->).
  cbn [set_root root] in Hocc.
  pose proof (generate_tree_grown fs args _ _ _ _ _ _ (fresh_new _) Hg)
    as Hgrown.
  pose proof (generate_tree_listed fs args _ _ _ _ _ _
                (consistent_initial _) (fresh_new _) Hg) as Hlisted.
  apply (grown_occurs _ _ _ Hgrown) in Hocc as Hm.
  apply (listed_occurs _ _ _ _ Hlisted) in Hocc as Hl.
  destruct m as [st cs]. cbn [state children] in *.
  inversion Hm as [? ? Hexp _]; subst.
  inversion Hl as [? ? Hfl _]; subst.
  split; [ exact Hexp | ].
  split.
  { destruct Hfl as [-> | (names & dropped & H1 & H2 & _)];
      [ left; reflexivity | right; exists names, dropped; auto ]. }
  split.
  { destruct (insertion_step node entries [] (fresh_new _)) as (H & _).
    exact H. }
  intros before p after Hsplit.
  destruct (insertion_step node before p (fresh_new _))
    as (H1 & H2 & H3 & H4 & H5 & H6).
  repeat split; try assumption.
  rewrite insert_all_app. reflexivity.
Qed.

Lemma children_inserted_ascending_witness :
  exists t,
    post_init temp_fs default_args base_path = Done t /\
    map state (children (root t))
    = map (joinpath base_path) ["folder1"; "folder2"] /\
    map len (children (root t)) = [2; 1] /\
    let n := insert_all (TreeNode_new base_path) [base_path ++ ["folder1"]] in
    let child := TreeNode_new (base_path ++ ["folder2"]) in
    children n = [TreeNode_new (base_path ++ ["folder1"])] /\
    ascending (children n) /\
    children (add_child n child) = children n ++ [child] /\
    ascending (children (add_child n child)).
Proof.
  assert (Hrun : exists t,
             post_init temp_fs default_args base_path = Done t /\
             state (root t) = base_path /\
             map state (children (root t))
             = map (joinpath base_path) ["folder1"; "folder2"] /\
             map len (children (root t)) = [2; 1]).
  { eexists.
    split; [ vm_compute; reflexivity | ].
    split; [ vm_compute; reflexivity | ].
    split; vm_compute; reflexivity. }
  destruct Hrun as (t & Hrun & Hst & Hcs & Hlen).
  exists t.
  destruct (children_inserted_ascending temp_fs default_args base_path t Hrun
              0 (root t) (occurs_here (root t)))
    as (_ & _ & _ & Hstep).
  rewrite Hst, Hcs in Hstep.
  destruct (Hstep [base_path ++ ["folder1"]] (base_path ++ ["folder2"]) []
              eq_refl)
    as (_ & Hasc & _ & _ & Happ & Hasc' & _).
  split; [ exact Hrun | ].
  split; [ exact Hcs | ].
  split; [ exact Hlen | ].
  split; [ vm_compute; reflexivity | ].
  split; [ exact Hasc | ].
  split; [ exact Happ | exact Hasc' ].
Defined.

(** ** The refinement: sorted insertion appends *)

(** C9.  In a build every child is inserted while it and all its siblings
    have no children, and there [add_child] appends; so the build with
    [bisect.insort] is the build with [list.append], and in the tree it
    returns the children of every node are the included entries of its
    directory in the order of the listing: none for a node that was not
    expanded, and otherwise a prefix of them, which is all of them unless the
    build was truncated or [os.stat] is denied for an entry of the
    directory, at which the loop of [expand] is left. *)
Theorem sorted_insertion_appends (fs : FileSystem) (args : Namespace.t) :
  (forall node child,
      Forall fresh (children node) -> fresh child ->
      add_child node child = add_child_append node child) /\
  (forall self node,
      fresh node ->
      expand fs args self node = expand_append fs args self node /\
      forall self1 node1,
        expand fs args self node = Done (self1, node1) ->
        Forall fresh (children node1)) /\
  (forall directory,
      post_init fs args directory = post_init_append fs args directory) /\
  (forall directory t,
      post_init fs args directory = Done t ->
      listed fs args (negb (full t)) (root t)).
Proof.
  split; [ exact add_child_fresh | ].
  split.
  { intros self node Hf. split; [ apply expand_fresh; exact Hf | ].
    intros self1 node1 Hexp.
    apply (expand_children fs args self node self1 node1 Hf Hexp). }
  split.
  { intros directory. unfold post_init, post_init_append.
    rewrite generate_tree_appends by reflexivity. reflexivity. }
  intros directory t Hrun.
  apply post_init_Done in Hrun. destruct Hrun as (self1 & root1 & Hg & ->).
  apply generate_tree_listed in Hg;
    [ exact Hg | apply consistent_initial | reflexivity ].
Qed.

Lemma sorted_insertion_appends_witness :
  post_init temp_fs default_args base_path
  = post_init_append temp_fs default_args base_path /\
  exists t,
    post_init temp_fs default_args base_path = Done t /\
    map state (children (root t))
    = map (joinpath base_path) ["folder1"; "folder2"] /\
    map len (children (root t)) = [2; 1] /\
    listed temp_fs default_args true (root t).
Proof.
  destruct (sorted_insertion_appends temp_fs default_args)
    as (_ & _ & Heq & Hlisted).
  split; [ apply Heq | ].
  assert (Hrun : exists t,
             post_init temp_fs default_args base_path = Done t /\
             full t = false /\
             map state (children (root t))
             = map (joinpath base_path) ["folder1"; "folder2"] /\
             map len (children (root t)) = [2; 1]).
  { eexists.
    split; [ vm_compute; reflexivity | ].
    split; [ vm_compute; reflexivity | ].
    split; vm_compute; reflexivity. }
  destruct Hrun as (t & Hrun & Hfull & Hst & Hlen).
  exists t. pose proof (Hlisted base_path t Hrun) as Hl.
  rewrite Hfull in Hl. repeat split; assumption.
Defined.

(** ** Nodes and counts *)

(** C10.  The entry that brings the total to 200 is counted and gets no
    node: the loop of [expand] returns with the incremented counters and
    the node as it was.  After every build the number of nodes below the
    root is [dir_count + file_count] when [full] is false and one less when
    it is true. *)
Theorem nodes_match_counts (fs : FileSystem) (args : Namespace.t) :
  (forall self node child rest b,
      consistent self -> total self = 199 ->
      should_include fs args child = Ok true ->
      is_dir fs child = Ok b ->
      exists self',
        increment_counts fs self child = Ok self' /\
        expand_loop fs args self node (child :: rest)
          = (None, (self', node)) /\
        total self' = 200 /\
        full self' = true) /\
  (forall directory t,
      post_init fs args directory = Done t ->
      (full t = false ->
       descendants (root t) = dir_count t + file_count t) /\
      (full t = true ->
       descendants (root t) = dir_count t + file_count t - 1)).
Proof.
  split.
  - intros self node child rest b Hc Ht Hinc Hdir.
    assert (Hnf : full self = false).
    { destruct Hc as (_ & _ & _ & Hf). rewrite Hf. apply Z.eqb_neq. lia. }
    assert (Hcnt : exists self', increment_counts fs self child = Ok self').
    { unfold increment_counts. rewrite Hdir. eexists. reflexivity. }
    destruct Hcnt as [self' Hcnt]. exists self'.
    destruct (increment_counts_spec fs self child self' Hc Hnf Hcnt)
      as ((_ & _ & _ & Hf1) & Ht1 & _).
    assert (Hfull : full self' = true).
    { rewrite Hf1. apply Z.eqb_eq. lia. }
    split; [ exact Hcnt | ].
    split; [ eapply expand_loop_break; eassumption | ].
    split; [ lia | exact Hfull ].
  - intros directory t Hrun.
    destruct (post_init_sound fs args directory t Hrun) as (_ & _ & _ & Hd).
    unfold total in Hd.
    split; intros Hfull; rewrite Hfull in Hd; cbn [Z.b2z] in Hd; lia.
Qed.

Lemma nodes_match_counts_witness :
  (exists t,
      post_init temp_fs default_args base_path = Done t /\
      full t = false /\ dir_count t = 3 /\ file_count t = 3 /\
      descendants (root t) = 6) /\
  (exists t,
      post_init crowded_fs default_args base_path = Done t /\
      full t = true /\ dir_count t = 200 /\ file_count t = 0 /\
      descendants (root t) = 199).
Proof.
  destruct (nodes_match_counts temp_fs default_args) as [_ H1].
  destruct (nodes_match_counts crowded_fs default_args) as [_ H2].
  split.
  - assert (Hrun : exists t,
               post_init temp_fs default_args base_path = Done t /\
               full t = false /\ dir_count t = 3 /\ file_count t = 3).
    { eexists.
      split; [ vm_compute; reflexivity | ].
      split; [ vm_compute; reflexivity | ].
      split; vm_compute; reflexivity. }
    destruct Hrun as (t & Hrun & Hf & Hd & Hfc).
    exists t. destruct (H1 base_path t Hrun) as [Hn _].
    repeat split; try assumption. rewrite (Hn Hf), Hd, Hfc. reflexivity.
  - assert (Hrun : exists t,
               post_init crowded_fs default_args base_path = Done t /\
               full t = true /\ dir_count t = 200 /\ file_count t = 0).
    { eexists.
      split; [ vm_compute; reflexivity | ].
      split; [ vm_compute; reflexivity | ].
      split; vm_compute; reflexivity. }
    destruct Hrun as (t & Hrun & Hf & Hd & Hfc).
    exists t. destruct (H2 base_path t Hrun) as [_ Hn].
    repeat split; try assumption. rewrite (Hn Hf), Hd, Hfc. reflexivity.
Defined.

(** ** The depth limit *)

Lemma for_children_at_max fs args fuel level :
  at_max_depth args (level + 1) = true ->
  forall cs self,
    Forall (fun c => exists b, is_dir fs (state c) = Ok b) cs ->
    for_children (descend fs (generate_tree fs args (S fuel)) level) self cs
    = Done (self, cs).
Proof.
  intros Hmax.
  induction cs as [ | c rest IH ]; intros self Hcs; [ reflexivity | ].
  inversion Hcs as [ | ? ? [b Hb] Hrest ]; subst.
  cbn [for_children]. unfold descend at 1. rewrite Hb. cbn [lift bind].
  rewrite generate_tree_stopped by (rewrite Hmax; apply orb_true_r).
  destruct b; cbn [bind]; rewrite IH by exact Hrest; reflexivity.
Qed.

(** The claim C3 fails on the fixture: with [max_depth = 0] the root has no
    children, although its directory lists two included entries. *)
Lemma max_depth_zero_lists_nothing :
  post_init temp_fs (with_max_depth (Some 0)) base_path
    = Done (initial base_path) /\
  children (root (initial base_path)) = [] /\
  filter (included temp_fs (with_max_depth (Some 0)))
    (map (joinpath base_path) ["folder1"; "folder2"])
    = map (joinpath base_path) ["folder1"; "folder2"] /\
  iterdir temp_fs base_path
    = Done (map (joinpath base_path) ["folder1"; "folder2"]).
Proof. repeat split; vm_compute; reflexivity. Qed.

(** C3, amended.  With [max_depth = 0] the build stops at the first line of
    the outermost call: the root has no children and the counters are zero.
    Listing the immediate children of the root without going below them is
    the build with [max_depth = 1]: it is one [expand] of the root, and
    every child of the root is left without children. *)
Theorem max_depth_zero_and_one (fs : FileSystem) (a d f i : bool)
    (directory : Path) :
  post_init fs (Namespace.mk a d f (Some 0) i) directory
    = Done (initial directory) /\
  post_init fs (Namespace.mk a d f (Some 1) i) directory
    = ('(self1, root1) <-
         expand fs (Namespace.mk a d f (Some 1) i) (initial directory)
           (TreeNode_new directory) ;;
       Done (set_root self1 root1)) /\
  (forall t,
      post_init fs (Namespace.mk a d f (Some 1) i) directory = Done t ->
      Forall fresh (children (root t))).
Proof.
  assert (Hone : post_init fs (Namespace.mk a d f (Some 1) i) directory
                 = ('(self1, root1) <-
                      expand fs (Namespace.mk a d f (Some 1) i)
                        (initial directory) (TreeNode_new directory) ;;
                    Done (set_root self1 root1))).
  { unfold post_init, recursion_bound.
    rewrite generate_tree_running by reflexivity.
    destruct (expand fs _ (initial directory) (TreeNode_new directory))
      as [[s1 n1] | e | ] eqn:Hexp; cbn [bind]; try reflexivity.
    destruct (expand_sound fs _ _ _ s1 n1 (consistent_initial directory)
                eq_refl (fresh_new directory) Hexp)
      as (_ & _ & _ & _ & _ & Hmade).
    rewrite for_children_at_max; [ | reflexivity | ].
    - cbn [bind]. rewrite TreeNode_eta. reflexivity.
    - apply Forall_forall. intros c Hin. rewrite Forall_forall in Hmade.
      apply (Hmade c Hin). }
  split; [ reflexivity | ].
  split; [ exact Hone | ].
  intros t Hrun. rewrite Hone in Hrun.
  apply bind_Done in Hrun. destruct Hrun as ([s1 n1] & Hexp & Hrun).
  inversion Hrun; subst t. cbn [set_root root].
  apply (expand_children fs _ _ _ s1 n1 (fresh_new directory) Hexp).
Qed.

Lemma max_depth_zero_and_one_witness :
  post_init temp_fs (with_max_depth (Some 0)) base_path
    = Done (initial base_path) /\
  exists t,
    post_init temp_fs (with_max_depth (Some 1)) base_path = Done t /\
    map state (children (root t))
      = map (joinpath base_path) ["folder1"; "folder2"] /\
    Forall fresh (children (root t)).
Proof.
  destruct (max_depth_zero_and_one temp_fs false false false false base_path)
    as (Hzero & _ & Hfresh).
  split; [ exact Hzero | ].
  assert (Hrun : exists t,
             post_init temp_fs (with_max_depth (Some 1)) base_path = Done t /\
             map state (children (root t))
               = map (joinpath base_path) ["folder1"; "folder2"]).
  { eexists. split; [ vm_compute; reflexivity | ]. vm_compute; reflexivity. }
  destruct Hrun as (t & Hrun & Hst).
  exists t. repeat split; [ exact Hrun | exact Hst | exact (Hfresh t Hrun) ].
Defined.

Section Unlimited.
Variable fs : FileSystem.
Variables a d f i : bool.
Variable k : Z.
Hypothesis k_large : 200 <= k.

(** A limit of 200 or more is never reached: a call at level [level] has
    counted at least [level] entries, and at 200 the build is truncated. *)
Lemma generate_tree_unlimited :
  forall fuel self node level,
    consistent self -> fresh node -> level <= total self ->
    generate_tree fs (Namespace.mk a d f (Some k) i) fuel self node level
    = generate_tree fs (Namespace.mk a d f None i) fuel self node level.
Proof.
  induction fuel as [ | fuel IH ]; intros self node level Hc Hf Hlevel;
    [ reflexivity | ].
  cbn [generate_tree].
  assert (Hmax : full self
                   || at_max_depth (Namespace.mk a d f (Some k) i) level
                 = full self
                   || at_max_depth (Namespace.mk a d f None i) level).
  { unfold at_max_depth. cbn [Namespace.max_depth].
    destruct (full self) eqn:Hfull; [ reflexivity | ].
    cbn [orb]. apply Z.eqb_neq.
    destruct Hc as (_ & _ & Ht & Hfl). rewrite Hfull in Hfl.
    symmetry in Hfl. apply Z.eqb_neq in Hfl. lia. }
  rewrite Hmax.
  destruct (full self || at_max_depth (Namespace.mk a d f None i) level)
    eqn:Hstop; [ reflexivity | ].
  apply orb_false_elim in Hstop. destruct Hstop as [Hnf _].
  change (expand fs (Namespace.mk a d f (Some k) i) self node)
    with (expand fs (Namespace.mk a d f None i) self node).
  destruct (expand fs (Namespace.mk a d f None i) self node)
    as [[s1 n1] | e | ] eqn:Hexp; cbn [bind]; try reflexivity.
  destruct (expand_children fs _ self node s1 n1 Hf Hexp)
    as (_ & Hfresh1 & _).
  destruct (expand_sound fs _ self node s1 n1 Hc Hnf Hf Hexp)
    as (Hc1 & _ & _ & _ & Ht1 & _).
  assert (Hloop : forall cs s,
             consistent s -> Forall fresh cs -> level + 1 <= total s ->
             for_children
               (descend fs
                  (generate_tree fs (Namespace.mk a d f (Some k) i) fuel)
                  level) s cs
             = for_children
                 (descend fs
                    (generate_tree fs (Namespace.mk a d f None i) fuel)
                    level) s cs).
  { induction cs as [ | c rest IHcs ]; intros s Hs Hfr Hl; [ reflexivity | ].
    inversion Hfr as [ | ? ? Hfc Hfrest ]; subst.
    cbn [for_children].
    assert (Hb : descend fs
                   (generate_tree fs (Namespace.mk a d f (Some k) i) fuel)
                   level s c
                 = descend fs
                     (generate_tree fs (Namespace.mk a d f None i) fuel)
                     level s c).
    { unfold descend.
      destruct (is_dir fs (state c)) as [[ | ] | e]; cbn [lift bind];
        [ | reflexivity | reflexivity ].
      apply IH; assumption. }
    rewrite Hb.
    destruct (descend fs (generate_tree fs (Namespace.mk a d f None i) fuel)
                level s c) as [[s' c'] | e | ] eqn:Hrun; cbn [bind];
      try reflexivity.
    assert (Hs' : consistent s' /\ total s <= total s').
    { unfold descend in Hrun.
      destruct (is_dir fs (state c)) as [[ | ] | e]; cbn [lift bind] in Hrun.
      - pose proof (generate_tree_sound _ _ _ _ _ _ _ _ Hs Hfc Hrun) as Hadv.
        destruct Hadv as (H1 & _ & _ & H2 & H3 & _).
        split; [ exact H1 | apply total_mono; assumption ].
      - inversion Hrun; subst. split; [ exact Hs | lia ].
      - discriminate. }
    destruct Hs' as [Hs' Hmono].
    rewrite IHcs by (assumption || lia). reflexivity. }
  destruct (children n1) as [ | c rest ] eqn:Hcs; [ reflexivity | ].
  rewrite Hloop; [ reflexivity | exact Hc1 | exact Hfresh1 | ].
  cbn [length] in Ht1. destruct (full s1); cbn [Z.b2z] in Ht1; lia.
Qed.

Lemma post_init_unlimited (directory : Path) :
  post_init fs (Namespace.mk a d f (Some k) i) directory
  = post_init fs (Namespace.mk a d f None i) directory.
Proof.
  unfold post_init. rewrite generate_tree_unlimited;
    [ reflexivity | apply consistent_initial | reflexivity | ].
  unfold total. cbn. lia.
Qed.
End Unlimited.

(** C4.  With [max_depth = k] for a [k] that is not negative, no node of the
    tree lies more than [k] levels below the root.  With [max_depth] unset no
    level stops the recursion: the outermost line of [generate_tree] stops on
    [full] alone, and the build is the one that any limit of 200 or more
    gives, a limit that the 200 counted entries of a truncated build keep out
    of reach. *)
Theorem max_depth_bounds_depth (fs : FileSystem) (a d f i : bool)
    (directory : Path) (k : Z) :
  0 <= k ->
  (forall t j m,
      post_init fs (Namespace.mk a d f (Some k) i) directory = Done t ->
      occurs (root t) j m -> j <= k) /\
  (forall level, at_max_depth (Namespace.mk a d f None i) level = false) /\
  (200 <= k ->
   post_init fs (Namespace.mk a d f None i) directory
   = post_init fs (Namespace.mk a d f (Some k) i) directory).
Proof.
  intros Hk. split; [ | split ].
  - intros t j m Hrun Ho.
    apply post_init_Done in Hrun. destruct Hrun as (self1 & root1 & Hg & ->).
    cbn [set_root root] in Ho.
    pose proof (generate_tree_depth fs (Namespace.mk a d f (Some k) i) k
                  eq_refl _ _ _ _ _ _ (fresh_new directory) Hk Hg) as Hd.
    specialize (Hd j m Ho). lia.
  - reflexivity.
  - intros Hlarge. symmetry. apply post_init_unlimited. exact Hlarge.
Qed.

Lemma max_depth_bounds_depth_witness :
  0 <= 2 /\
  (exists t m,
      post_init (mount base_path (chain 5)) (with_max_depth (Some 2)) base_path
        = Done t /\
      occurs (root t) 2 m /\
      forall j m', occurs (root t) j m' -> j <= 2) /\
  (exists t m,
      post_init (mount base_path (chain 5)) (with_max_depth None) base_path
        = Done t /\
      occurs (root t) 5 m).
Proof.
  assert (Hk : 0 <= 2) by lia.
  destruct (max_depth_bounds_depth (mount base_path (chain 5))
              false false false false base_path 2 Hk) as (Hdepth & _ & _).
  split; [ exact Hk | ]. split.
  - assert (Hrun : exists t,
               post_init (mount base_path (chain 5)) (with_max_depth (Some 2))
                 base_path = Done t /\
               root t
               = mkTreeNode base_path
                   [mkTreeNode (base_path ++ ["d"])
                      [mkTreeNode (base_path ++ ["d"; "d"]) []]]).
    { eexists. split; [ vm_compute; reflexivity | ]. vm_compute; reflexivity. }
    destruct Hrun as (t & Hrun & Hroot).
    exists t, (mkTreeNode (base_path ++ ["d"; "d"]) []).
    split; [ exact Hrun | ]. split.
    + rewrite Hroot.
      eapply occurs_child; [ left; reflexivity | ].
      eapply occurs_child; [ left; reflexivity | ].
      apply occurs_here.
    + intros j m' Ho. exact (Hdepth t j m' Hrun Ho).
  - eexists. eexists. split; [ vm_compute; reflexivity | ].
    cbn [root].
    do 5 (eapply occurs_child; [ left; reflexivity | ]).
    apply occurs_here.
Defined.

(** ** Directories only *)

(** C7 at a directory that holds a FIFO.  With [-d] the FIFO passes
    [__should_include], which excludes what [is_file] accepts, and
    [__increment_counts], which counts as a file what [is_dir] rejects,
    counts it: [file_count] is 1, and the tree holds a node that is not a
    directory. *)
Theorem directories_only_counts_special :
  exists t,
    post_init pipe_fs directories_only base_path = Done t /\
    file_count t = 1 /\
    dir_count t = 1 /\
    map state (children (root t))
      = [base_path ++ ["pipe"]; base_path ++ ["sub"]] /\
    is_dir pipe_fs (base_path ++ ["pipe"]) = Ok false /\
    is_file pipe_fs (base_path ++ ["pipe"]) = Ok false.
Proof. eexists. repeat split; vm_compute; reflexivity. Qed.

Section DirectoriesOnly.
Variable fs : FileSystem.
Variable args : Namespace.t.
Hypothesis only_directories : Namespace.d args = true.

Lemma built_no_file (n : TreeNode) :
  built fs args n ->
  forall j m, occurs n j m -> 1 <= j -> is_file fs (state m) = Ok false.
Proof.
  intros Hb j m Ho. revert Hb.
  induction Ho as [ n | n c j m Hin Ho IH ]; intros Hb Hj; [ lia | ].
  inversion Hb as [st cs Hmade Hsub]; subst. cbn [children] in Hin.
  rewrite Forall_forall in Hmade, Hsub.
  destruct (Z.eq_dec j 0) as [-> | Hpos].
  - inversion Ho as [ | ? ? j' ? _ Ho' ]; subst.
    + destruct (Hmade _ Hin) as (_ & Hinc & _).
      unfold should_include in Hinc. rewrite only_directories in Hinc.
      destruct (negb (Namespace.a args) && _); [ discriminate | ].
      destruct (is_file fs (state m)) as [[ | ] | e];
        [ discriminate | reflexivity | discriminate ].
    + pose proof (occurs_depth_nonneg _ _ _ Ho'). lia.
  - apply IH; [ apply Hsub; exact Hin | ].
    pose proof (occurs_depth_nonneg _ _ _ Ho). lia.
Qed.

Lemma generate_tree_no_file :
  regular fs ->
  forall fuel self node level self' node',
    fresh node ->
    generate_tree fs args fuel self node level = Done (self', node') ->
    file_count self' = file_count self.
Proof.
  intros Hreg.
  induction fuel as [ | fuel IH ]; intros self node level self' node' Hf Hrun;
    [ discriminate | ].
  destruct (full self || at_max_depth args level) eqn:Hstop.
  - rewrite generate_tree_stopped in Hrun by exact Hstop.
    inversion Hrun; subst. reflexivity.
  - rewrite generate_tree_running in Hrun by exact Hstop.
    apply bind_Done in Hrun. destruct Hrun as ([s1 n1] & Hexp & Hrun).
    apply bind_Done in Hrun. destruct Hrun as ([s2 cs] & Hloop & Hrun).
    inversion Hrun; subst self' node'. clear Hrun.
    destruct (expand_children fs args self node s1 n1 Hf Hexp)
      as (_ & Hfresh1 & _).
    assert (H1 : file_count s1 = file_count self).
    { rewrite (expand_fresh fs args self node Hf) in Hexp.
      destruct (expand_Done fs args self node s1 n1 Hexp)
        as [(_ & -> & _) | (names & r & Hl & Hrun & _)]; [ reflexivity | ].
      pose proof (expand_loop_append_no_file fs args
                    (map (joinpath (state node)) names) only_directories)
        as Hno.
      rewrite <- (Hno ltac:(
        apply Forall_forall; intros q Hq; apply in_map_iff in Hq;
        destruct Hq as (nm & <- & Hnm); exact (Hreg _ _ _ Hl Hnm))
        self node).
      rewrite Hrun. reflexivity. }
    assert (Hbody : forall s c s' c',
               file_count s = file_count self -> fresh c ->
               descend fs (generate_tree fs args fuel) level s c
                 = Done (s', c') ->
               file_count s' = file_count self /\ True).
    { intros s c s' c' Hs Hfc Hb. split; [ | exact I ].
      unfold descend in Hb.
      destruct (is_dir fs (state c)) as [[ | ] | e]; cbn [lift bind] in Hb.
      - rewrite (IH _ _ _ _ _ Hfc Hb). exact Hs.
      - inversion Hb; subst. exact Hs.
      - discriminate. }
    destruct (for_children_rule _ (fun s => file_count s = file_count self)
                fresh (fun _ _ _ _ => True) Hbody _ _ _ _ H1 Hfresh1 Hloop)
      as [H2 _].
    exact H2.
Qed.

(** With [-d] no node below the root is a regular file, and on a file system
    whose entries are all regular files or directories no file is counted. *)
Lemma directories_only_on_regular (directory : Path) (t : Tree) :
  post_init fs args directory = Done t ->
  (forall j m, occurs (root t) j m -> 1 <= j ->
               is_file fs (state m) = Ok false) /\
  (regular fs -> file_count t = 0).
Proof.
  intros Hrun. split.
  - apply built_no_file.
    apply (post_init_sound fs args directory t Hrun).
  - intros Hreg.
    apply post_init_Done in Hrun. destruct Hrun as (self1 & root1 & Hg & ->).
    cbn [set_root file_count].
    apply (generate_tree_no_file Hreg) in Hg; [ exact Hg | reflexivity ].
Qed.
End DirectoriesOnly.

(** ** Errors *)

Section Errors.
Variable fs : FileSystem.
Variable args : Namespace.t.

Lemma expand_denied (self : Tree) (node : TreeNode) :
  listdir fs (state node) = Fails PermissionError ->
  expand fs args self node = Done (self, node).
Proof. intros H. unfold expand, iterdir. rewrite H. reflexivity. Qed.

Lemma expand_raises (self : Tree) (node : TreeNode) (e : exn) :
  listdir fs (state node) = Fails e -> e <> PermissionError ->
  expand fs args self node = Raised e.
Proof.
  intros H He. unfold expand, iterdir. rewrite H.
  destruct e; try reflexivity. contradiction.
Qed.

(** The loop of [expand] is left at the entry for which [os.stat] raises,
    with the state and the node as they are then. *)
Lemma expand_loop_left (self : Tree) (node : TreeNode) child rest e :
  should_include fs args child = Error e \/
  (should_include fs args child = Ok true /\
   increment_counts fs self child = Error e) ->
  expand_loop fs args self node (child :: rest) = (Some e, (self, node)).
Proof.
  intros [H | [H1 H2]]; cbn [expand_loop].
  - rewrite H. reflexivity.
  - rewrite H1, H2. reflexivity.
Qed.

Lemma expand_loop_recovered (self : Tree) (node : TreeNode) names after :
  listdir fs (state node) = Entries names ->
  expand_loop fs args self node (map (joinpath (state node)) names)
    = (Some PermissionError, after) ->
  expand fs args self node = Done after.
Proof.
  intros Hl Hloop. unfold expand, iterdir. rewrite Hl, Hloop. reflexivity.
Qed.

Lemma expand_loop_raises (self : Tree) (node : TreeNode) names after e :
  listdir fs (state node) = Entries names ->
  expand_loop fs args self node (map (joinpath (state node)) names)
    = (Some e, after) ->
  e <> PermissionError ->
  expand fs args self node = Raised e.
Proof.
  intros Hl Hloop He. unfold expand, iterdir. rewrite Hl, Hloop.
  destruct e; try reflexivity. contradiction.
Qed.

(** The ways in which [expand] returns. *)
Lemma expand_returns (self : Tree) (node : TreeNode) self1 node1 :
  expand fs args self node = Done (self1, node1) ->
  (listdir fs (state node) = Fails PermissionError /\
   self1 = self /\ node1 = node) \/
  exists names r,
    listdir fs (state node) = Entries names /\
    expand_loop fs args self node (map (joinpath (state node)) names)
      = (r, (self1, node1)) /\
    (r = None \/ r = Some PermissionError).
Proof.
  unfold expand, iterdir.
  destruct (listdir fs (state node)) as [names | e].
  - destruct (expand_loop fs args self node _) as [[e | ] [s n]] eqn:Hloop.
    + destruct e; intros H; inversion H; subst.
      right. exists names, (Some PermissionError). auto.
    + intros H; inversion H; subst.
      right. exists names, None. auto.
  - destruct e; intros H; inversion H; subst. left. auto.
Qed.

(** An exception that ends the loop is one that [os.stat] has raised for an
    entry of the listing. *)
Lemma expand_loop_exception (entries : list Path) :
  forall self node e after,
    expand_loop fs args self node entries = (Some e, after) ->
    exists q, In q entries /\ stat fs q = StatFails e.
Proof.
  induction entries as [ | child rest IH ]; intros self node e after;
    [ discriminate | ].
  cbn [expand_loop].
  destruct (should_include fs args child) as [[ | ] | e'] eqn:Hinc.
  - destruct (increment_counts fs self child) as [self1 | e'] eqn:Hcnt.
    + destruct (full self1); [ discriminate | ].
      intros H. destruct (IH _ _ _ _ H) as (q & Hq & Hs).
      exists q. split; [ right; exact Hq | exact Hs ].
    + intros H. inversion H; subst. exists child.
      split; [ left; reflexivity | ].
      eapply increment_counts_Error. exact Hcnt.
  - intros H. destruct (IH _ _ _ _ H) as (q & Hq & Hs).
    exists q. split; [ right; exact Hq | exact Hs ].
  - intros H. inversion H; subst. exists child.
    split; [ left; reflexivity | ].
    eapply should_include_Error. exact Hinc.
Qed.

Lemma generate_tree_denied fuel self node level :
  listdir fs (state node) = Fails PermissionError -> fresh node ->
  generate_tree fs args (S fuel) self node level = Done (self, node).
Proof.
  intros Hl Hf. cbn [generate_tree].
  destruct (full self || at_max_depth args level); [ reflexivity | ].
  rewrite (expand_denied self node Hl). cbn [bind].
  rewrite Hf. cbn [for_children bind].
  rewrite <- Hf. rewrite TreeNode_eta. reflexivity.
Qed.

Lemma subcall_raises (c c' : call) (e : exn) :
  subcall fs args c c' -> run fs args c' = Raised e ->
  run fs args c = Raised e.
Proof.
  intros Hsub Hrun.
  destruct Hsub as [fuel self node level self1 node1 before child after
                      self' before' Hstop Hexp Hcs Hbefore Hdir].
  unfold run in *. cbn [call_fuel call_self call_node call_level] in *.
  rewrite generate_tree_running by exact Hstop.
  rewrite Hexp. cbn [bind]. rewrite Hcs, for_children_app, Hbefore.
  cbn [bind for_children]. unfold descend at 1.
  rewrite Hdir. cbn [lift bind]. rewrite Hrun. reflexivity.
Qed.

Lemma nested_call_raises (c c' : call) (e : exn) :
  clos_refl_trans call (subcall fs args) c c' ->
  run fs args c' = Raised e -> run fs args c = Raised e.
Proof.
  intros Hsub. apply clos_rt_rt1n in Hsub.
  induction Hsub as [ | c c1 c2 Hstep _ IH ]; intros Hrun; [ exact Hrun | ].
  apply (subcall_raises c c1 e Hstep). apply IH. exact Hrun.
Qed.

(** An exception of [is_dir] in the loop over the children, which no [try]
    covers, leaves the call. *)
Lemma descend_raises fuel self node level self1 node1 before child after
    self' before' e :
  full self || at_max_depth args level = false ->
  expand fs args self node = Done (self1, node1) ->
  children node1 = before ++ child :: after ->
  for_children (descend fs (generate_tree fs args fuel) level) self1 before
    = Done (self', before') ->
  is_dir fs (state child) = Error e ->
  generate_tree fs args (S fuel) self node level = Raised e.
Proof.
  intros Hstop Hexp Hcs Hbefore Hdir.
  rewrite generate_tree_running by exact Hstop.
  rewrite Hexp. cbn [bind]. rewrite Hcs, for_children_app, Hbefore.
  cbn [bind for_children]. unfold descend at 1.
  rewrite Hdir. reflexivity.
Qed.

(** The children that [expand] gives a node without children have none, and
    [os.stat] answers for them. *)
Lemma expand_statable (self : Tree) (node : TreeNode) self1 node1 :
  fresh node ->
  expand fs args self node = Done (self1, node1) ->
  Forall (fun c => fresh c /\ exists b, is_dir fs (state c) = Ok b)
    (children node1).
Proof.
  intros Hf. rewrite (expand_fresh fs args self node Hf). intros Hrun.
  destruct (expand_Done fs args self node self1 node1 Hrun)
    as [(_ & _ & ->) | (names & r & Hl & Hloop & _)].
  - rewrite Hf. constructor.
  - destruct (expand_loop_append_shape fs args _ _ _ _ _ _ Hloop)
      as (kept & _ & _ & -> & Hk & _).
    rewrite Hf. cbn [children app].
    apply Forall_forall. intros c Hc. apply in_map_iff in Hc.
    destruct Hc as (q & <- & Hq). rewrite Forall_forall in Hk.
    split; [ reflexivity | apply (Hk q Hq) ].
Qed.

Lemma generate_tree_never_denied :
  forall fuel self node level,
    fresh node ->
    generate_tree fs args fuel self node level <> Raised PermissionError.
Proof.
  induction fuel as [ | fuel IH ]; intros self node level Hf;
    [ discriminate | ].
  cbn [generate_tree].
  destruct (full self || at_max_depth args level); [ discriminate | ].
  destruct (expand fs args self node) as [[s1 n1] | e | ] eqn:Hexp;
    cbn [bind]; [ | | discriminate ].
  - pose proof (expand_statable self node s1 n1 Hf Hexp) as Hcs.
    assert (Hloop : forall cs s,
               Forall (fun c => fresh c /\
                                exists b, is_dir fs (state c) = Ok b) cs ->
               for_children (descend fs (generate_tree fs args fuel) level)
                 s cs <> Raised PermissionError).
    { induction cs as [ | c rest IHcs ]; intros s Hall; [ discriminate | ].
      inversion Hall as [ | ? ? [Hfc [b Hb]] Hrest ]; subst.
      cbn [for_children].
      destruct (descend fs (generate_tree fs args fuel) level s c)
        as [[s' c'] | e | ] eqn:Hd; cbn [bind]; [ | | discriminate ].
      - specialize (IHcs s' Hrest).
        destruct (for_children _ s' rest) as [[s2 r] | e | ]; cbn [bind];
          [ discriminate | exact IHcs | discriminate ].
      - unfold descend in Hd. rewrite Hb in Hd. cbn [lift bind] in Hd.
        destruct b; [ | discriminate ].
        intros H. inversion H; subst. exact (IH _ _ _ Hfc Hd). }
    specialize (Hloop (children n1) s1 Hcs).
    destruct (for_children _ s1 (children n1)) as [[s2 r] | e | ];
      cbn [bind]; [ discriminate | | discriminate ].
    intros H. apply Hloop. inversion H. reflexivity.
  - unfold expand, iterdir in Hexp.
    destruct (listdir fs (state node)) as [names | e'].
    + destruct (expand_loop fs args self node _) as [[e' | ] after];
        [ destruct e'; inversion Hexp; discriminate | discriminate ].
    + destruct e'; inversion Hexp; discriminate.
Qed.
End Errors.

(** The claim C8 fails at a directory that may be read but not searched: its
    listing succeeds, [os.stat] raises [PermissionError] for its second
    entry inside the [try] of [expand], and that error is recovered too.
    The directory keeps the child and the count of the entry before, the
    entry after it is never looked at, and the build goes on. *)
Lemma denied_stat_is_recovered :
  iterdir vault_fs vault_path
    = Done (map (joinpath vault_path) ["one"; "sealed"; "two"]) /\
  is_dir vault_fs (vault_path ++ ["sealed"]) = Error PermissionError /\
  included vault_fs default_args (vault_path ++ ["two"]) = true /\
  expand vault_fs default_args (initial base_path) (TreeNode_new vault_path)
    = Done (mkTree (TreeNode_new base_path) 0 1 false,
            mkTreeNode vault_path [TreeNode_new (vault_path ++ ["one"])]) /\
  post_init vault_fs default_args base_path
    = Done (mkTree
              (mkTreeNode base_path
                 [ mkTreeNode (base_path ++ ["a"])
                     [TreeNode_new (base_path ++ ["a"; "x"])];
                   mkTreeNode vault_path
                     [TreeNode_new (vault_path ++ ["one"])];
                   mkTreeNode (base_path ++ ["z"])
                     [TreeNode_new (base_path ++ ["z"; "y"])] ])
              3 3 false).
Proof.
  split; [ vm_compute; reflexivity | ].
  split; [ vm_compute; reflexivity | ].
  split; [ vm_compute; reflexivity | ].
  split; vm_compute; reflexivity.
Qed.

(** C8, amended.  [expand] recovers from [PermissionError], and from nothing
    else, wherever it is raised under its [try]: by the listing, and then the
    state and the node come back unchanged, so that the directory gets no
    child and nothing is counted; or by [os.stat] for an entry in the loop:
    an exception of [os.stat] leaves the loop at that entry, with the
    children and the counts of the entries before it, and for
    [PermissionError] that is what [expand] returns.  These are the only
    ways in which [expand] returns beside the loop running to its end or to
    the limit.  In both cases the loop over the siblings goes on with the
    next one.
    Any other exception of the listing or of the loop leaves [expand]; an
    exception of [is_dir] in the loop over the children, which is under no
    [try], leaves [generate_tree]; and an exception that leaves any call of
    [generate_tree], however deeply nested, leaves every call around it, up
    to the build.  The build never ends with a [PermissionError], and it
    never runs out of fuel. *)
Theorem permission_errors_under_try_are_recovered (fs : FileSystem)
    (args : Namespace.t) :
  (forall self node,
      listdir fs (state node) = Fails PermissionError ->
      expand fs args self node = Done (self, node)) /\
  (forall self node child rest e,
      should_include fs args child = Error e \/
      (should_include fs args child = Ok true /\
       increment_counts fs self child = Error e) ->
      expand_loop fs args self node (child :: rest)
        = (Some e, (self, node))) /\
  (forall self node names after,
      listdir fs (state node) = Entries names ->
      expand_loop fs args self node (map (joinpath (state node)) names)
        = (Some PermissionError, after) ->
      expand fs args self node = Done after) /\
  (forall self node self1 node1,
      expand fs args self node = Done (self1, node1) ->
      (listdir fs (state node) = Fails PermissionError /\
       self1 = self /\ node1 = node) \/
      exists names r,
        listdir fs (state node) = Entries names /\
        expand_loop fs args self node (map (joinpath (state node)) names)
          = (r, (self1, node1)) /\
        (r = None \/
         r = Some PermissionError /\
         exists nm,
           In nm names /\
           stat fs (joinpath (state node) nm) = StatFails PermissionError)) /\
  (forall fuel level self child rest b,
      listdir fs (state child) = Fails PermissionError -> fresh child ->
      is_dir fs (state child) = Ok b ->
      for_children (descend fs (generate_tree fs args (S fuel)) level)
        self (child :: rest)
      = ('(self', rest') <-
           for_children (descend fs (generate_tree fs args (S fuel)) level)
             self rest ;;
         Done (self', child :: rest'))) /\
  (forall self node e,
      e <> PermissionError ->
      (listdir fs (state node) = Fails e ->
       expand fs args self node = Raised e) /\
      (forall names after,
         listdir fs (state node) = Entries names ->
         expand_loop fs args self node (map (joinpath (state node)) names)
           = (Some e, after) ->
         expand fs args self node = Raised e)) /\
  (forall fuel self node level self1 node1 before child after self' before' e,
      full self || at_max_depth args level = false ->
      expand fs args self node = Done (self1, node1) ->
      children node1 = before ++ child :: after ->
      for_children (descend fs (generate_tree fs args fuel) level) self1 before
        = Done (self', before') ->
      is_dir fs (state child) = Error e ->
      generate_tree fs args (S fuel) self node level = Raised e) /\
  (forall c c' e,
      clos_refl_trans call (subcall fs args) c c' ->
      run fs args c' = Raised e -> run fs args c = Raised e) /\
  (forall directory,
      post_init fs args directory <> Raised PermissionError /\
      post_init fs args directory <> Timeout).
Proof.
  split; [ apply expand_denied | ].
  split; [ apply expand_loop_left | ].
  split; [ apply expand_loop_recovered | ].
  split.
  { intros self node self1 node1 Hexp.
    destruct (expand_returns fs args self node self1 node1 Hexp)
      as [H | (names & r & Hl & Hloop & Hr)]; [ left; exact H | right ].
    exists names, r. split; [ exact Hl | ]. split; [ exact Hloop | ].
    destruct Hr as [-> | ->]; [ left; reflexivity | right ].
    split; [ reflexivity | ].
    destruct (expand_loop_exception fs args _ _ _ _ _ Hloop)
      as (q & Hq & Hs).
    apply in_map_iff in Hq. destruct Hq as (nm & <- & Hnm).
    exists nm. auto. }
  split.
  { intros fuel level self child rest b Hl Hf Hb.
    cbn [for_children]. unfold descend at 1. rewrite Hb. cbn [lift bind].
    rewrite (generate_tree_denied fs args fuel self child (level + 1) Hl Hf).
    destruct b; reflexivity. }
  split.
  { intros self node e He.
    split; [ intros Hl; apply expand_raises; assumption | ].
    intros names after Hl Hloop.
    apply (expand_loop_raises fs args self node names after e Hl Hloop He). }
  split; [ apply descend_raises | ].
  split; [ apply nested_call_raises | ].
  intros directory. split; [ | apply post_init_terminates ].
  unfold post_init.
  pose proof (generate_tree_never_denied fs args recursion_bound
                (initial directory) (TreeNode_new directory) 0
                (fresh_new directory)) as H.
  destruct (generate_tree fs args recursion_bound (initial directory)
              (TreeNode_new directory) 0) as [[s r] | e | ];
    cbn [bind]; [ discriminate | | discriminate ].
  intros H'. apply H. inversion H'. reflexivity.
Qed.

Lemma permission_errors_under_try_are_recovered_witness :
  (let fs := mount base_path locked_structure in
   let locked := TreeNode_new (base_path ++ ["locked"]) in
   expand fs default_args (initial base_path) locked
     = Done (initial base_path, locked) /\
   exists t,
     post_init fs default_args base_path = Done t /\
     map state (children (root t))
       = map (joinpath base_path) ["a"; "locked"; "z"] /\
     map len (children (root t)) = [1; 0; 1] /\
     dir_count t = 3 /\ file_count t = 2) /\
  (let fs := mount base_path faulty_structure in
   let faulty := TreeNode_new (base_path ++ ["faulty"]) in
   expand fs default_args (initial base_path) faulty = Raised OSError /\
   post_init fs default_args base_path = Raised OSError) /\
  (let fs := mount base_path stale_structure in
   expand fs default_args (initial base_path) (TreeNode_new vault_path)
     = Raised OSError /\
   post_init fs default_args base_path = Raised OSError) /\
  expand vault_fs default_args (initial base_path) (TreeNode_new vault_path)
    = Done (mkTree (TreeNode_new base_path) 0 1 false,
            mkTreeNode vault_path [TreeNode_new (vault_path ++ ["one"])]).
Proof.
  split; [ | split; [ | split ] ].
  - intros fs locked.
    destruct (permission_errors_under_try_are_recovered fs default_args)
      as (Hdenied & _).
    split; [ apply Hdenied; vm_compute; reflexivity | ].
    eexists.
    split; [ vm_compute; reflexivity | ].
    split; [ vm_compute; reflexivity | ].
    split; [ vm_compute; reflexivity | ].
    split; vm_compute; reflexivity.
  - intros fs faulty.
    destruct (permission_errors_under_try_are_recovered fs default_args)
      as (_ & _ & _ & _ & _ & Hraise & _).
    split; [ apply (Hraise _ _ OSError);
             [ discriminate | vm_compute; reflexivity ] | ].
    vm_compute. reflexivity.
  - intros fs. split; vm_compute; reflexivity.
  - destruct (permission_errors_under_try_are_recovered vault_fs
                default_args) as (_ & _ & Hrecovered & _).
    apply (Hrecovered _ _ ["one"; "sealed"; "two"]);
      vm_compute; reflexivity.
Defined.

(** ** The text renderer *)

Lemma append_assoc (s1 s2 s3 : string) :
  ((s1 ++ s2) ++ s3 = s1 ++ (s2 ++ s3))%string.
Proof.
  induction s1 as [ | c s1 IH ]; cbn; [ reflexivity | rewrite IH; reflexivity ].
Qed.

Lemma append_nil_r (s : string) : (s ++ "")%string = s.
Proof.
  induction s as [ | c s IH ]; cbn; [ reflexivity | rewrite IH; reflexivity ].
Qed.

Lemma relative_to_app (base q : Path) : relative_to (base ++ q) base = Done q.
Proof.
  induction base as [ | b base IH ]; cbn; [ destruct q; reflexivity | ].
  rewrite String.eqb_refl. exact IH.
Qed.

Lemma built_under fs args (n : TreeNode) :
  built fs args n ->
  forall j m, occurs n j m -> exists q, state m = state n ++ q.
Proof.
  intros Hb j m Ho. revert Hb.
  induction Ho as [ n | n c j m Hin _ IH ]; intros Hb.
  - exists []. symmetry. apply app_nil_r.
  - inversion Hb as [st cs Hmade Hsub]; subst. cbn [children state] in *.
    rewrite Forall_forall in Hmade, Hsub.
    destruct (Hmade _ Hin) as [[nm Hnm] _].
    destruct (IH (Hsub _ Hin)) as [q Hq].
    exists (nm :: q). rewrite Hq, Hnm. unfold joinpath.
    rewrite <- app_assoc. reflexivity.
Qed.

Lemma built_statable fs args (n : TreeNode) :
  built fs args n ->
  forall j m, occurs n j m -> 1 <= j -> exists b, is_dir fs (state m) = Ok b.
Proof.
  intros Hb j m Ho. revert Hb.
  induction Ho as [ n | n c j m Hin Ho IH ]; intros Hb Hj; [ lia | ].
  inversion Hb as [st cs Hmade Hsub]; subst. cbn [children] in Hin.
  rewrite Forall_forall in Hmade, Hsub.
  destruct (Z.eq_dec j 0) as [-> | Hpos].
  - inversion Ho as [ | ? ? j' ? _ Ho' ]; subst.
    + apply (Hmade _ Hin).
    + pose proof (occurs_depth_nonneg _ _ _ Ho'). lia.
  - apply IH; [ apply Hsub; exact Hin | ].
    pose proof (occurs_depth_nonneg _ _ _ Ho). lia.
Qed.

Section RenderFacts.
Local Open Scope string_scope.
Variable fs : FileSystem.
Variable args : Namespace.t.
Variable directory : Path.
Variable colorama : Colorama.
Variable sep : string.

Lemma draw_unfold (branch : string) (last : bool) (n : TreeNode) :
  draw fs args directory colorama sep branch last n
  = branch ++ (if last then "└── " else "├── ")
      ++ label fs args directory colorama sep n ++ nl
      ++ draw_siblings fs args directory colorama sep
           (branch ++ (if last then "    " else "│   ")) (children n).
Proof.
  destruct n as [st cs]. cbn [draw children].
  do 4 f_equal.
  induction cs as [ | c cs IH ]; [ reflexivity | ].
  cbn [draw_siblings]. rewrite IH. reflexivity.
Qed.

(** The last of several siblings gets the corner, the others the tee; below
    the last the prefix grows by four spaces, below the others by the bar
    and three spaces. *)
Lemma draw_siblings_last (branch : string) (c : TreeNode) :
  draw_siblings fs args directory colorama sep branch [c]
  = branch ++ "└── " ++ label fs args directory colorama sep c ++ nl
      ++ draw_siblings fs args directory colorama sep (branch ++ "    ")
           (children c).
Proof.
  cbn [draw_siblings]. rewrite draw_unfold, !append_assoc.
  do 4 f_equal. induction (draw_siblings _ _ _ _ _ _ _) as [ | ch s IH ];
    cbn; [ reflexivity | rewrite IH; reflexivity ].
Qed.

Lemma draw_siblings_inner (branch : string) (c c' : TreeNode)
    (rest : list TreeNode) :
  draw_siblings fs args directory colorama sep branch (c :: c' :: rest)
  = branch ++ "├── " ++ label fs args directory colorama sep c ++ nl
      ++ draw_siblings fs args directory colorama sep (branch ++ "│   ")
           (children c)
      ++ draw_siblings fs args directory colorama sep branch (c' :: rest).
Proof.
  remember (c' :: rest) as l eqn:Hl.
  cbn [draw_siblings]. rewrite Hl at 1. rewrite draw_unfold, !append_assoc.
  reflexivity.
Qed.

Lemma display_name_under (n : TreeNode) :
  Namespace.f args = false \/ (exists q, state n = (directory ++ q)%list) ->
  display_name args directory sep n = Done (shown args directory sep n).
Proof.
  unfold display_name, shown.
  destruct (Namespace.f args); cbn [negb]; [ | reflexivity ].
  intros [H | [q Hq]]; [ discriminate | ].
  rewrite Hq, relative_to_app. cbn [bind].
  rewrite skipn_app, skipn_all, Nat.sub_diag. reflexivity.
Qed.

Lemma format_loop_draw (format : TreeNode -> string -> outcome string)
    (n : Z) (branch : string) :
  forall rest i,
    i = n - Z.of_nat (length rest) ->
    Forall (fun c =>
              display_name args directory sep c
                = Done (shown args directory sep c) /\
              (exists b, is_file fs (state c) = Ok b) /\
              forall b,
                format c b
                = Done (draw_siblings fs args directory colorama sep b
                          (children c))) rest ->
    format_loop fs args directory colorama sep format n branch i rest
    = Done (draw_siblings fs args directory colorama sep branch rest).
Proof.
  induction rest as [ | c rest IH ]; intros i Hi Hall; [ reflexivity | ].
  inversion Hall as [ | ? ? (Hname & [isf Hisf] & Hsub) Hrest ]; subst.
  cbn [format_loop]. rewrite Hname. cbn [bind].
  rewrite Hisf. cbn [lift bind].
  rewrite Hsub. cbn [bind].
  rewrite (IH (n - Z.of_nat (length (c :: rest)) + 1)%Z)
    by (cbn [length]; lia || assumption).
  cbn [bind draw_siblings]. rewrite draw_unfold.
  assert (Hlast : (n - Z.of_nat (length (c :: rest)) =? n - 1)%Z
                  = match rest with [] => true | _ :: _ => false end).
  { destruct rest; cbn [length];
      [ apply Z.eqb_eq | apply Z.eqb_neq ]; lia. }
  rewrite Hlast. unfold label, shown. rewrite Hisf. cbn [holds].
  rewrite !append_assoc. reflexivity.
Qed.

Lemma format_tree_draw (n : TreeNode) :
  (forall j m, occurs n j m -> 1 <= j ->
               display_name args directory sep m
                 = Done (shown args directory sep m) /\
               exists b, is_file fs (state m) = Ok b) ->
  forall branch,
    format_tree fs args directory colorama sep n branch
    = Done (draw_siblings fs args directory colorama sep branch (children n)).
Proof.
  induction n as [st cs IH] using TreeNode_induction.
  intros Hnames branch. cbn [format_tree children].
  apply format_loop_draw; [ lia | ].
  rewrite Forall_forall in *. intros c Hin.
  assert (Hc : occurs (mkTreeNode st cs) 1 c)
    by (eapply occurs_child; [ exact Hin | apply occurs_here ]).
  split; [ apply (Hnames 1 c Hc); lia | ].
  split; [ apply (Hnames 1 c Hc); lia | ].
  - apply IH; [ exact Hin | ].
    intros j m Ho Hj. apply (Hnames (j + 1) m); [ | lia ].
    eapply occurs_child; [ exact Hin | ].
    replace (j + 1 - 1) with j by lia. exact Ho.
Qed.
End RenderFacts.

(** C5.  The text of a scan result is the layout of the specification: the
    name of the root, then one line per node below it in the stored order,
    each with the corner connector when the node is the last of its siblings
    and the tee otherwise, the lines below a node prefixed with four spaces
    more when it is the last and with the bar and three spaces otherwise;
    then an empty line and the counts, and the notice of the limit exactly
    when [full] holds.  The colour codes stand where [label] and [layout]
    put them and vanish when they are empty. *)
Theorem str_is_layout (fs : FileSystem) (args : Namespace.t)
    (directory : Path) (colorama : Colorama) (sep : string) (t : Tree) :
  post_init fs args directory = Done t ->
  str fs args directory colorama sep t
    = Done (layout fs args directory colorama sep t) /\
  name (state (root t)) = name directory /\
  (forall branch c,
      draw_siblings fs args directory colorama sep branch [c]
      = (branch ++ "└── " ++ label fs args directory colorama sep c ++ nl
           ++ draw_siblings fs args directory colorama sep
                (branch ++ "    ") (children c))%string) /\
  (forall branch c c' rest,
      draw_siblings fs args directory colorama sep branch (c :: c' :: rest)
      = (branch ++ "├── " ++ label fs args directory colorama sep c ++ nl
           ++ draw_siblings fs args directory colorama sep
                (branch ++ "│   ") (children c)
           ++ draw_siblings fs args directory colorama sep branch
                (c' :: rest))%string).
Proof.
  intros Hrun.
  destruct (post_init_sound fs args directory t Hrun) as (_ & Hst & Hb & _).
  split; [ | split; [ rewrite Hst; reflexivity | split ] ].
  - unfold str, layout.
    rewrite (format_tree_draw fs args directory colorama sep (root t)).
    + cbn [bind].
      destruct (full t); rewrite !append_assoc, ?append_nil_r; reflexivity.
    + intros j m Ho Hj. split.
      * apply display_name_under. right.
        destruct (built_under fs args (root t) Hb j m Ho) as [q Hq].
        exists q. rewrite Hq, Hst. reflexivity.
      * destruct (built_statable fs args (root t) Hb j m Ho Hj) as [b Hd].
        apply (is_dir_is_file fs _ b Hd).
  - apply draw_siblings_last.
  - apply draw_siblings_inner.
Qed.

Lemma str_is_layout_witness :
  exists t,
    post_init temp_fs default_args base_path = Done t /\
    str temp_fs default_args base_path plain "/" t
    = Done "base
├── folder1
│   ├── file1.txt
│   └── file2.txt
└── folder2
    └── subfolder1
        └── file3.txt

Directories: 3, Files: 3".
Proof.
  assert (Hrun : exists t,
             post_init temp_fs default_args base_path = Done t /\
             layout temp_fs default_args base_path plain "/" t
             = "base
├── folder1
│   ├── file1.txt
│   └── file2.txt
└── folder2
    └── subfolder1
        └── file3.txt

Directories: 3, Files: 3").
  { eexists. split; [ vm_compute; reflexivity | ]. vm_compute; reflexivity. }
  destruct Hrun as (t & Hrun & Hlayout).
  exists t. split; [ exact Hrun | ].
  destruct (str_is_layout temp_fs default_args base_path plain "/" t Hrun)
    as [Hstr _].
  rewrite Hstr, Hlayout. reflexivity.
Defined.

(** ** The XML renderer *)

Section XmlFacts.
Local Open Scope string_scope.
Variable fs : FileSystem.

Lemma build_xml_element_unfold (n : TreeNode) :
  build_xml_element fs n
  = (is_folder <- lift (is_dir fs (state n)) ;;
     subs <- build_each fs (children n) ;;
     Done (mkElement "node"
             [("name",
               if is_folder then name (state n) ++ "/" else name (state n))]
             subs)).
Proof.
  destruct n as [st cs]. reflexivity.
Qed.

Lemma element_unfold (n : TreeNode) :
  element fs n
  = mkElement "node" [("name", xml_name fs n)]
      (map (element fs) (children n)).
Proof. destruct n; reflexivity. Qed.

Lemma build_each_Done (cs : list TreeNode) :
  Forall (fun c => build_xml_element fs c = Done (element fs c)) cs ->
  build_each fs cs = Done (map (element fs) cs).
Proof.
  induction 1 as [ | c cs Hc _ IH ]; [ reflexivity | ].
  cbn [build_each map]. rewrite Hc. cbn [bind]. rewrite IH. reflexivity.
Qed.

(** When [is_dir] answers for every node, [build_xml_element] returns the
    element of the node. *)
Lemma build_xml_element_Done (n : TreeNode) :
  (forall j m, occurs n j m -> exists b, is_dir fs (state m) = Ok b) ->
  build_xml_element fs n = Done (element fs n).
Proof.
  induction n as [st cs IH] using TreeNode_induction.
  intros Hstat. rewrite build_xml_element_unfold.
  destruct (Hstat 0 _ (occurs_here _)) as [b Hb].
  cbn [state children] in *. rewrite Hb. cbn [lift bind].
  rewrite build_each_Done.
  - cbn [bind element]. unfold xml_name. cbn [state]. rewrite Hb.
    reflexivity.
  - rewrite Forall_forall in *. intros c Hin. apply IH; [ exact Hin | ].
    intros j m Ho. apply (Hstat (j + 1) m).
    eapply occurs_below; [ exact Hin | exact Ho ].
Qed.

Lemma build_xml_element_Error (n : TreeNode) (e : exn) :
  is_dir fs (state n) = Error e -> build_xml_element fs n = Raised e.
Proof.
  intros H. rewrite build_xml_element_unfold, H. reflexivity.
Qed.

Lemma subelement_element (pos : list nat) :
  forall n,
    subelement (element fs n) pos
    = option_map (element fs) (subnode n pos).
Proof.
  induction pos as [ | k pos IH ]; intros n; [ reflexivity | ].
  cbn [subelement subnode]. rewrite element_unfold.
  cbn [subelements]. rewrite nth_error_map.
  destruct (nth_error (children n) k) as [c | ]; cbn [option_map];
    [ apply IH | reflexivity ].
Qed.

Lemma element_count_element (n : TreeNode) :
  element_count (element fs n) = 1 + descendants n.
Proof.
  induction n as [st cs IH] using TreeNode_induction.
  cbn [element element_count descendants]. f_equal.
  induction IH as [ | c cs Hc _ IHcs ]; [ reflexivity | ].
  cbn [map]. rewrite !sumZ_cons, Hc, IHcs. reflexivity.
Qed.

Lemma all_values_element (ok : string -> bool) (n : TreeNode) :
  all_values ok (element fs n) = all_names fs ok n.
Proof.
  induction n as [st cs IH] using TreeNode_induction.
  cbn [element all_values all_names forallb snd]. rewrite andb_true_r.
  f_equal.
  induction IH as [ | c cs Hc _ IHcs ]; [ reflexivity | ].
  cbn [map]. rewrite Hc, IHcs. reflexivity.
Qed.

Lemma writexml_element (n : TreeNode) :
  forall indent,
    writexml indent "  " nl (element fs n) = xml_lines fs indent n.
Proof.
  induction n as [st cs IH] using TreeNode_induction.
  intros indent.
  assert (Heach : forall ind,
             (fix each (l : list Element) {struct l} : string :=
                match l with
                | [] => ""
                | c :: l' => writexml ind "  " nl c ++ each l'
                end) (map (element fs) cs)
             = (fix each (l : list TreeNode) {struct l} : string :=
                  match l with
                  | [] => ""
                  | c :: l' => xml_lines fs ind c ++ each l'
                  end) cs).
  { intros ind. induction IH as [ | c cs Hc _ IHcs ]; [ reflexivity | ].
    cbn [map]. rewrite Hc, IHcs. reflexivity. }
  destruct cs as [ | c cs ].
  - cbn [element writexml xml_lines map String.concat fst snd].
    rewrite !append_assoc. reflexivity.
  - cbn [element writexml xml_lines String.concat fst snd].
    rewrite Heach. cbn [map String.concat fst snd].
    rewrite !append_assoc. reflexivity.
Qed.

Lemma toprettyxml_element (n : TreeNode) :
  toprettyxml "  " (element fs n) = document fs n.
Proof. unfold toprettyxml, document. rewrite writexml_element. reflexivity. Qed.

(** A value without markup characters is written as it is. *)
Lemma write_data_plain (s : string) :
  forallb (fun c => negb (markup c)) (list_ascii_of_string s) = true ->
  write_data s = s.
Proof.
  induction s as [ | c s IH ]; [ reflexivity | ].
  cbn [list_ascii_of_string forallb write_data].
  intros H. apply andb_true_iff in H. destruct H as [Hc Hs].
  rewrite (IH Hs). unfold markup in Hc. unfold write_char.
  apply negb_true_iff in Hc.
  apply orb_false_elim in Hc. destruct Hc as [Hc H4].
  apply orb_false_elim in Hc. destruct Hc as [Hc H3].
  apply orb_false_elim in Hc. destruct Hc as [H1 H2].
  rewrite H1, H2, H3, H4. reflexivity.
Qed.
End XmlFacts.




(** * Part III: further properties of the program *)

(** ** The concrete file systems *)

Lemma Path_eq_true (p q : Path) : Path_eq p q = true <-> p = q.
Proof.
  revert q. induction p as [ | a p IH ]; intros [ | b q]; cbn;
    try (split; (discriminate || reflexivity)).
  rewrite andb_true_iff, String.eqb_eq, IH.
  split; [ intros [-> ->]; reflexivity | intros H; inversion H; auto ].
Qed.

Lemma strip_snoc (base p q : Path) (nm : string) :
  strip base p = Some q -> strip base (p ++ [nm]) = Some (q ++ [nm]).
Proof.
  revert p. induction base as [ | b base IH ]; intros p; cbn.
  - intros H. inversion H. reflexivity.
  - destruct p as [ | c p ]; [ discriminate | ]. cbn.
    destruct (String.eqb b c); [ apply IH | discriminate ].
Qed.

Lemma resolve_snoc (q : Path) (nm : string) :
  forall e entries,
    resolve e q = Some (Dir entries) ->
    resolve e (q ++ [nm]) = assoc entries nm.
Proof.
  induction q as [ | n q IH ]; intros e entries; cbn.
  - intros H. inversion H. destruct (assoc entries nm); reflexivity.
  - destruct e; try discriminate.
    destruct (assoc entries0 n); [ apply IH | discriminate ].
Qed.

Lemma assoc_listed (l : list (string * fsentry)) (nm : string) :
  In nm (map fst l) -> exists e, assoc l nm = Some e /\ In e (map snd l).
Proof.
  induction l as [ | [m e] l IH ]; cbn; [ intros [] | ].
  destruct (String.eqb_spec m nm) as [-> | Hne].
  - intros _. exists e. auto.
  - intros [H | H]; [ contradiction | ].
    destruct (IH H) as (e' & He & Hin). exists e'. auto.
Qed.

Lemma no_special_Dir (entries : list (string * fsentry)) (e : fsentry) :
  no_special (Dir entries) = true -> In e (map snd entries) ->
  no_special e = true.
Proof.
  cbn. induction entries as [ | [m e'] l IH ]; cbn; [ intros _ [] | ].
  rewrite andb_true_iff. intros [He Hl] [<- | Hin]; auto.
Qed.

Lemma resolve_no_special (q : Path) :
  forall e e',
    no_special e = true -> resolve e q = Some e' -> no_special e' = true.
Proof.
  induction q as [ | n q IH ]; intros e e' He; cbn.
  - intros H. inversion H. subst. exact He.
  - destruct e; try discriminate.
    destruct (assoc entries n) as [e1 | ] eqn:Ha; [ | discriminate ].
    apply IH. apply (no_special_Dir entries); [ exact He | ].
    clear - Ha. induction entries as [ | [m e2] l IHl ]; [ discriminate | ].
    cbn in Ha. destruct (String.eqb m n).
    + inversion Ha. left. reflexivity.
    + right. apply IHl. exact Ha.
Qed.

(** A mounted tree without special entries is a regular file system. *)
Lemma mount_regular (base : Path) (e : fsentry) :
  no_special e = true -> regular (mount base e).
Proof.
  intros He p names nm Hl Hin.
  unfold mount, lookup in *. cbn [listdir stat] in *.
  destruct (strip base p) as [q | ] eqn:Hs; [ | discriminate ].
  destruct (resolve e q) as [[ | | entries | | x | x] | ] eqn:Hr;
    try discriminate.
  inversion Hl; subst names.
  unfold joinpath. rewrite (strip_snoc base p q nm Hs).
  rewrite (resolve_snoc q nm e entries Hr).
  destruct (assoc_listed entries nm Hin) as (e1 & Ha & Hin1).
  rewrite Ha.
  pose proof (resolve_no_special q e (Dir entries) He Hr) as Hd.
  pose proof (no_special_Dir entries e1 Hd Hin1) as H1.
  destruct e1; auto; discriminate.
Qed.

(** In a mounted tree without such entries [os.stat] raises for no path. *)
Lemma mount_stat_allowed (base : Path) (e : fsentry) (p : Path) (x : exn) :
  no_special e = true -> stat (mount base e) p <> StatFails x.
Proof.
  intros He. unfold mount, lookup. cbn [stat].
  destruct (strip base p) as [q | ]; [ | discriminate ].
  destruct (resolve e q) as [e' | ] eqn:Hr; [ | discriminate ].
  pose proof (resolve_no_special q e e' He Hr) as H.
  destruct e'; discriminate.
Qed.

(** ** Filters *)

Lemma directories_only_on_regular_witness :
  exists t,
    post_init temp_fs directories_only base_path = Done t /\
    dir_count t = 3 /\
    file_count t = 0 /\
    forall j m, occurs (root t) j m -> 1 <= j ->
                is_file temp_fs (state m) = Ok false.
Proof.
  assert (Hrun : exists t,
             post_init temp_fs directories_only base_path = Done t /\
             dir_count t = 3).
  { eexists. split; [ vm_compute; reflexivity | ]. vm_compute; reflexivity. }
  destruct Hrun as (t & Hrun & Hd).
  destruct (directories_only_on_regular temp_fs directories_only eq_refl
              base_path t Hrun) as [Hfile Hcount].
  exists t. split; [ exact Hrun | ]. split; [ exact Hd | ].
  split; [ | exact Hfile ].
  apply Hcount. apply mount_regular. reflexivity.
Defined.

(** Without [-a] no node below the root has a name that starts with a dot or
    with two underscores; with [-a] the name plays no part in the filter, and
    every entry that [-d] does not exclude is included: without [-d] every
    entry, and with [-d] every entry for which [is_file] answers [False]. *)
Theorem hidden_entries_filter (fs : FileSystem) (args : Namespace.t) :
  (Namespace.a args = false ->
   forall directory t j m,
     post_init fs args directory = Done t ->
     occurs (root t) j m -> 1 <= j ->
     startswith (name (state m)) ["."; "__"] = false) /\
  (Namespace.a args = true ->
   forall child,
     should_include fs args child
     = if Namespace.d args
       then match is_file fs child with
            | Ok b => Ok (negb b)
            | Error e => Error e
            end
       else Ok true).
Proof.
  split.
  - intros Ha directory t j m Hrun Ho Hj.
    destruct (post_init_sound fs args directory t Hrun) as (_ & _ & Hb & _).
    clear Hrun. revert Hb Hj.
    induction Ho as [ n | n c j m Hin Ho IH ]; intros Hb Hj; [ lia | ].
    inversion Hb as [st cs Hmade Hsub]; subst. cbn [children] in Hin.
    rewrite Forall_forall in Hmade, Hsub.
    destruct (Z.eq_dec j 0) as [-> | Hpos].
    + inversion Ho as [ | ? ? j' ? _ Ho' ]; subst.
      * destruct (Hmade _ Hin) as (_ & Hinc & _).
        unfold should_include in Hinc. rewrite Ha in Hinc.
        cbn [negb andb] in Hinc.
        destruct (startswith (name (state m)) ["."; "__"]);
          [ discriminate | reflexivity ].
      * pose proof (occurs_depth_nonneg _ _ _ Ho'). lia.
    + apply IH; [ apply Hsub; exact Hin | ].
      pose proof (occurs_depth_nonneg _ _ _ Ho). lia.
  - intros Ha child. unfold should_include. rewrite Ha. cbn [negb andb].
    destruct (Namespace.d args); [ | reflexivity ].
    destruct (is_file fs child) as [[ | ] | e]; reflexivity.
Qed.

Lemma hidden_entries_filter_witness :
  (exists t,
      post_init temp_fs default_args base_path = Done t /\
      file_count t = 3 /\
      forall j m, occurs (root t) j m -> 1 <= j ->
                  startswith (name (state m)) ["."; "__"] = false) /\
  (exists t,
      post_init temp_fs (Namespace.mk true false false None false) base_path
        = Done t /\
      file_count t = 4 /\
      should_include temp_fs (Namespace.mk true false false None false)
        (base_path ++ ["folder1"; ".hidden"]) = Ok true).
Proof.
  split.
  - destruct (hidden_entries_filter temp_fs default_args) as [Hhidden _].
    assert (Hrun : exists t,
               post_init temp_fs default_args base_path = Done t /\
               file_count t = 3).
    { eexists. split; [ vm_compute; reflexivity | ]. vm_compute; reflexivity. }
    destruct Hrun as (t & Hrun & Hf).
    exists t. split; [ exact Hrun | ]. split; [ exact Hf | ].
    intros j m. apply (Hhidden eq_refl base_path t j m Hrun).
  - destruct (hidden_entries_filter temp_fs
                (Namespace.mk true false false None false)) as [_ Hall].
    eexists. split; [ vm_compute; reflexivity | ].
    split; [ vm_compute; reflexivity | ].
    rewrite (Hall eq_refl). reflexivity.
Defined.

(** ** [TreeNode] *)

Lemma TreeNode_eq_nil (st st' : Path) :
  TreeNode_eq (mkTreeNode st []) (mkTreeNode st' []) = Path_eq st st'.
Proof. cbn [TreeNode_eq]. apply andb_true_r. Qed.

Lemma TreeNode_eq_cons (st st' : Path) (c c' : TreeNode)
    (r r' : list TreeNode) :
  TreeNode_eq (mkTreeNode st (c :: r)) (mkTreeNode st' (c' :: r'))
  = TreeNode_eq c c' && TreeNode_eq (mkTreeNode st r) (mkTreeNode st' r').
Proof.
  cbn [TreeNode_eq].
  destruct (Path_eq st st'), (TreeNode_eq c c'); reflexivity.
Qed.

Lemma TreeNode_eq_length (st st' : Path) (c : TreeNode) (r : list TreeNode) :
  TreeNode_eq (mkTreeNode st (c :: r)) (mkTreeNode st' []) = false /\
  TreeNode_eq (mkTreeNode st []) (mkTreeNode st' (c :: r)) = false.
Proof. cbn [TreeNode_eq]. split; apply andb_false_r. Qed.

(** [TreeNode.__eq__] decides equality of trees: two nodes are equal exactly
    when their paths are equal and their children are equal one by one, in
    order and in number. *)
Theorem TreeNode_eq_decides (n other : TreeNode) :
  TreeNode_eq n other = true <-> n = other.
Proof.
  revert other.
  induction n as [st cs IH] using TreeNode_induction.
  intros [st' cs'].
  revert cs'. induction IH as [ | c r Hc _ IHr ]; intros [ | c' r' ].
  - rewrite TreeNode_eq_nil, Path_eq_true.
    split; [ intros ->; reflexivity | intros H; inversion H; reflexivity ].
  - rewrite (proj2 (TreeNode_eq_length st st' c' r')).
    split; [ discriminate | intros H; inversion H ].
  - rewrite (proj1 (TreeNode_eq_length st st' c r)).
    split; [ discriminate | intros H; inversion H ].
  - rewrite TreeNode_eq_cons, andb_true_iff, Hc, IHr.
    split.
    + intros [-> H]. inversion H. reflexivity.
    + intros H. inversion H. auto.
Qed.

(** ** The root and the recursion *)

(** When the scan root cannot be listed and the depth limit is not 0: a
    [PermissionError] gives the bare root with both counters at zero; any
    other error of the listing (the root is a regular file, or is gone) ends
    the build with that error. *)
Theorem unlistable_root (fs : FileSystem) (args : Namespace.t)
    (directory : Path) :
  at_max_depth args 0 = false ->
  (listdir fs directory = Fails PermissionError ->
   post_init fs args directory = Done (initial directory)) /\
  (forall e,
      listdir fs directory = Fails e -> e <> PermissionError ->
      post_init fs args directory = Raised e).
Proof.
  intros Hmax. split.
  - intros Hl. unfold post_init, recursion_bound.
    rewrite (generate_tree_denied fs args _ (initial directory)
               (TreeNode_new directory) 0 Hl (fresh_new directory)).
    reflexivity.
  - intros e Hl He. unfold post_init, recursion_bound.
    rewrite generate_tree_running by (cbn [initial full orb]; exact Hmax).
    rewrite (expand_raises fs args (initial directory)
               (TreeNode_new directory) e Hl He).
    reflexivity.
Qed.

Lemma unlistable_root_witness :
  at_max_depth default_args 0 = false /\
  post_init temp_fs default_args (base_path ++ ["folder1"; "file1.txt"])
    = Raised NotADirectoryError /\
  post_init temp_fs default_args (base_path ++ ["missing"])
    = Raised FileNotFoundError /\
  post_init (mount base_path locked_structure) default_args
    (base_path ++ ["locked"])
    = Done (initial (base_path ++ ["locked"])).
Proof.
  split; [ reflexivity | ].
  split; [ | split ].
  - apply (unlistable_root temp_fs default_args _ eq_refl);
      [ reflexivity | discriminate ].
  - apply (unlistable_root temp_fs default_args _ eq_refl);
      [ reflexivity | discriminate ].
  - apply (unlistable_root (mount base_path locked_structure) default_args
             _ eq_refl).
    reflexivity.
Defined.

Lemma for_children_more body1 body2 :
  (forall s c, body1 s c <> Timeout -> body2 s c = body1 s c) ->
  forall cs s,
    for_children body1 s cs <> Timeout ->
    for_children body2 s cs = for_children body1 s cs.
Proof.
  intros Hbody.
  induction cs as [ | c rest IH ]; intros s Hrun; [ reflexivity | ].
  cbn [for_children] in *.
  destruct (body1 s c) as [[s1 c1] | e | ] eqn:Hb; cbn [bind] in *.
  - rewrite Hbody by (rewrite Hb; discriminate). rewrite Hb. cbn [bind].
    rewrite IH; [ reflexivity | ].
    intros H. apply Hrun. rewrite H. reflexivity.
  - rewrite Hbody by (rewrite Hb; discriminate). rewrite Hb. reflexivity.
  - contradiction.
Qed.

Lemma generate_tree_more_fuel fs args :
  forall fuel self node level,
    generate_tree fs args fuel self node level <> Timeout ->
    generate_tree fs args (S fuel) self node level
    = generate_tree fs args fuel self node level.
Proof.
  induction fuel as [ | fuel IH ]; intros self node level Hrun;
    [ contradiction | ].
  destruct (full self || at_max_depth args level) eqn:Hstop.
  - rewrite !generate_tree_stopped by exact Hstop. reflexivity.
  - rewrite (generate_tree_running fs args (S fuel)) by exact Hstop.
    rewrite (generate_tree_running fs args fuel) in * by exact Hstop.
    destruct (expand fs args self node) as [[s1 n1] | e | ]; cbn [bind] in *;
      try reflexivity.
    rewrite (for_children_more
               (descend fs (generate_tree fs args fuel) level)
               (descend fs (generate_tree fs args (S fuel)) level)).
    + reflexivity.
    + intros s c Hb. unfold descend in *.
      destruct (is_dir fs (state c)) as [[ | ] | e]; cbn [lift bind] in *;
        [ | reflexivity | reflexivity ].
      apply IH. exact Hb.
    + intros H. apply Hrun. rewrite H. reflexivity.
Qed.

(** On every file system, also one with directory cycles, the recursion of
    [generate_tree] from the root is at most 201 calls deep: with that bound
    the outermost call returns or raises, and with any greater bound (such
    as the recursion limit of the interpreter) it does the same. *)
Theorem recursion_depth_bounded (fs : FileSystem) (args : Namespace.t)
    (directory : Path) (fuel : nat) :
  (recursion_bound <= fuel)%nat ->
  generate_tree fs args fuel (initial directory) (TreeNode_new directory) 0
  = generate_tree fs args recursion_bound (initial directory)
      (TreeNode_new directory) 0 /\
  generate_tree fs args fuel (initial directory) (TreeNode_new directory) 0
  <> Timeout.
Proof.
  assert (Hbase : generate_tree fs args recursion_bound (initial directory)
                    (TreeNode_new directory) 0 <> Timeout).
  { apply generate_tree_terminates;
      [ apply consistent_initial | apply fresh_new | ].
    unfold recursion_bound, total. cbn. lia. }
  induction 1 as [ | fuel Hle [IHeq IHrun] ]; [ split; auto | ].
  split.
  - rewrite generate_tree_more_fuel by exact IHrun. exact IHeq.
  - rewrite generate_tree_more_fuel by exact IHrun. exact IHrun.
Qed.

Lemma recursion_depth_bounded_witness :
  (recursion_bound <= 1000)%nat /\
  generate_tree cyclic_fs default_args 1000 (initial base_path)
    (TreeNode_new base_path) 0
  = generate_tree cyclic_fs default_args recursion_bound (initial base_path)
      (TreeNode_new base_path) 0 /\
  exists t,
    post_init cyclic_fs default_args base_path = Done t /\
    full t = true /\ dir_count t = 200 /\ descendants (root t) = 199.
Proof.
  assert (Hle : (recursion_bound <= 1000)%nat)
    by (unfold recursion_bound; lia).
  destruct (recursion_depth_bounded cyclic_fs default_args base_path 1000 Hle)
    as [Heq _].
  split; [ exact Hle | ]. split; [ exact Heq | ].
  eexists.
  split; [ vm_compute; reflexivity | ].
  split; [ vm_compute; reflexivity | ].
  split; vm_compute; reflexivity.
Defined.

(** ** Paths and labels *)

Lemma built_under_depth fs args (n : TreeNode) :
  built fs args n ->
  forall j m,
    occurs n j m ->
    exists q, state m = state n ++ q /\ Z.of_nat (length q) = j.
Proof.
  intros Hb j m Ho. revert Hb.
  induction Ho as [ n | n c j m Hin _ IH ]; intros Hb.
  - exists []. split; [ symmetry; apply app_nil_r | reflexivity ].
  - inversion Hb as [st cs Hmade Hsub]; subst. cbn [children state] in *.
    rewrite Forall_forall in Hmade, Hsub.
    destruct (Hmade _ Hin) as ([nm Hnm] & _).
    destruct (IH (Hsub _ Hin)) as (q & Hq & Hlen).
    exists (nm :: q). split.
    + rewrite Hq, Hnm. unfold joinpath. rewrite <- app_assoc. reflexivity.
    + cbn [length]. lia.
Qed.

Lemma last_app_cons (p : Path) (x : string) (q : Path) :
  last (p ++ x :: q) "" = last (x :: q) "".
Proof.
  induction p as [ | y p IH ]; [ reflexivity | ].
  cbn [app]. rewrite <- IH.
  destruct (p ++ x :: q) eqn:H; [ destruct p; discriminate | reflexivity ].
Qed.

(** The path of a node [j] levels below the root is the scan root followed
    by [j] names, one per level; the text that [__format_tree] shows for the node
    is the last of them, and with [-f] all of them joined by the separator;
    [relative_to] does not raise. *)
Theorem labels_are_paths_below_root (fs : FileSystem) (args : Namespace.t)
    (directory : Path) (sep : string) (t : Tree) (j : Z) (m : TreeNode) :
  post_init fs args directory = Done t ->
  occurs (root t) j m ->
  exists q,
    state m = directory ++ q /\
    Z.of_nat (length q) = j /\
    (1 <= j ->
     display_name args directory sep m
     = Done (if Namespace.f args then String.concat sep q else last q "")).
Proof.
  intros Hrun Ho.
  destruct (post_init_sound fs args directory t Hrun) as (_ & Hst & Hb & _).
  destruct (built_under_depth fs args (root t) Hb j m Ho) as (q & Hq & Hlen).
  rewrite Hst in Hq. exists q. split; [ exact Hq | ]. split; [ exact Hlen | ].
  intros Hj. destruct q as [ | x q ]; [ cbn [length] in Hlen; lia | ].
  rewrite display_name_under by (right; exists (x :: q); exact Hq).
  f_equal. unfold shown. rewrite Hq.
  destruct (Namespace.f args).
  - rewrite skipn_app, skipn_all, Nat.sub_diag. reflexivity.
  - unfold name. apply last_app_cons.
Qed.

Lemma labels_are_paths_below_root_witness :
  let args := Namespace.mk true false true None false in
  exists t m,
    post_init temp_fs args base_path = Done t /\
    occurs (root t) 3 m /\
    state m = base_path ++ ["folder2"; "subfolder1"; "file3.txt"] /\
    display_name args base_path "/" m = Done "folder2/subfolder1/file3.txt".
Proof.
  intros args.
  assert (Hrun : exists t,
             post_init temp_fs args base_path = Done t /\
             subnode (root t) [1; 0; 0]%nat
             = Some (TreeNode_new
                       (base_path ++ ["folder2"; "subfolder1"; "file3.txt"]))).
  { eexists. split; [ vm_compute; reflexivity | ]. vm_compute; reflexivity. }
  destruct Hrun as (t & Hrun & Hsub).
  set (m := TreeNode_new
              (base_path ++ ["folder2"; "subfolder1"; "file3.txt"])) in *.
  assert (Ho : occurs (root t) 3 m).
  { cbn [subnode] in Hsub.
    destruct (nth_error (children (root t)) 1) as [c1 | ] eqn:H1;
      [ | discriminate ].
    destruct (nth_error (children c1) 0) as [c2 | ] eqn:H2;
      [ | discriminate ].
    destruct (nth_error (children c2) 0) as [c3 | ] eqn:H3;
      [ | discriminate ].
    inversion Hsub; subst c3.
    eapply occurs_child; [ eapply nth_error_In; exact H1 | ].
    eapply occurs_child; [ eapply nth_error_In; exact H2 | ].
    eapply occurs_child; [ eapply nth_error_In; exact H3 | ].
    apply occurs_here. }
  exists t, m. split; [ exact Hrun | ]. split; [ exact Ho | ].
  split; [ reflexivity | ].
  destruct (labels_are_paths_below_root temp_fs args base_path "/" t 3 m
              Hrun Ho) as (q & Hq & _ & Hshown).
  rewrite (Hshown ltac:(lia)).
  apply app_inv_head in Hq. subst q. reflexivity.
Defined.

(** ** Counts by kind *)

Section KindFacts.
Variable fs : FileSystem.
Variable args : Namespace.t.

Lemma increment_counts_kinds (self : Tree) (child : Path) (self' : Tree) :
  increment_counts fs self child = Ok self' ->
  dir_count self' = dir_count self + Z.b2z (holds (is_dir fs child)) /\
  file_count self'
    = file_count self + Z.b2z (negb (holds (is_dir fs child))).
Proof.
  unfold increment_counts. destruct self as [r dc fc fl].
  destruct (is_dir fs child) as [[ | ] | e]; [ | | discriminate ];
    intros H; inversion H; subst self'; clear H;
    unfold set_dir_count, set_file_count;
    cbn [dir_count file_count negb Z.b2z holds];
    destruct (_ >=? 200); cbn; lia.
Qed.

Lemma directories_unfold (n : TreeNode) :
  directories fs n
  = sumZ (map (fun c => Z.b2z (holds (is_dir fs (state c)))) (children n))
    + sumZ (map (directories fs) (children n)).
Proof.
  destruct n as [st cs]. cbn [directories children].
  induction cs as [ | c cs IH ]; [ reflexivity | ].
  cbn [map]. rewrite !sumZ_cons, IH. lia.
Qed.

Lemma others_unfold (n : TreeNode) :
  others fs n
  = sumZ (map (fun c => Z.b2z (negb (holds (is_dir fs (state c))))) (children n))
    + sumZ (map (others fs) (children n)).
Proof.
  destruct n as [st cs]. cbn [others children].
  induction cs as [ | c cs IH ]; [ reflexivity | ].
  cbn [map]. rewrite !sumZ_cons, IH. lia.
Qed.

Lemma descendants_by_kind (n : TreeNode) :
  descendants n = directories fs n + others fs n.
Proof.
  induction n as [st cs IH] using TreeNode_induction.
  cbn [descendants directories others].
  induction IH as [ | c cs Hc _ IHcs ]; [ reflexivity | ].
  cbn [map]. rewrite !sumZ_cons, Hc, IHcs.
  destruct (holds (is_dir fs (state c))); cbn [negb Z.b2z]; lia.
Qed.

Lemma kinds_of_states (cs cs' : list TreeNode) :
  map state cs' = map state cs ->
  sumZ (map (fun c => Z.b2z (holds (is_dir fs (state c)))) cs')
    = sumZ (map (fun c => Z.b2z (holds (is_dir fs (state c)))) cs) /\
  sumZ (map (fun c => Z.b2z (negb (holds (is_dir fs (state c))))) cs')
    = sumZ (map (fun c => Z.b2z (negb (holds (is_dir fs (state c))))) cs).
Proof.
  intros H.
  rewrite <- !(map_map state (fun p => Z.b2z (holds (is_dir fs p)))).
  rewrite <- !(map_map state (fun p => Z.b2z (negb (holds (is_dir fs p))))).
  rewrite H. auto.
Qed.

Lemma expand_loop_append_kinds (entries : list Path) :
  forall self node r self' node',
    expand_loop_append fs args self node entries = (r, (self', node')) ->
    dir_count self
      - sumZ (map (fun c => Z.b2z (holds (is_dir fs (state c))))
                (children node))
    <= dir_count self'
       - sumZ (map (fun c => Z.b2z (holds (is_dir fs (state c))))
                 (children node')) /\
    file_count self
      - sumZ (map (fun c => Z.b2z (negb (holds (is_dir fs (state c)))))
                (children node))
    <= file_count self'
       - sumZ (map (fun c => Z.b2z (negb (holds (is_dir fs (state c)))))
                 (children node')).
Proof.
  induction entries as [ | child rest IH ]; intros self node r self' node'.
  - cbn [expand_loop_append]. intros H. inversion H; subst. lia.
  - cbn [expand_loop_append].
    destruct (should_include fs args child) as [[ | ] | e];
      [ | apply IH | intros H; inversion H; subst; lia ].
    destruct (increment_counts fs self child) as [self1 | e] eqn:Hcnt;
      [ | intros H; inversion H; subst; lia ].
    destruct (increment_counts_kinds self child self1 Hcnt) as [Hd Hf].
    assert (Hb : 0 <= Z.b2z (holds (is_dir fs child))
                 /\ 0 <= Z.b2z (negb (holds (is_dir fs child))))
      by (destruct (holds (is_dir fs child)); cbn; lia).
    destruct (full self1).
    + intros H. inversion H; subst. lia.
    + intros H. apply IH in H.
      cbn [add_child_append children] in H.
      rewrite !map_app, !sumZ_app in H. cbn [map TreeNode_new state] in H.
      rewrite !sumZ_cons in H. cbn [sumZ fold_right] in H. lia.
Qed.

Lemma threaded_kinds s cs s' cs' :
  threaded (fun s c s' c' =>
              state c' = state c /\
              dir_count s <= dir_count s' - directories fs c' /\
              file_count s <= file_count s' - others fs c')
    s cs s' cs' ->
  map state cs' = map state cs /\
  dir_count s <= dir_count s' - sumZ (map (directories fs) cs') /\
  file_count s <= file_count s' - sumZ (map (others fs) cs').
Proof.
  induction 1 as [ s | s c s1 c1 rest s2 rest1 (Hst & Hd & Hf) _ IH ].
  - cbn. repeat split; lia.
  - destruct IH as (IHst & IHd & IHf).
    cbn [map]. rewrite !sumZ_cons.
    repeat split; try congruence; lia.
Qed.

Lemma generate_tree_kinds :
  forall fuel self node level self' node',
    consistent self -> fresh node ->
    generate_tree fs args fuel self node level = Done (self', node') ->
    dir_count self <= dir_count self' - directories fs node' /\
    file_count self <= file_count self' - others fs node'.
Proof.
  induction fuel as [ | fuel IH ]; intros self node level self' node' Hc Hf Hrun;
    [ discriminate | ].
  destruct (full self || at_max_depth args level) eqn:Hstop.
  - rewrite generate_tree_stopped in Hrun by exact Hstop.
    inversion Hrun; subst.
    rewrite directories_unfold, others_unfold, Hf. cbn. lia.
  - rewrite generate_tree_running in Hrun by exact Hstop.
    apply orb_false_elim in Hstop. destruct Hstop as [Hnf _].
    apply bind_Done in Hrun. destruct Hrun as ([s1 n1] & Hexp & Hrun).
    apply bind_Done in Hrun. destruct Hrun as ([s2 cs] & Hloop & Hrun).
    inversion Hrun; subst self' node'. clear Hrun.
    destruct (expand_children fs args self node s1 n1 Hf Hexp)
      as (_ & Hfresh1 & _).
    destruct (expand_sound fs args self node s1 n1 Hc Hnf Hf Hexp)
      as (Hc1 & _).
    assert (Hk1 : dir_count self
                  <= dir_count s1
                     - sumZ (map (fun c => Z.b2z (holds (is_dir fs (state c))))
                               (children n1)) /\
                  file_count self
                  <= file_count s1
                     - sumZ (map (fun c => Z.b2z (negb (holds (is_dir fs (state c)))))
                               (children n1))).
    { rewrite (expand_fresh fs args self node Hf) in Hexp.
      destruct (expand_Done fs args self node s1 n1 Hexp)
        as [(_ & -> & ->) | (names & r & _ & Hrun & _)];
        [ rewrite Hf; cbn; lia | ].
      pose proof (expand_loop_append_kinds _ _ _ _ _ _ Hrun) as H.
      rewrite Hf in H. cbn [map] in H.
      cbn [sumZ fold_right] in H. lia. }
    assert (Hbody : forall s c s' c',
               consistent s -> fresh c ->
               descend fs (generate_tree fs args fuel) level s c
                 = Done (s', c') ->
               consistent s' /\
               (state c' = state c /\
                dir_count s <= dir_count s' - directories fs c' /\
                file_count s <= file_count s' - others fs c')).
    { intros s c s' c' Hs Hfc Hb. unfold descend in Hb.
      destruct (is_dir fs (state c)) as [[ | ] | e]; cbn [lift bind] in Hb.
      - pose proof (generate_tree_sound _ _ _ _ _ _ _ _ Hs Hfc Hb)
          as (Hs' & Hst & _).
        split; [ exact Hs' | ]. split; [ exact Hst | ].
        eapply IH; eassumption.
      - inversion Hb; subst. split; [ exact Hs | ].
        rewrite directories_unfold, others_unfold, Hfc. cbn.
        repeat split; lia.
      - discriminate. }
    destruct (for_children_rule _ consistent fresh _ Hbody
                _ _ _ _ Hc1 Hfresh1 Hloop) as [_ Hth].
    apply threaded_kinds in Hth. destruct Hth as (Hst & Hd2 & Hf2).
    destruct (kinds_of_states _ _ Hst) as [Hkd Hkf].
    rewrite directories_unfold, others_unfold. cbn [children].
    rewrite Hkd, Hkf. lia.
Qed.
End KindFacts.

(** The two counters say what the tree holds: [dir_count] is at least the
    number of directories below the root and [file_count] at least the number
    of other nodes; when the build was not truncated they are those numbers,
    and when it was, the two counters together exceed the nodes by the one
    entry that was counted last. *)
Theorem counts_by_kind (fs : FileSystem) (args : Namespace.t)
    (directory : Path) (t : Tree) :
  post_init fs args directory = Done t ->
  directories fs (root t) <= dir_count t /\
  others fs (root t) <= file_count t /\
  (full t = false ->
   dir_count t = directories fs (root t) /\
   file_count t = others fs (root t)) /\
  (full t = true ->
   dir_count t + file_count t
   = directories fs (root t) + others fs (root t) + 1).
Proof.
  intros Hrun.
  destruct (post_init_sound fs args directory t Hrun) as (_ & _ & _ & Hdesc).
  rewrite (descendants_by_kind fs) in Hdesc. unfold total in Hdesc.
  apply post_init_Done in Hrun. destruct Hrun as (self1 & root1 & Hg & ->).
  cbn [set_root root dir_count file_count full] in *.
  destruct (generate_tree_kinds fs args _ _ _ _ _ _
              (consistent_initial directory) (fresh_new directory) Hg)
    as [Hd Hf].
  cbn [initial dir_count file_count] in Hd, Hf.
  split; [ lia | ]. split; [ lia | ].
  split; intros Hfull; rewrite Hfull in Hdesc; cbn [Z.b2z] in Hdesc; lia.
Qed.

Lemma counts_by_kind_witness :
  (exists t,
      post_init pipe_fs default_args base_path = Done t /\
      full t = false /\
      dir_count t = 1 /\ directories pipe_fs (root t) = 1 /\
      file_count t = 2 /\ others pipe_fs (root t) = 2) /\
  (exists t,
      post_init crowded_fs default_args base_path = Done t /\
      full t = true /\
      dir_count t + file_count t
      = directories crowded_fs (root t) + others crowded_fs (root t) + 1).
Proof.
  split.
  - assert (Hrun : exists t,
               post_init pipe_fs default_args base_path = Done t /\
               full t = false /\ dir_count t = 1 /\ file_count t = 2).
    { eexists.
      split; [ vm_compute; reflexivity | ].
      split; [ vm_compute; reflexivity | ].
      split; vm_compute; reflexivity. }
    destruct Hrun as (t & Hrun & Hfull & Hd & Hf).
    destruct (counts_by_kind pipe_fs default_args base_path t Hrun)
      as (_ & _ & Heq & _).
    destruct (Heq Hfull) as [Hd' Hf'].
    exists t. split; [ exact Hrun | ]. split; [ exact Hfull | ].
    split; [ exact Hd | ]. split; [ congruence | ].
    split; [ exact Hf | congruence ].
  - assert (Hrun : exists t,
               post_init crowded_fs default_args base_path = Done t /\
               full t = true).
    { eexists. split; [ vm_compute; reflexivity | ]. vm_compute; reflexivity. }
    destruct Hrun as (t & Hrun & Hfull).
    destruct (counts_by_kind crowded_fs default_args base_path t Hrun)
      as (_ & _ & _ & Heq).
    exists t. split; [ exact Hrun | ]. split; [ exact Hfull | ].
    exact (Heq Hfull).
Defined.

(** ** The tree mirrors the file system *)

Section MirrorFacts.
Variable fs : FileSystem.
Variable args : Namespace.t.
Hypothesis stat_allowed : forall p, stat fs p <> StatFails PermissionError.

Lemma fresh_same_state (n n' : TreeNode) :
  fresh n -> fresh n' -> state n = state n' -> n = n'.
Proof.
  destruct n as [st cs], n' as [st' cs']. unfold fresh. cbn.
  intros -> -> ->. reflexivity.
Qed.

Lemma threaded_mirrors level s cs s' cs' :
  threaded (fun s c s' c' =>
              advance fs args s c s' c' /\
              (full s' = false ->
               (holds (is_dir fs (state c)) = true -> mirrors fs args level c') /\
               (holds (is_dir fs (state c)) = false -> fresh c')))
    s cs s' cs' ->
  consistent s -> full s' = false ->
  consistent s' /\ total s <= total s' /\
  map state cs' = map state cs /\
  Forall (fun c' => holds (is_dir fs (state c')) = true -> mirrors fs args level c')
    cs' /\
  Forall (fun c' => holds (is_dir fs (state c')) = false -> fresh c') cs'.
Proof.
  induction 1 as [ s | s c s1 c1 rest s2 rest1 [Hadv Hm] _ IH ];
    intros Hs Hnf.
  - split; [ exact Hs | ]. split; [ lia | ].
    split; [ reflexivity | ]. split; constructor.
  - destruct Hadv as (Hs1 & Hst & _ & Hd & Hf & _).
    destruct (IH Hs1 Hnf) as (Hs2 & Hle & Hstates & Hdirs & Hfiles).
    pose proof (total_mono _ _ Hd Hf) as Hle1.
    assert (Hnf1 : full s1 = false).
    { destruct (full s1) eqn:Hf1; [ | reflexivity ].
      rewrite (full_mono s1 s2 Hs1 Hs2 Hle Hf1) in Hnf. discriminate. }
    destruct (Hm Hnf1) as [Hm1 Hm2].
    split; [ exact Hs2 | ]. split; [ lia | ].
    split; [ cbn [map]; congruence | ].
    split; constructor; try assumption; rewrite Hst; assumption.
Qed.

Lemma generate_tree_mirrors :
  forall fuel self node level self' node',
    consistent self -> fresh node ->
    generate_tree fs args fuel self node level = Done (self', node') ->
    full self' = false ->
    mirrors fs args level node'.
Proof.
  induction fuel as [ | fuel IH ];
    intros self node level self' node' Hc Hf Hrun Hnf'; [ discriminate | ].
  destruct (full self || at_max_depth args level) eqn:Hstop.
  - rewrite generate_tree_stopped in Hrun by exact Hstop.
    inversion Hrun; subst. rewrite Hnf' in Hstop. cbn [orb] in Hstop.
    apply mirrors_limit; assumption.
  - rewrite generate_tree_running in Hrun by exact Hstop.
    apply orb_false_elim in Hstop. destruct Hstop as [Hnf Hmax].
    apply bind_Done in Hrun. destruct Hrun as ([s1 n1] & Hexp & Hrun).
    apply bind_Done in Hrun. destruct Hrun as ([s2 cs] & Hloop & Hrun).
    inversion Hrun; subst self' node'. clear Hrun.
    destruct (expand_children fs args self node s1 n1 Hf Hexp)
      as (Hst1 & Hfresh1 & Hshape).
    destruct (expand_sound fs args self node s1 n1 Hc Hnf Hf Hexp)
      as (Hc1 & _).
    assert (Hbody : forall s c s' c',
               consistent s -> fresh c ->
               descend fs (generate_tree fs args fuel) level s c
                 = Done (s', c') ->
               consistent s' /\
               (advance fs args s c s' c' /\
                (full s' = false ->
                 (holds (is_dir fs (state c)) = true ->
                  mirrors fs args (level + 1) c') /\
                 (holds (is_dir fs (state c)) = false -> fresh c')))).
    { intros s c s' c' Hs Hfc Hb. unfold descend in Hb.
      destruct (is_dir fs (state c)) as [[ | ] | e] eqn:Hdir;
        cbn [lift bind holds] in *; [ | | discriminate ].
      - pose proof (generate_tree_sound _ _ _ _ _ _ _ _ Hs Hfc Hb) as Hadv.
        split; [ apply Hadv | ]. split; [ exact Hadv | ].
        intros Hnfs. split; [ | discriminate ].
        intros _. eapply IH; eassumption.
      - inversion Hb; subst. split; [ exact Hs | ].
        split; [ apply advance_refl; assumption | ].
        intros _. split; [ discriminate | intros _; exact Hfc ]. }
    destruct (for_children_rule _ consistent fresh _ Hbody
                _ _ _ _ Hc1 Hfresh1 Hloop) as [Hc2 Hth].
    destruct (threaded_mirrors _ _ _ _ _ Hth Hc1 Hnf')
      as (_ & Hle & Hstates & Hdirs & Hfiles).
    assert (Hnf1 : full s1 = false).
    { destruct (full s1) eqn:Hf1; [ | reflexivity ].
      rewrite (full_mono s1 s2 Hc1 Hc2 Hle Hf1) in Hnf'. discriminate. }
    destruct Hshape as [[Hl Hnil] | (names & dropped & Hl & Hfl & Hd)].
    + rewrite Hnil in Hstates. destruct cs; [ | discriminate ].
      apply mirrors_denied;
        [ exact Hmax | cbn [state]; rewrite Hst1; exact Hl | reflexivity ].
    + rewrite (Hd Hnf1 (fun nm _ => stat_allowed _)), app_nil_r in Hfl.
      rewrite Hst1.
      apply (mirrors_listed fs args level (state node) cs names);
        [ exact Hmax | exact Hl | congruence | exact Hdirs | exact Hfiles ].
Qed.

Lemma same_states_nil (cs : list TreeNode) :
  map state cs = [] -> cs = [].
Proof. destruct cs; [ reflexivity | discriminate ]. Qed.

(** A tree that mirrors is determined by the path of its top node. *)
Lemma mirrors_unique (n : TreeNode) :
  forall level n',
    mirrors fs args level n -> mirrors fs args level n' ->
    state n = state n' -> n = n'.
Proof.
  induction n as [st cs IH] using TreeNode_induction.
  intros level n' Hm Hm' Hst.
  inversion Hm as [ ? ? Hmax Hf | ? ? Hmax Hl Hf
                  | ? ? ? names Hmax Hl Hcs Hdirs Hfiles ]; subst;
    inversion Hm' as [ ? ? Hmax' Hf' | ? ? Hmax' Hl' Hf'
                     | ? st' cs' names' Hmax' Hl' Hcs' Hdirs' Hfiles' ]; subst;
    cbn [state] in *; subst;
    try congruence;
    try (apply fresh_same_state; [ assumption | assumption | reflexivity ]).
  rewrite Hl in Hl'. inversion Hl'; subst names'. rewrite <- Hcs in Hcs'.
  f_equal. clear Hm Hm' Hl Hl' Hcs.
  revert cs' Hcs' Hdirs' Hfiles'.
  induction IH as [ | c r Hc _ IHr ]; intros [ | c' r' ] Hcs' Hdirs' Hfiles';
    try discriminate; [ reflexivity | ].
  cbn [map] in Hcs'. injection Hcs' as Hc' Hr'.
  inversion Hdirs as [ | ? ? Hd Hdr ]; subst.
  inversion Hfiles as [ | ? ? Hfl Hfr ]; subst.
  inversion Hdirs' as [ | ? ? Hd' Hdr' ]; subst.
  inversion Hfiles' as [ | ? ? Hfl' Hfr' ]; subst.
  f_equal.
  - destruct (holds (is_dir fs (state c))) eqn:Hdir.
    + apply (Hc (level + 1)); [ apply Hd; reflexivity | | congruence ].
      apply Hd'. rewrite Hc'. exact Hdir.
    + apply fresh_same_state; [ apply Hfl; reflexivity | | congruence ].
      apply Hfl'. rewrite Hc'. exact Hdir.
  - apply IHr; assumption.
Qed.
End MirrorFacts.

(** On a file system where [os.stat] is denied for no path, a build that
    was not truncated returns the filtered file system down to the depth
    limit, and nothing else: the tree mirrors the file system from the root
    at level 0, and it is the only tree at that path that does. *)
Theorem tree_mirrors_file_system (fs : FileSystem) (args : Namespace.t)
    (directory : Path) (t : Tree) :
  (forall p, stat fs p <> StatFails PermissionError) ->
  post_init fs args directory = Done t ->
  full t = false ->
  mirrors fs args 0 (root t) /\
  state (root t) = directory /\
  (forall n, mirrors fs args 0 n -> state n = directory -> n = root t).
Proof.
  intros Hstat Hrun Hnf.
  destruct (post_init_sound fs args directory t Hrun) as (_ & Hst & _).
  apply post_init_Done in Hrun. destruct Hrun as (self1 & root1 & Hg & ->).
  cbn [set_root root full] in *.
  pose proof (generate_tree_mirrors fs args Hstat _ _ _ _ _ _
                (consistent_initial directory) (fresh_new directory) Hg Hnf)
    as Hm.
  split; [ exact Hm | ]. split; [ exact Hst | ].
  intros n Hn Hstn. apply (mirrors_unique fs args n 0 root1 Hn Hm).
  congruence.
Qed.

Lemma tree_mirrors_file_system_witness :
  (forall p, stat temp_fs p <> StatFails PermissionError) /\
  exists t,
    post_init temp_fs (with_max_depth (Some 2)) base_path = Done t /\
    full t = false /\
    mirrors temp_fs (with_max_depth (Some 2)) 0 (root t) /\
    map state (children (root t))
    = filter (included temp_fs (with_max_depth (Some 2)))
        (map (joinpath base_path) ["folder1"; "folder2"]).
Proof.
  assert (Hrun : exists t,
             post_init temp_fs (with_max_depth (Some 2)) base_path = Done t /\
             full t = false /\
             map state (children (root t))
             = filter (included temp_fs (with_max_depth (Some 2)))
                 (map (joinpath base_path) ["folder1"; "folder2"])).
  { eexists.
    split; [ vm_compute; reflexivity | ].
    split; vm_compute; reflexivity. }
  destruct Hrun as (t & Hrun & Hnf & Hcs).
  assert (Hstat : forall p, stat temp_fs p <> StatFails PermissionError).
  { intros p. apply mount_stat_allowed. reflexivity. }
  destruct (tree_mirrors_file_system temp_fs (with_max_depth (Some 2))
              base_path t Hstat Hrun Hnf) as (Hm & _).
  split; [ exact Hstat | ].
  exists t. split; [ exact Hrun | ]. split; [ exact Hnf | ].
  split; [ exact Hm | exact Hcs ].
Defined.

(** ** A negative depth limit *)

Lemma generate_tree_negative_limit fs (a d f i : bool) (k : Z) :
  k < 0 ->
  forall fuel self node level,
    0 <= level ->
    generate_tree fs (Namespace.mk a d f (Some k) i) fuel self node level
    = generate_tree fs (Namespace.mk a d f None i) fuel self node level.
Proof.
  intros Hk.
  induction fuel as [ | fuel IH ]; intros self node level Hlevel;
    [ reflexivity | ].
  cbn [generate_tree].
  assert (Hmax : at_max_depth (Namespace.mk a d f (Some k) i) level = false).
  { unfold at_max_depth. cbn [Namespace.max_depth]. apply Z.eqb_neq. lia. }
  rewrite Hmax.
  change (at_max_depth (Namespace.mk a d f None i) level) with false.
  destruct (full self || false); [ reflexivity | ].
  change (expand fs (Namespace.mk a d f (Some k) i) self node)
    with (expand fs (Namespace.mk a d f None i) self node).
  destruct (expand fs (Namespace.mk a d f None i) self node)
    as [[s1 n1] | e | ]; cbn [bind]; try reflexivity.
  rewrite (for_children_ext
             (descend fs
                (generate_tree fs (Namespace.mk a d f (Some k) i) fuel) level)
             (descend fs
                (generate_tree fs (Namespace.mk a d f None i) fuel) level));
    [ reflexivity | ].
  intros s c _. unfold descend.
  destruct (is_dir fs (state c)) as [[ | ] | e]; cbn [lift bind];
    [ | reflexivity | reflexivity ].
  apply IH. lia.
Qed.

(** A negative [max_depth], which the parser accepts, limits nothing: no
    level equals it, and the build is the build with [max_depth] unset, on
    every file system. *)
Theorem negative_max_depth_is_unlimited (fs : FileSystem) (a d f i : bool)
    (directory : Path) (k : Z) :
  k < 0 ->
  post_init fs (Namespace.mk a d f (Some k) i) directory
  = post_init fs (Namespace.mk a d f None i) directory.
Proof.
  intros Hk. unfold post_init.
  rewrite (generate_tree_negative_limit fs a d f i k Hk) by lia.
  reflexivity.
Qed.

Lemma negative_max_depth_is_unlimited_witness :
  -1 < 0 /\
  post_init (mount base_path (chain 5)) (with_max_depth (Some (-1))) base_path
  = post_init (mount base_path (chain 5)) (with_max_depth None) base_path /\
  exists t,
    post_init (mount base_path (chain 5)) (with_max_depth (Some (-1)))
      base_path = Done t /\
    dir_count t = 5.
Proof.
  assert (Hk : -1 < 0) by lia.
  split; [ exact Hk | ]. split.
  - exact (negative_max_depth_is_unlimited (mount base_path (chain 5))
             false false false false base_path (-1) Hk).
  - eexists. split; [ vm_compute; reflexivity | ]. vm_compute; reflexivity.
Defined.
